(** * dev-events: the data-access layer, embedded and verified

    A shallow embedding of
    - [database/event.model.ts]  : slug generation, date and time
      normalisation, the Event pre-save hook;
    - [database/booking.model.ts]: the Booking schema checks;
    - [database/booking.utils.ts]: the transactional booking operations;
    - the connection module      : the cached [connectDB].

    Strings are sequences of UTF-16 code units in the source.  The embedding
    works on the code units below 256 (Basic Latin and Latin-1 Supplement):
    a character is an [ascii] carrying its code.  On that range the string
    primitives used by the source ([toLowerCase], [toUpperCase], [trim],
    the regular-expression classes [\d] and [\s]) are closed and are
    written out below.

    Asynchronous code is run one call at a time, in a monad of state and
    exceptions over the documents of the database.  A round trip to the
    server may fail: the state carries what the server will answer, and the
    properties that need an answering server say so ([faults w = []]).
    An identifier is given as an [ObjectId] or as a string; a string is
    cast as the query casts it, and the cast throws on any text other than
    24 hexadecimal digits. *)

From Stdlib Require Import ZArith Lia Ascii.
From stdpp Require Import base strings list pretty gmap.

Local Open Scope Z_scope.

(* ===================================================================== *)
(** * Thrown values and results *)
(* ===================================================================== *)

(** What a [throw] carries: an [Error] object (its [name] and [message]) or
    any other value.  The source distinguishes the two with
    [error instanceof Error]. *)
Inductive Thrown : Type :=
  | JsError (name message : string)
  | NonError (description : string).

(** [new Error(message)] *)
Definition Error (message : string) : Thrown := JsError "Error" message.

Inductive Result (A : Type) : Type :=
  | Ok (a : A)
  | Throw (e : Thrown).
Arguments Ok {A} a.
Arguments Throw {A} e.

(** JavaScript numbers as far as the source uses them: integers and [NaN]. *)
Inductive number : Type :=
  | NaN
  | Num (z : Z).

(* ===================================================================== *)
(** * String primitives *)
(* ===================================================================== *)

Module Js.

Definition code (c : ascii) : Z := Z.of_N (N_of_ascii c).
Definition chr (z : Z) : ascii := ascii_of_N (Z.to_N z).

Definition between (lo hi : Z) (c : ascii) : bool :=
  (lo <=? code c) && (code c <=? hi).

(** [\d] *)
Definition isDigit (c : ascii) : bool := between 48 57 c.

(** [a-z] *)
Definition isLowerAZ (c : ascii) : bool := between 97 122 c.

(** [\s], and the characters [trim] strips: TAB, LF, VT, FF, CR, SPACE and
    NO-BREAK SPACE are the white space and line terminators below 256. *)
Definition isWhiteSpace (c : ascii) : bool :=
  between 9 13 c || (code c =? 32) || (code c =? 160).

(** [String.prototype.toLowerCase], one code unit: A-Z, and the Latin-1
    capitals U+00C0..U+00DE without the multiplication sign U+00D7. *)
Definition lowerChar (c : ascii) : ascii :=
  if between 65 90 c then chr (code c + 32)
  else if between 192 222 c && negb (code c =? 215) then chr (code c + 32)
  else c.

(** [String.prototype.toUpperCase], one code unit, on the characters whose
    upper case is again one code unit below 256; the three others (U+00B5,
    U+00DF, U+00FF) are left as they are: the source upper-cases only the
    letters matched by [AM|PM]. *)
Definition upperChar (c : ascii) : ascii :=
  if between 97 122 c then chr (code c - 32)
  else if between 224 254 c && negb (code c =? 247) then chr (code c - 32)
  else c.

Fixpoint map (f : ascii → ascii) (s : string) : string :=
  match s with
  | EmptyString => EmptyString
  | String c s' => String (f c) (map f s')
  end.

(** Every character of [s] is in the class [p]. *)
Fixpoint all (p : ascii → bool) (s : string) : bool :=
  match s with
  | EmptyString => true
  | String c s' => p c && all p s'
  end.

Definition toLowerCase : string → string := map lowerChar.
Definition toUpperCase : string → string := map upperChar.

Fixpoint trimStart (s : string) : string :=
  match s with
  | EmptyString => EmptyString
  | String c s' => if isWhiteSpace c then trimStart s' else s
  end.

Fixpoint trimEnd (s : string) : string :=
  match s with
  | EmptyString => EmptyString
  | String c s' =>
      match trimEnd s' with
      | EmptyString => if isWhiteSpace c then EmptyString else String c EmptyString
      | t => String c t
      end
  end.

(** [String.prototype.trim] *)
Definition trim (s : string) : string := trimEnd (trimStart s).

Definition eqb (s t : string) : bool := bool_decide (s = t).

(** Value of a run of decimal digits, most significant first. *)
Fixpoint digitsValue (acc : Z) (s : string) : Z :=
  match s with
  | String c s' => if isDigit c then digitsValue (10 * acc + (code c - 48)) s' else acc
  | EmptyString => acc
  end.

(** [parseInt(s)] on the strings the source passes to it, which are
    regular-expression groups matched by [\d]: the value of the leading
    decimal digits, [NaN] when there is none. *)
Definition parseInt (s : string) : number :=
  match s with
  | String c _ => if isDigit c then Num (digitsValue 0 s) else NaN
  | EmptyString => NaN
  end.

(** [Number.prototype.toString] *)
Definition toString (n : number) : string :=
  match n with
  | NaN => "NaN"
  | Num z => pretty z
  end.

Fixpoint repeat (c : ascii) (n : nat) : string :=
  match n with
  | O => EmptyString
  | S n' => String c (repeat c n')
  end.

(** [s.padStart(width, c)] with a one-character filler. *)
Definition padStart (width : nat) (c : ascii) (s : string) : string :=
  repeat c (width - String.length s) +:+ s.

(** Comparisons and arithmetic on numbers; every comparison with [NaN] is
    false. *)
Definition lt (a : number) (z : Z) : bool :=
  match a with Num x => x <? z | NaN => false end.
Definition gt (a : number) (z : Z) : bool :=
  match a with Num x => z <? x | NaN => false end.
Definition strictEq (a : number) (z : Z) : bool :=
  match a with Num x => x =? z | NaN => false end.
Definition add (a : number) (z : Z) : number :=
  match a with Num x => Num (x + z) | NaN => NaN end.

End Js.

(* ===================================================================== *)
(** * event.model.ts: [normalizeTime] *)
(* ===================================================================== *)

Module Clock.

(** Groups captured by
    [/^(\d{1,2}):(\d{2})(\s*(AM|PM))?$/i]: group 1, group 2 and group 4
    ([None] when the optional group 3 did not take part). *)
Definition TimeMatch : Type := string * string * option string.

(** [AM|PM] under the [i] flag, anchored at the end of the input. *)
Definition matchMeridiem (s : string) : option string :=
  match s with
  | String a (String m EmptyString) =>
      if (Js.eqb (Js.toUpperCase s) "AM" || Js.eqb (Js.toUpperCase s) "PM")
      then Some s else None
  | _ => None
  end.

(** [(\s*(AM|PM))?$] : the optional group is tried first (greedy), with
    [\s*] taking every white-space character; when it cannot match, the
    group is skipped and [$] needs the end of the input. *)
Definition matchSuffix (s : string) : option (option string) :=
  match matchMeridiem (Js.trimStart s) with
  | Some p => Some (Some p)
  | None => match s with EmptyString => Some None | _ => None end
  end.

(** [:(\d{2})...] after group 1. *)
Definition matchAfterHours (h : string) (s : string) : option TimeMatch :=
  match s with
  | String colon (String m1 (String m2 rest)) =>
      if (Js.code colon =? 58) && Js.isDigit m1 && Js.isDigit m2 then
        match matchSuffix rest with
        | Some p => Some (h, String m1 (String m2 EmptyString), p)
        | None => None
        end
      else None
  | _ => None
  end.

(** [timeString.match(timeRegex)]: [\d{1,2}] is greedy, so two digits are
    tried before one. *)
Definition matchTime (s : string) : option TimeMatch :=
  match s with
  | String d1 rest1 =>
      if Js.isDigit d1 then
        let two :=
          match rest1 with
          | String d2 rest2 =>
              if Js.isDigit d2
              then matchAfterHours (String d1 (String d2 EmptyString)) rest2
              else None
          | EmptyString => None
          end in
        match two with
        | Some r => Some r
        | None => matchAfterHours (String d1 EmptyString) rest1
        end
      else None
  | EmptyString => None
  end.

Definition invalidFormat : Thrown :=
  Error "Invalid time format. Use HH:MM or HH:MM AM/PM".
Definition invalidValues : Thrown := Error "Invalid time values".

(** The 12-hour to 24-hour conversion of the source, the two [if]s in
    their order. *)
Definition convertHours (period : option string) (hours : number) : number :=
  match period with
  | Some p =>
      let hours := if Js.eqb p "PM" && negb (Js.strictEq hours 12)
                   then Js.add hours 12 else hours in
      let hours := if Js.eqb p "AM" && Js.strictEq hours 12
                   then Num 0 else hours in
      hours
  | None => hours
  end.

Definition normalizeTime (timeString : string) : Result string :=
  match matchTime (Js.trim timeString) with
  | None => Throw invalidFormat
  | Some (g1, g2, g4) =>
      let hours := Js.parseInt g1 in
      let minutes := g2 in
      let period := Js.toUpperCase <$> g4 in
      let hours := convertHours period hours in
      if Js.lt hours 0 || Js.gt hours 23
         || Js.lt (Js.parseInt minutes) 0 || Js.gt (Js.parseInt minutes) 59
      then Throw invalidValues
      else Ok (Js.padStart 2 "0" (Js.toString hours) +:+ ":" +:+ minutes)
  end.

End Clock.

(* ===================================================================== *)
(** * event.model.ts: [generateSlug] *)
(* ===================================================================== *)

Module Slug.

Definition isHyphen (c : ascii) : bool := Js.code c =? 45.

(** The complement of the class [[^a-z0-9\s-]]. *)
Definition isSlugChar (c : ascii) : bool :=
  Js.isLowerAZ c || Js.isDigit c || Js.isWhiteSpace c || isHyphen c.

(** [.replace(/[^a-z0-9\s-]/g, '')] *)
Fixpoint removeSpecial (s : string) : string :=
  match s with
  | EmptyString => EmptyString
  | String c s' =>
      if isSlugChar c then String c (removeSpecial s') else removeSpecial s'
  end.

(** [.replace(/X+/g, '-')] for a character class [X]: every maximal run of
    [X] becomes one hyphen.  [inRun] records that the previous character
    belonged to the run being replaced. *)
Fixpoint replaceRuns (X : ascii → bool) (inRun : bool) (s : string) : string :=
  match s with
  | EmptyString => EmptyString
  | String c s' =>
      if X c then
        if inRun then replaceRuns X true s'
        else String "-" (replaceRuns X true s')
      else String c (replaceRuns X false s')
  end.

Definition dropLeadingHyphen (s : string) : string :=
  match s with
  | String c s' => if isHyphen c then s' else s
  | EmptyString => EmptyString
  end.

Fixpoint dropTrailingHyphen (s : string) : string :=
  match s with
  | EmptyString => EmptyString
  | String c EmptyString => if isHyphen c then EmptyString else s
  | String c s' => String c (dropTrailingHyphen s')
  end.

(** [.replace(/^-|-$/g, '')]: a hyphen at the start, and a hyphen at the
    end of what follows it. *)
Definition stripEdgeHyphens (s : string) : string :=
  dropTrailingHyphen (dropLeadingHyphen s).

Definition generateSlug (title : string) : string :=
  stripEdgeHyphens
    (replaceRuns isHyphen false
       (replaceRuns Js.isWhiteSpace false
          (removeSpecial (Js.trim (Js.toLowerCase title))))).

End Slug.

(* ===================================================================== *)
(** * The document store *)
(* ===================================================================== *)

(** A [Types.ObjectId], identified by its hexadecimal rendering. *)
Record ObjectId : Type := mkObjectId { toHexString : string }.

Global Instance ObjectId_eq_dec : EqDecision ObjectId.
Proof. solve_decision. Defined.

Global Instance ObjectId_countable : Countable ObjectId :=
  inj_countable' toHexString mkObjectId (λ o, match o with mkObjectId _ => eq_refl end).

(** An argument of type [string | Types.ObjectId]: any string, or an
    ObjectId. *)
Inductive IdArg : Type :=
  | IdString (text : string)
  | IdObject (o : ObjectId).

(** The id as it is interpolated in a template literal: a string as it was
    written, an ObjectId by its hexadecimal rendering. *)
Definition idText (i : IdArg) : string :=
  match i with
  | IdString s => s
  | IdObject o => toHexString o
  end.

(** [[0-9a-fA-F]] *)
Definition isHexDigit (c : ascii) : bool :=
  Js.isDigit c || Js.between 97 102 c || Js.between 65 70 c.

(** [s.length === 24 && /^[0-9a-fA-F]{24}$/.test(s)]: the strings the
    constructor of [ObjectId] accepts (bson 6, the library of Mongoose 8). *)
Definition isObjectIdText (s : string) : bool :=
  bool_decide (String.length s = 24%nat) && Js.all isHexDigit s.

(** What [new Types.ObjectId(s)] throws on any other string. *)
Definition bsonError : Thrown :=
  JsError "BSONError"
    "input must be a 24 character hex string, 12 byte Uint8Array, or an integer".

(** [new Types.ObjectId(s)]: the twelve bytes the text denotes, read in
    either letter case; [toHexString] renders them in lower case. *)
Definition ObjectId_ofString (s : string) : Result ObjectId :=
  if isObjectIdText s then Ok (mkObjectId (Js.toLowerCase s)) else Throw bsonError.

(** [typeof id === 'string' ? new Types.ObjectId(id) : id] *)
Definition toObjectId (i : IdArg) : Result ObjectId :=
  match i with
  | IdString s => ObjectId_ofString s
  | IdObject o => Ok o
  end.

(** The double quote, for the messages that quote a value. *)
Definition dq : string := String (Js.chr 34) EmptyString.

(** The [CastError] of a query of [model] whose [_id] is the string [value],
    for a value that prints as it is. *)
Definition castError (value model : string) : Thrown :=
  JsError "CastError"
    ("Cast to ObjectId failed for value " +:+ dq +:+ value +:+ dq
     +:+ " (type string) at path " +:+ dq +:+ "_id" +:+ dq
     +:+ " for model " +:+ dq +:+ model +:+ dq).

(** How a query of [model] casts its [_id] argument, before anything is
    sent to the server: an ObjectId is taken as it is, a string goes through
    the constructor, whose failure is reported as a [CastError]. *)
Definition castObjectId (model : string) (i : IdArg) : Result ObjectId :=
  match i with
  | IdObject o => Ok o
  | IdString s =>
      match ObjectId_ofString s with
      | Ok o => Ok o
      | Throw _ => Throw (castError s model)
      end
  end.

(** Whether the cast accepts the argument. *)
Definition isValidId (i : IdArg) : bool :=
  match i with
  | IdString s => isObjectIdText s
  | IdObject _ => true
  end.

(** The ObjectId whose rendering is the text of the argument in lower
    case: what an argument that the cast accepts is cast to
    ([castObjectId_valid]).  The properties below name documents with it. *)
Definition objectIdOf (i : IdArg) : ObjectId :=
  match i with
  | IdString s => mkObjectId (Js.toLowerCase s)
  | IdObject o => o
  end.

(** The paths of an Event document, in the order of the schema
    ([createdAt] and [updatedAt], which the code under study never reads,
    are left out). *)
Record EventDoc : Type := mkEvent {
  ev_title : string;
  ev_slug : string;
  ev_description : string;
  ev_overview : string;
  ev_image : string;
  ev_venue : string;
  ev_location : string;
  ev_date : string;
  ev_time : string;
  ev_mode : string;
  ev_audience : string;
  ev_agenda : list string;
  ev_organizer : string;
  ev_tags : list string;
}.

(** The fields of a Booking document ([createdAt] and [updatedAt], which the
    code under study never reads, are left out, as for Events). *)
Record BookingDoc : Type := mkBooking {
  bk_eventId : ObjectId;
  bk_email : string;
}.

(** Two collections, each keyed by the primary key [_id]. *)
Record Store : Type := mkStore {
  events : gmap ObjectId EventDoc;
  bookings : gmap ObjectId BookingDoc;
}.

(** Calls made on the database client, in the order they are made. *)
Inductive DbCall : Type :=
  | StartSession
  | StartTransaction
  | CommitTransaction
  | AbortTransaction
  | EndSession
  | EventFindOne (slug : string) (ne : option ObjectId)
  | EventFindById (id : ObjectId)
  | EventInsert (id : ObjectId)
  | EventUpdate (id : ObjectId)
  | BookingInsert (id : ObjectId)
  | BookingFindById (id : ObjectId)
  | BookingUpdate (id : ObjectId)
  | BookingFindByIdAndDelete (id : ObjectId).

(** The state the operations run against.
    - [committed]: the documents visible to everybody;
    - [transaction]: the working copy of the open transaction, if any; reads
      and writes bound to the session go there, [commitTransaction] publishes
      it and [abortTransaction] discards it;
    - [openSessions]: sessions started and not yet ended;
    - [faults]: what the server will answer to the coming round trips, one
      entry per round trip: [None] lets it through, [Some e] makes it throw
      [e]; past the end of the list every round trip goes through;
    - [calls]: the trace of calls so far;
    - [nextId]: the counter of the driver's [_id] generator. *)
Record World : Type := mkWorld {
  committed : Store;
  transaction : option Store;
  openSessions : nat;
  faults : list (option Thrown);
  calls : list DbCall;
  nextId : N;
}.

Definition setCommitted (st : Store) (w : World) : World :=
  mkWorld st (transaction w) (openSessions w) (faults w) (calls w) (nextId w).
Definition setTransaction (t : option Store) (w : World) : World :=
  mkWorld (committed w) t (openSessions w) (faults w) (calls w) (nextId w).
Definition setOpenSessions (n : nat) (w : World) : World :=
  mkWorld (committed w) (transaction w) n (faults w) (calls w) (nextId w).
Definition setFaults (f : list (option Thrown)) (w : World) : World :=
  mkWorld (committed w) (transaction w) (openSessions w) f (calls w) (nextId w).
Definition logCall (c : DbCall) (w : World) : World :=
  mkWorld (committed w) (transaction w) (openSessions w) (faults w)
          (calls w ++ [c]) (nextId w).
Definition setNextId (n : N) (w : World) : World :=
  mkWorld (committed w) (transaction w) (openSessions w) (faults w) (calls w) n.

(** ** The monad of asynchronous code: state and exceptions *)

Definition M (A : Type) : Type := World → Result A * World.

Definition ret {A} (a : A) : M A := λ w, (Ok a, w).
Definition throw {A} (e : Thrown) : M A := λ w, (Throw e, w).
Definition bind {A B} (m : M A) (k : A → M B) : M B :=
  λ w, match m w with
       | (Ok a, w') => k a w'
       | (Throw e, w') => (Throw e, w')
       end.

Notation "'let*' x := m 'in' k" := (bind m (λ x, k))
  (at level 10, x name, m at level 100, k at level 200, only parsing).

(** [try { body } catch (error) { handler }] *)
Definition tryCatch {A} (body : M A) (handler : Thrown → M A) : M A :=
  λ w, match body w with
       | (Ok a, w') => (Ok a, w')
       | (Throw e, w') => handler e w'
       end.

(** [try { body } catch (error) { handler } finally { final }]: [final] runs
    on every exit path; when it throws, its exception replaces the outcome. *)
Definition tryCatchFinally {A} (body : M A) (handler : Thrown → M A)
    (final : M unit) : M A :=
  λ w, let (r, w1) := tryCatch body handler w in
       match final w1 with
       | (Ok _, w2) => (r, w2)
       | (Throw e, w2) => (Throw e, w2)
       end.

(** An action of the client that does not reach the server. *)
Definition localCall {A} (c : DbCall) (act : World → A * World) : M A :=
  λ w, let (a, w') := act (logCall c w) in (Ok a, w').

(** A round trip to the server: it is logged, then the server either fails
    (leaving the documents as they are) or performs [act]. *)
Definition roundTrip {A} (c : DbCall) (act : World → Result A * World) : M A :=
  λ w, let w1 := logCall c w in
       match faults w1 with
       | Some e :: rest => (Throw e, setFaults rest w1)
       | None :: rest => act (setFaults rest w1)
       | [] => act w1
       end.

(** The documents a read or write sees: the working copy of the open
    transaction when the operation is bound to the session. *)
Definition visible (inSession : bool) (w : World) : Store :=
  if inSession then default (committed w) (transaction w) else committed w.

Definition writeStore (inSession : bool) (st : Store) (w : World) : World :=
  if inSession then
    match transaction w with
    | Some _ => setTransaction (Some st) w
    | None => setCommitted st w
    end
  else setCommitted st w.

(** ** Sessions and transactions *)

(** [await mongoose.startSession()] *)
Definition startSession : M unit :=
  roundTrip StartSession (λ w, (Ok (), setOpenSessions (S (openSessions w)) w)).

(** [session.startTransaction()]: not awaited, the transaction starts on the
    committed documents. *)
Definition startTransaction : M unit :=
  localCall StartTransaction (λ w, ((), setTransaction (Some (committed w)) w)).

(** [await session.commitTransaction()] *)
Definition commitTransaction : M unit :=
  roundTrip CommitTransaction (λ w,
    (Ok (), setTransaction None (setCommitted (visible true w) w))).

(** [await session.abortTransaction()] *)
Definition abortTransaction : M unit :=
  roundTrip AbortTransaction (λ w, (Ok (), setTransaction None w)).

(** [await session.endSession()] *)
Definition endSession : M unit :=
  roundTrip EndSession (λ w, (Ok (), setOpenSessions (pred (openSessions w)) w)).

(** The driver's [_id] generator: a counter, rendered on 24 digits. *)
Definition newObjectId : M ObjectId :=
  λ w, (Ok (mkObjectId (Js.padStart 24 "0" (pretty (nextId w)))),
        setNextId (N.succ (nextId w)) w).

(* ===================================================================== *)
(** * event.model.ts: the Event model *)
(* ===================================================================== *)

(** What the code takes from the JavaScript host and what the repository
    does not define: the [Date] constructor applied to a string (the time
    value, [None] for an invalid date) and [Date.prototype.toISOString]. *)
Class Host : Type := mkHost {
  Date_parse : string → option Z;
  Date_toISOString : Z → string;
}.

Module EventModel.

Import Slug.

(** The filter [{ slug, _id: { $ne: excludeId } }], or [{ slug }] when
    [ne] is [None]. *)
Definition matchesQuery (slug : string) (ne : option ObjectId)
    (entry : ObjectId * EventDoc) : bool :=
  bool_decide (ev_slug entry.2 = slug) && bool_decide (ne ≠ Some entry.1).

(** [await Event.findOne(query).select('_id').lean()] *)
Definition findOne (slug : string) (ne : option ObjectId) : M (option ObjectId) :=
  roundTrip (EventFindOne slug ne) (λ w,
    (Ok (fst <$> List.find (matchesQuery slug ne)
                   (map_to_list (events (committed w)))), w)).

(** [await Event.findById(id).select('_id')], bound to the session or not:
    the cast of [id], then the look-up. *)
Definition findById (id : IdArg) (inSession : bool) : M (option ObjectId) :=
  match castObjectId "Event" id with
  | Throw error => throw error
  | Ok oid =>
      roundTrip (EventFindById oid) (λ w,
        (Ok (match events (visible inSession w) !! oid with
             | Some _ => Some oid
             | None => None
             end), w))
  end.

Definition MAX_ATTEMPTS : nat := 100.

Definition exhausted : Thrown :=
  Error ("Unable to generate unique slug after " +:+ pretty MAX_ATTEMPTS +:+ " attempts").

(** The [catch] block of the loop body. *)
Definition lookupFailed (error : Thrown) : Thrown :=
  match error with
  | JsError _ message => Error ("Failed to generate unique slug: " +:+ message)
  | NonError _ => Error "Failed to generate unique slug: Unknown error"
  end.

(** The [for] loop of [generateUniqueSlug] with [remaining] iterations to
    go ([MAX_ATTEMPTS - attempt]); [slug] and [counter] are the loop's
    variables. *)
Fixpoint attemptLoop (remaining : nat) (baseSlug : string)
    (excludeId : option ObjectId) (slug : string) (counter : Z) : M string :=
  match remaining with
  | O => throw exhausted
  | S remaining' =>
      let* existingEvent := tryCatch (findOne slug excludeId)
                                (λ error, throw (lookupFailed error)) in
      match existingEvent with
      | None => ret slug
      | Some _ =>
          attemptLoop remaining' baseSlug excludeId
                      (baseSlug +:+ "-" +:+ pretty counter) (counter + 1)
      end
  end.

Definition generateUniqueSlug (title : string) (excludeId : option ObjectId)
    : M string :=
  let baseSlug := generateSlug title in
  attemptLoop MAX_ATTEMPTS baseSlug excludeId baseSlug 1.

(** [/^\d{4}-\d{2}-\d{2}$/.test(s)] *)
Definition isoDateRegex_test (s : string) : bool :=
  match s with
  | String y1 (String y2 (String y3 (String y4 (String h1
      (String m1 (String m2 (String h2 (String d1 (String d2 EmptyString))))))))) =>
      Js.isDigit y1 && Js.isDigit y2 && Js.isDigit y3 && Js.isDigit y4
      && isHyphen h1 && Js.isDigit m1 && Js.isDigit m2
      && isHyphen h2 && Js.isDigit d1 && Js.isDigit d2
  | _ => false
  end.

(** [s.split('T')[0]] *)
Fixpoint beforeT (s : string) : string :=
  match s with
  | EmptyString => EmptyString
  | String c s' => if Js.code c =? 84 then EmptyString else String c (beforeT s')
  end.

Definition invalidDate : Thrown := Error "Invalid date format".

Definition normalizeDate `{Host} (dateString : string) : Result string :=
  if isoDateRegex_test dateString then
    match Date_parse (dateString +:+ "T00:00:00Z") with
    | None => Throw invalidDate
    | Some _ => Ok dateString
    end
  else
    match Date_parse dateString with
    | None => Throw invalidDate
    | Some date => Ok (beforeT (Date_toISOString date))
    end.

(** A document instance in memory: its [_id], its fields, and what
    [isNew] and [isModified] answer. *)
Record Instance : Type := mkInstance {
  _id : ObjectId;
  doc : EventDoc;
  isNew : bool;
  modifiedTitle : bool;
  modifiedDate : bool;
  modifiedTime : bool;
}.

Definition withDoc (d : EventDoc) (e : Instance) : Instance :=
  mkInstance (_id e) d (isNew e) (modifiedTitle e) (modifiedDate e) (modifiedTime e).

Definition setSlug (v : string) (d : EventDoc) : EventDoc :=
  mkEvent (ev_title d) v (ev_description d) (ev_overview d) (ev_image d)
          (ev_venue d) (ev_location d) (ev_date d) (ev_time d) (ev_mode d)
          (ev_audience d) (ev_agenda d) (ev_organizer d) (ev_tags d).
Definition setTitle (v : string) (d : EventDoc) : EventDoc :=
  mkEvent v (ev_slug d) (ev_description d) (ev_overview d) (ev_image d)
          (ev_venue d) (ev_location d) (ev_date d) (ev_time d) (ev_mode d)
          (ev_audience d) (ev_agenda d) (ev_organizer d) (ev_tags d).
Definition setDate (v : string) (d : EventDoc) : EventDoc :=
  mkEvent (ev_title d) (ev_slug d) (ev_description d) (ev_overview d) (ev_image d)
          (ev_venue d) (ev_location d) v (ev_time d) (ev_mode d)
          (ev_audience d) (ev_agenda d) (ev_organizer d) (ev_tags d).
Definition setTime (v : string) (d : EventDoc) : EventDoc :=
  mkEvent (ev_title d) (ev_slug d) (ev_description d) (ev_overview d) (ev_image d)
          (ev_venue d) (ev_location d) (ev_date d) v (ev_mode d)
          (ev_audience d) (ev_agenda d) (ev_organizer d) (ev_tags d).

(** A pure function that throws, run inside asynchronous code. *)
Definition liftResult {A} (r : Result A) : M A :=
  match r with
  | Ok a => ret a
  | Throw e => throw e
  end.

(** ** The validation declared by the schema *)

(** [required] on a String path: the empty string fails. *)
Definition required (message value : string) : option string :=
  if Js.eqb value "" then Some message else None.

(** [maxlength: [n, message]] *)
Definition maxlength (n : nat) (message value : string) : option string :=
  if bool_decide (String.length value ≤ n)%nat then None else Some message.

(** [enum: { values, message }] *)
Definition enumOf (values : list string) (message value : string) : option string :=
  if bool_decide (value ∈ values) then None else Some message.

(** [validate: { validator: v => v.length > 0, message }] on an array path
    ([required] itself passes on every array). *)
Definition atLeastOne (message : string) (v : list string) : option string :=
  match v with
  | [] => Some message
  | _ :: _ => None
  end.

(** The validators of a path run in the order of their declaration; the
    first that fails gives the error of the path. *)
Fixpoint firstError (checks : list (option string)) : option string :=
  match checks with
  | [] => None
  | Some message :: _ => Some message
  | None :: checks' => firstError checks'
  end.

(** The error of every path that has validators, in the order of the
    schema ([slug] has none). *)
Definition pathErrors (d : EventDoc) : list (string * option string) :=
  [ ("title", firstError [required "Title is required" (ev_title d);
                          maxlength 100 "Title cannot exceed 100 characters"
                                    (ev_title d)]);
    ("description",
       firstError [required "Description is required" (ev_description d);
                   maxlength 1000 "Description cannot exceed 1000 characters"
                             (ev_description d)]);
    ("overview", firstError [required "Overview is required" (ev_overview d);
                             maxlength 500 "Overview cannot exceed 500 characters"
                                       (ev_overview d)]);
    ("image", required "Image URL is required" (ev_image d));
    ("venue", required "Venue is required" (ev_venue d));
    ("location", required "Location is required" (ev_location d));
    ("date", required "Date is required" (ev_date d));
    ("time", required "Time is required" (ev_time d));
    ("mode", firstError [required "Mode is required" (ev_mode d);
                         enumOf ["online"; "offline"; "hybrid"]
                              "Mode must be either online, offline, or hybrid"
                              (ev_mode d)]);
    ("audience", required "Audience is required" (ev_audience d));
    ("agenda", atLeastOne "At least one agenda item is required" (ev_agenda d));
    ("organizer", required "Organizer is required" (ev_organizer d));
    ("tags", atLeastOne "At least one tag is required" (ev_tags d)) ].

(** The paths that fail, each with its message. *)
Definition validation (d : EventDoc) : list (string * string) :=
  omap (λ pe, (λ message, (pe.1, message)) <$> pe.2) (pathErrors d).

Fixpoint joinWith (sep : string) (l : list string) : string :=
  match l with
  | [] => EmptyString
  | [s] => s
  | s :: l' => s +:+ sep +:+ joinWith sep l'
  end.

(** The [ValidationError] of a document: its message lists the paths that
    failed. *)
Definition validationFailed (failures : list (string * string)) : Thrown :=
  JsError "ValidationError"
    ("Event validation failed: "
     +:+ joinWith ", " ((λ f, f.1 +:+ ": " +:+ f.2) <$> failures)).

(** The validation [save()] runs first, before the hooks the schema
    registers. *)
Definition validate (event : Instance) : M unit :=
  match validation (doc event) with
  | [] => ret ()
  | failures => throw (validationFailed failures)
  end.

(** [EventSchema.pre('save', ...)]; [return next(error)] ends the hook with
    the error. *)
Definition preSave `{Host} (event : Instance) : M Instance :=
  let* event := (if modifiedTitle event || isNew event then
              let* slug := generateUniqueSlug (ev_title (doc event)) (Some (_id event)) in
              ret (withDoc (setSlug slug (doc event)) event)
            else ret event) in
  let* event := (if modifiedDate event then
              let* date := liftResult (normalizeDate (ev_date (doc event))) in
              ret (withDoc (setDate date (doc event)) event)
            else ret event) in
  let* event := (if modifiedTime event then
              let* time := liftResult (Clock.normalizeTime (ev_time (doc event))) in
              ret (withDoc (setTime time (doc event)) event)
            else ret event) in
  ret event.

(** The server's answer to a write that breaks a unique index. *)
Definition duplicateKey (index : string) : Thrown :=
  JsError "MongoServerError" ("E11000 duplicate key error index: " +:+ index).

Definition documentNotFound : Thrown :=
  JsError "DocumentNotFoundError" "No document found for query".

(** The write that ends [event.save()]: an insert for a new document, an
    update otherwise, under the primary key and the unique index
    [{ slug: 1 }] declared by the schema. *)
Definition write (event : Instance) : M Instance :=
  roundTrip (if isNew event then EventInsert (_id event) else EventUpdate (_id event))
    (λ w,
      let evs := events (committed w) in
      if isNew event && bool_decide (is_Some (evs !! _id event)) then
        (Throw (duplicateKey "_id_"), w)
      else if negb (isNew event) && bool_decide (evs !! _id event = None) then
        (Throw documentNotFound, w)
      else
        match List.find (matchesQuery (ev_slug (doc event)) (Some (_id event)))
                        (map_to_list evs) with
        | Some _ => (Throw (duplicateKey "slug_1"), w)
        | None =>
            (Ok (mkInstance (_id event) (doc event) false false false false),
             setCommitted
               (mkStore (<[_id event := doc event]> evs) (bookings (committed w))) w)
        end).

(** [await event.save()]: the validation, the pre-save hook, then the
    write. *)
Definition save `{Host} (event : Instance) : M Instance :=
  let* _ := validate event in
  let* event := preSave event in
  write event.

(** The setters the schema declares, applied to the values a document is
    built from: [trim] on [title], [description], [overview], [image],
    [venue], [location], [audience] and [organizer]; [lowercase] and [trim]
    on [slug]. *)
Definition applySetters (data : EventDoc) : EventDoc :=
  mkEvent (Js.trim (ev_title data)) (Js.trim (Js.toLowerCase (ev_slug data)))
          (Js.trim (ev_description data)) (Js.trim (ev_overview data))
          (Js.trim (ev_image data)) (Js.trim (ev_venue data))
          (Js.trim (ev_location data)) (ev_date data) (ev_time data)
          (ev_mode data) (Js.trim (ev_audience data)) (ev_agenda data)
          (Js.trim (ev_organizer data)) (ev_tags data).

(** [new Event(data)] with the [_id] the driver gave it. *)
Definition newEvent (id : ObjectId) (data : EventDoc) : Instance :=
  mkInstance id (applySetters data) true true true true.

(** [event.title = title] on a document: the [trim] setter runs, and the
    path is marked modified when the document is new or the value
    changes. *)
Definition rename (title : string) (event : Instance) : Instance :=
  mkInstance (_id event) (setTitle (Js.trim title) (doc event)) (isNew event)
             (modifiedTitle event || isNew event
              || negb (Js.eqb (Js.trim title) (ev_title (doc event))))
             (modifiedDate event) (modifiedTime event).

End EventModel.

(* ===================================================================== *)
(** * booking.model.ts: the Booking model *)
(* ===================================================================== *)

Module BookingModel.

Definition isAlnum (c : ascii) : bool :=
  Js.isLowerAZ c || Js.between 65 90 c || Js.isDigit c.

Fixpoint includes (c : ascii) (s : string) : bool :=
  match s with
  | EmptyString => false
  | String d s' => (Js.code c =? Js.code d) || includes c s'
  end.

(** The class [[a-zA-Z0-9.!#$%&'*+/=?^_`{|}~-]] *)
Definition isLocalChar (c : ascii) : bool :=
  isAlnum c || includes c ".!#$%&'*+/=?^_`{|}~-".

Fixpoint last (s : string) : option ascii :=
  match s with
  | EmptyString => None
  | String c EmptyString => Some c
  | String _ s' => last s'
  end.

(** [[a-zA-Z0-9](?:[a-zA-Z0-9-]{0,61}[a-zA-Z0-9])?]: one to 63 characters,
    letters, digits and hyphens, the first and the last not a hyphen. *)
Definition isLabel (s : string) : bool :=
  match s, last s with
  | String c _, Some d =>
      isAlnum c && isAlnum d
      && Js.all (λ x, isAlnum x || Slug.isHyphen x) s
      && bool_decide (String.length s ≤ 63)%nat
  | _, _ => false
  end.

(** The pieces of [s] between the occurrences of [sep]; [cur] holds the
    characters of the current piece, last first. *)
Fixpoint splitOn (sep : ascii) (cur : string) (s : string) : list string :=
  match s with
  | EmptyString => [String.rev cur]
  | String c s' =>
      if Js.code c =? Js.code sep then String.rev cur :: splitOn sep EmptyString s'
      else splitOn sep (String c cur) s'
  end.

(** The text before the first [sep] and the text after it. *)
Fixpoint cut (sep : ascii) (s : string) : option (string * string) :=
  match s with
  | EmptyString => None
  | String c s' =>
      if Js.code c =? Js.code sep then Some (EmptyString, s')
      else match cut sep s' with
           | Some (a, b) => Some (String c a, b)
           | None => None
           end
  end.

(** [emailRegex.test(email)]: a non-empty local part, [@], and labels
    separated by dots. *)
Definition emailRegex_test (email : string) : bool :=
  match cut "@" email with
  | Some (String c l, domain) =>
      Js.all isLocalChar (String c l)
      && forallb isLabel (splitOn "." EmptyString domain)
  | _ => false
  end.

Record Instance : Type := mkInstance {
  _id : ObjectId;
  doc : BookingDoc;
  isNew : bool;
  modifiedEventId : bool;
  modifiedEmail : bool;
}.

Definition validationError (message : string) : Thrown :=
  JsError "ValidationError" message.

(** Schema validation of [email]: [required], then the [validate] entry. *)
Definition validate (booking : Instance) : M unit :=
  if Js.eqb (bk_email (doc booking)) "" then
    throw (validationError "Booking validation failed: email: Email is required")
  else if emailRegex_test (bk_email (doc booking)) then ret ()
  else throw (validationError
    "Booking validation failed: email: Please provide a valid email address").

(** [BookingSchema.pre('save', ...)]: the look-up of the event is not bound
    to any session, and only that look-up can reach the [catch] block. *)
Definition preSave (booking : Instance) : M unit :=
  if modifiedEventId booking || isNew booking then
    let* eventExists :=
      tryCatch
        (EventModel.findById (IdObject (bk_eventId (doc booking))) false)
        (λ _, throw (validationError "Invalid event ID format or database error")) in
    match eventExists with
    | None =>
        throw (validationError
          ("Event with ID " +:+ toHexString (bk_eventId (doc booking))
           +:+ " does not exist"))
    | Some _ => ret ()
    end
  else ret ().

Definition sameKey (b : BookingDoc) (ne : ObjectId)
    (entry : ObjectId * BookingDoc) : bool :=
  bool_decide (bk_eventId entry.2 = bk_eventId b)
  && bool_decide (bk_email entry.2 = bk_email b)
  && bool_decide (entry.1 ≠ ne).

(** The write that ends [booking.save({ session })], under the primary key
    and the unique index [uniq_event_email]. *)
Definition write (booking : Instance) : M Instance :=
  roundTrip (if isNew booking then BookingInsert (_id booking)
             else BookingUpdate (_id booking))
    (λ w,
      let st := visible true w in
      if isNew booking && bool_decide (is_Some (bookings st !! _id booking)) then
        (Throw (EventModel.duplicateKey "_id_"), w)
      else if negb (isNew booking) && bool_decide (bookings st !! _id booking = None) then
        (Throw EventModel.documentNotFound, w)
      else
        match List.find (sameKey (doc booking) (_id booking))
                        (map_to_list (bookings st)) with
        | Some _ => (Throw (EventModel.duplicateKey "uniq_event_email"), w)
        | None =>
            (Ok (mkInstance (_id booking) (doc booking) false false false),
             writeStore true
               (mkStore (events st) (<[_id booking := doc booking]> (bookings st))) w)
        end).

(** [await booking.save({ session })] *)
Definition save (booking : Instance) : M Instance :=
  let* _ := validate booking in
  let* _ := preSave booking in
  write booking.

(** [await Booking.create([data], { session })], the one document of the
    array: the schema's setters ([trim], [lowercase]) run on [email] when
    the document is built. *)
Definition create (eventId : ObjectId) (email : string) : M Instance :=
  let* id := newObjectId in
  save (mkInstance id (mkBooking eventId (Js.toLowerCase (Js.trim email)))
                   true true true).

(** [await Booking.findById(id).session(session)]: the cast of [id], then
    the look-up. *)
Definition findById (id : IdArg) : M (option Instance) :=
  match castObjectId "Booking" id with
  | Throw error => throw error
  | Ok oid =>
      roundTrip (BookingFindById oid) (λ w,
        (Ok ((λ d, mkInstance oid d false false false)
               <$> bookings (visible true w) !! oid), w))
  end.

(** [booking.email = email] *)
Definition setEmail (email : string) (booking : Instance) : Instance :=
  mkInstance (_id booking)
             (mkBooking (bk_eventId (doc booking)) (Js.toLowerCase (Js.trim email)))
             (isNew booking) (modifiedEventId booking) true.

(** [await Booking.findByIdAndDelete(id).session(session)]: the cast of
    [id], then the removal; the removed document, or [None] for [null]. *)
Definition findByIdAndDelete (id : IdArg) : M (option BookingDoc) :=
  match castObjectId "Booking" id with
  | Throw error => throw error
  | Ok oid =>
      roundTrip (BookingFindByIdAndDelete oid) (λ w,
        let st := visible true w in
        (Ok (bookings st !! oid),
         writeStore true (mkStore (events st) (delete oid (bookings st))) w))
  end.

End BookingModel.

(* ===================================================================== *)
(** * booking.utils.ts: the transactional operations *)
(* ===================================================================== *)

Module BookingUtils.

(** The [catch] blocks: abort, then rethrow an [Error] as it is and
    anything else as a new [Error]. *)
Definition abortAndRethrow {A} (unknown : string) (error : Thrown) : M A :=
  let* _ := abortTransaction in
  match error with
  | JsError _ _ => throw error
  | NonError _ => throw (Error unknown)
  end.

Definition eventMissing (eventId : IdArg) : Thrown :=
  Error ("Event with ID " +:+ idText eventId +:+ " does not exist").

Definition bookingMissing (bookingId : IdArg) : Thrown :=
  Error ("Booking with ID " +:+ idText bookingId +:+ " does not exist").

Definition createBookingWithTransaction (eventId : IdArg) (email : string)
    : M BookingModel.Instance :=
  let* _ := startSession in
  let* _ := startTransaction in
  tryCatchFinally
    (let* eventExists := EventModel.findById eventId true in
     match eventExists with
     | None => throw (eventMissing eventId)
     | Some _ =>
         let* eventIdObject := EventModel.liftResult (toObjectId eventId) in
         let* booking :=
           BookingModel.create eventIdObject (Js.toLowerCase (Js.trim email)) in
         let* _ := commitTransaction in
         ret booking
     end)
    (abortAndRethrow "Failed to create booking: Unknown error")
    endSession.

Definition updateBookingWithTransaction (bookingId : IdArg) (newEmail : string)
    : M BookingModel.Instance :=
  let* _ := startSession in
  let* _ := startTransaction in
  tryCatchFinally
    (let* found := BookingModel.findById bookingId in
     match found with
     | None => throw (bookingMissing bookingId)
     | Some booking =>
         let* booking :=
           BookingModel.save
             (BookingModel.setEmail (Js.toLowerCase (Js.trim newEmail)) booking) in
         let* _ := commitTransaction in
         ret booking
     end)
    (abortAndRethrow "Failed to update booking: Unknown error")
    endSession.

Definition deleteBookingWithTransaction (bookingId : IdArg) : M bool :=
  let* _ := startSession in
  let* _ := startTransaction in
  tryCatchFinally
    (let* result := BookingModel.findByIdAndDelete bookingId in
     let* _ := commitTransaction in
     ret (bool_decide (is_Some result)))
    (abortAndRethrow "Failed to delete booking: Unknown error")
    endSession.

End BookingUtils.

(* ===================================================================== *)
(** * The connection module: the cached [connectDB] *)
(* ===================================================================== *)

Module Connection.

(** The resolved [mongoose] instance a connection attempt yields. *)
Definition Handle : Type := nat.

(** How the promise returned by [mongoose.connect] settles. *)
Inductive Settled : Type :=
  | Fulfilled (h : Handle)
  | Rejected (e : Thrown).

(** [interface MongooseCache]; a promise is named by the rank of the
    [mongoose.connect] call that made it. *)
Record MongooseCache : Type := mkCache {
  conn : option Handle;
  promise : option nat;
}.

(** The process: the cache kept on [global], and how many times
    [mongoose.connect] has been called. *)
Record Process : Type := mkProcess {
  cached : MongooseCache;
  connects : nat;
}.

Definition missingUri : Thrown :=
  Error "Please define the MONGODB_URI environment variable inside .env.local".

(** The module's top level: the check of [MONGODB_URI] (an empty string is
    falsy), then [global.mongoose || { conn: null, promise: null }]. *)
Definition init (MONGODB_URI : option string) (global : option MongooseCache)
    (connects : nat) : Result Process :=
  match MONGODB_URI with
  | None => Throw missingUri
  | Some uri =>
      if Js.eqb uri "" then Throw missingUri
      else Ok (mkProcess (default (mkCache None None) global) connects)
  end.

Section WithServer.

(** What the server answers to the [n]th connection attempt. *)
Variable outcome : nat → Settled.

Definition connectDB (p : Process) : Result Handle * Process :=
  match conn (cached p) with
  | Some c => (Ok c, p)
  | None =>
      let (pr, p1) :=
        match promise (cached p) with
        | Some pr => (pr, p)
        | None =>
            (connects p,
             mkProcess (mkCache (conn (cached p)) (Some (connects p)))
                       (S (connects p)))
        end in
      match outcome pr with
      | Fulfilled h =>
          (Ok h, mkProcess (mkCache (Some h) (promise (cached p1))) (connects p1))
      | Rejected error =>
          (Throw error, mkProcess (mkCache (conn (cached p1)) None) (connects p1))
      end
  end.

(** [n] calls in a row: the results, and the process they leave. *)
Fixpoint connectTimes (n : nat) (p : Process) : list (Result Handle) * Process :=
  match n with
  | O => ([], p)
  | S n' =>
      let (r, p1) := connectDB p in
      let (rs, p2) := connectTimes n' p1 in
      (r :: rs, p2)
  end.

End WithServer.

End Connection.


(* ===================================================================== *)
(** * Vocabulary of the properties *)
(* ===================================================================== *)

Module Spec.

(** ** Times *)

Definition isMeridiem (ap : string) : Prop :=
  Js.toUpperCase ap = "AM" ∨ Js.toUpperCase ap = "PM".

(** [s] reads [H:MM] or [HH:MM], alone ([p = None]) or followed by
    optional white space and a meridiem [ap] in any letter case
    ([p = Some ap]). *)
Record TimePattern (s h m : string) (p : option string) : Prop := {
  hours_digits : Js.all Js.isDigit h = true;
  hours_length : String.length h = 1%nat ∨ String.length h = 2%nat;
  minutes_digits : Js.all Js.isDigit m = true;
  minutes_length : String.length m = 2%nat;
  shape :
    match p with
    | None => s = h +:+ ":" +:+ m
    | Some ap =>
        isMeridiem ap ∧
        ∃ ws, Js.all Js.isWhiteSpace ws = true ∧ s = h +:+ ":" +:+ m +:+ ws +:+ ap
    end;
}.

(** The number a string of decimal digits denotes. *)
Definition decimal (s : string) : Z := Js.digitsValue 0 s.

(** The hour on the 24-hour clock: [PM] adds twelve hours except to 12,
    [AM] turns 12 into 0. *)
Definition hour24 (p : option string) (h : Z) : Z :=
  match p with
  | None => h
  | Some ap =>
      if Js.eqb (Js.toUpperCase ap) "PM"
      then (if h =? 12 then 12 else h + 12)
      else (if h =? 12 then 0 else h)
  end.

(** [n] on two decimal digits. *)
Definition twoDigits (n : Z) : string :=
  String (Js.chr (48 + n / 10)) (String (Js.chr (48 + n mod 10)) EmptyString).

(** ** Slugs *)

(** The [k]th slug tried for a base: the base itself, then [base-k]. *)
Definition candidate (base : string) (k : nat) : string :=
  match k with
  | O => base
  | S _ => base +:+ "-" +:+ pretty (Z.of_nat k)
  end.

(** Some Event other than [ne] holds [slug]. *)
Definition Held (st : Store) (slug : string) (ne : option ObjectId) : Prop :=
  ∃ i d, events st !! i = Some d ∧ ev_slug d = slug ∧ ne ≠ Some i.

(** Decision of [Held] by enumeration of the collection. *)
Definition heldb (st : Store) (slug : string) (ne : option ObjectId) : bool :=
  existsb (λ e, bool_decide (ev_slug e.2 = slug) && bool_decide (ne ≠ Some e.1))
          (map_to_list (events st)).

(** The store holds the candidates below [a] of [base], and no other. *)
Definition holdsFirst (base : string) (a : nat) (st : Store) : Prop :=
  (∀ k, (k < a)%nat →
        ∃ i d, events st !! i = Some d ∧ ev_slug d = candidate base k)
  ∧ (∀ i d k, events st !! i = Some d → ev_slug d = candidate base k →
              (k < a)%nat).

(** The look-ups for the candidates [a], [a+1], ..., [a+n-1]. *)
Definition lookups (base : string) (ne : option ObjectId) (a n : nat) : list DbCall :=
  (λ k, EventFindOne (candidate base k) ne) <$> seq a n.

Definition isLookup (ne : option ObjectId) (c : DbCall) : Prop :=
  ∃ slug, c = EventFindOne slug ne.

(** ** Worlds and traces *)

(** The world [w] after the calls [cs], none of which changed a document. *)
Definition afterCalls (cs : list DbCall) (w : World) : World :=
  mkWorld (committed w) (transaction w) (openSessions w) (faults w)
          (calls w ++ cs) (nextId w).

Definition worldOf (st : Store) : World := mkWorld st None 0 [] [] 0.

Definition emptyStore : Store := mkStore ∅ ∅.
Definition emptyWorld : World := mkWorld emptyStore None 0 [] [] 0.

(** The calls of one deletion that goes through. *)
Definition deletionCalls (id : IdArg) : list DbCall :=
  [StartSession; StartTransaction; BookingFindByIdAndDelete (objectIdOf id);
   CommitTransaction; EndSession].

(** ** Runs *)

(** A request to create an Event: the [_id] the driver gives the new
    document, and the values it is built from. *)
Record Request : Type := mkRequest {
  rq_id : ObjectId;
  rq_data : EventDoc;
}.

Definition rq_title (r : Request) : string := ev_title (rq_data r).
Definition rq_date (r : Request) : string := ev_date (rq_data r).
Definition rq_time (r : Request) : string := ev_time (rq_data r).

(** A request that goes through: the document built from it passes the
    validation of the schema, the title has the base, the date and the time
    normalize. *)
Definition accepted `{Host} (base : string) (r : Request) : Prop :=
  EventModel.validation (EventModel.applySetters (rq_data r)) = []
  ∧ Slug.generateSlug (rq_title r) = base
  ∧ (∃ d, EventModel.normalizeDate (rq_date r) = Ok d)
  ∧ (∃ t, Clock.normalizeTime (rq_time r) = Ok t).

Definition createEvent `{Host} (r : Request) : M string :=
  let* event := EventModel.save (EventModel.newEvent (rq_id r) (rq_data r)) in
  ret (ev_slug (EventModel.doc event)).

(** Creations one after the other; the slugs they were given. *)
Fixpoint createEvents `{Host} (rs : list Request) : M (list string) :=
  match rs with
  | [] => ret []
  | r :: rs' =>
      let* slug := createEvent r in
      let* slugs := createEvents rs' in
      ret (slug :: slugs)
  end.

(** [n] calls of [deleteBookingWithTransaction] with the same id, one
    after the other: what they return, and the world they leave. *)
Fixpoint deleteTimes (n : nat) (id : IdArg) (w : World)
    : list (Result bool) * World :=
  match n with
  | O => ([], w)
  | S n' =>
      let (r, w1) := BookingUtils.deleteBookingWithTransaction id w in
      let (rs, w2) := deleteTimes n' id w1 in
      (r :: rs, w2)
  end.

(** ** Concrete data *)

(** A host for concrete runs: its [Date] takes every string for the
    epoch. *)
Definition epochHost : Host :=
  mkHost (λ _, Some 0) (λ _, "1970-01-01T00:00:00.000Z").

(** An Event with the given title, slug, date and time, the other paths
    filled in. *)
Definition event (title slug date time : string) : EventDoc :=
  mkEvent title slug "An evening of talks" "Talks and questions"
          "https://example.org/meetup.png" "Town hall" "Lyon" date time "hybrid"
          "Developers" ["Doors open"; "Talks"] "The meetup team" ["dev"].

(** [n] requests with the ids [1], ..., [n] and the same title. *)
Definition sameTitle (title : string) (n : nat) : list Request :=
  (λ k, mkRequest (mkObjectId (pretty (Z.of_nat k)))
                  (event title "" "2024-01-05" "2:30 PM"))
    <$> seq 1 n.

(** A store of [n] Events that hold the first [n] candidates of the title
    ["Meetup"]. *)
Definition crowdedStore (n : nat) : Store :=
  mkStore
    (list_to_map
       ((λ k, (mkObjectId (pretty (Z.of_nat k)),
               event "Meetup" (candidate "meetup" k) "2024-01-05" "14:30"))
          <$> seq 0 n))
    ∅.

(** A store with one Booking. *)
Definition oneBooking : Store :=
  mkStore ∅ {[ mkObjectId "b1" := mkBooking (mkObjectId "e1") "ada@example.org" ]}.

(** A store with one Booking under an [_id] as the driver makes them. *)
Definition storedBooking : Store :=
  mkStore ∅ {[ mkObjectId "65f0c0ffee0000000000b001"
               := mkBooking (mkObjectId "65f0c0ffee0000000000e001")
                            "ada@example.org" ]}.

(** A server that refuses the first connection attempt and accepts the
    later ones. *)
Definition refusesOnce (attempt : nat) : Connection.Settled :=
  match attempt with
  | O => Connection.Rejected (Error "connect ECONNREFUSED")
  | S _ => Connection.Fulfilled 7%nat
  end.

(** The process right after the module was loaded for the first time. *)
Definition freshProcess : Connection.Process :=
  Connection.mkProcess (Connection.mkCache None None) 0.

End Spec.

(* ===================================================================== *)
(** * Vocabulary of the further properties *)
(* ===================================================================== *)

Module Props.

(** The characters of a slug: [a-z], [0-9] and the hyphen. *)
Definition isSlugLetter (c : ascii) : bool :=
  Js.isLowerAZ c || Js.isDigit c || Slug.isHyphen c.

(** No two hyphens in a row. *)
Fixpoint noDoubleHyphen (s : string) : bool :=
  match s with
  | String c ((String d _) as t) =>
      negb (Slug.isHyphen c && Slug.isHyphen d) && noDoubleHyphen t
  | _ => true
  end.

Definition first (s : string) : option ascii :=
  match s with
  | String c _ => Some c
  | EmptyString => None
  end.

(** A slug in canonical form: slug characters only, no hyphen at either end,
    no two hyphens in a row. *)
Definition canonical (s : string) : Prop :=
  Js.all isSlugLetter s = true
  ∧ first s ≠ Some "-"%char
  ∧ BookingModel.last s ≠ Some "-"%char
  ∧ ∀ a b, s ≠ a +:+ "--" +:+ b.

(** No two Events share a slug. *)
Definition uniqueSlugs (st : Store) : Prop :=
  ∀ i j d d', events st !! i = Some d → events st !! j = Some d' →
              ev_slug d = ev_slug d' → i = j.

(** The call is no write to the Event collection. *)
Definition notEventWrite (c : DbCall) : Prop :=
  ∀ id, c ≠ EventInsert id ∧ c ≠ EventUpdate id.

(** How many times [c] occurs in [s]. *)
Fixpoint occurrences (c : ascii) (s : string) : nat :=
  match s with
  | EmptyString => O
  | String d s' => (if Js.code d =? Js.code c then 1 else 0) + occurrences c s'
  end.

(** [email.trim().toLowerCase()], the normal form of an address. *)
Definition normalizeEmail (email : string) : string :=
  Js.toLowerCase (Js.trim email).

(** No Booking of [st] is for the Event [eventId] under the address
    [email]. *)
Definition noBookingFor (st : Store) (eventId : ObjectId) (email : string) : Prop :=
  ∀ j b, bookings st !! j = Some b → bk_eventId b = eventId → bk_email b ≠ email.

(** The [_id] the driver gives to the next new document. *)
Definition nextObjectId (w : World) : ObjectId :=
  mkObjectId (Js.padStart 24 "0" (pretty (nextId w))).

(** The unique index [uniq_event_email] holds: no two Bookings share both
    the Event and the address. *)
Definition uniqueBookings (st : Store) : Prop :=
  ∀ i j b b', bookings st !! i = Some b → bookings st !! j = Some b' →
              bk_eventId b = bk_eventId b' → bk_email b = bk_email b' → i = j.

(** Every Booking refers to an Event of the store. *)
Definition referencesHold (st : Store) : Prop :=
  ∀ j b, bookings st !! j = Some b → is_Some (events st !! bk_eventId b).

(** Every stored address is in normal form and passes the schema's
    validator. *)
Definition emailsNormal (st : Store) : Prop :=
  ∀ j b, bookings st !! j = Some b →
         normalizeEmail (bk_email b) = bk_email b
         ∧ BookingModel.emailRegex_test (bk_email b) = true.

(** The calls of a successful creation, in order. *)
Definition creationCalls (eventId id : ObjectId) : list DbCall :=
  [StartSession; StartTransaction; EventFindById eventId; EventFindById eventId;
   BookingInsert id; CommitTransaction; EndSession].

Definition isEventCall (c : DbCall) : bool :=
  match c with
  | EventFindOne _ _ | EventFindById _ | EventInsert _ | EventUpdate _ => true
  | _ => false
  end.

(** A store with one Event, and the same store with one Booking for it. *)
Definition oneEvent : Store :=
  mkStore {[ mkObjectId "e1" := Spec.event "Meetup" "meetup" "2024-01-05" "14:30" ]} ∅.

(** A store with one Event under an [_id] as the driver makes them. *)
Definition listedEvent : Store :=
  mkStore {[ mkObjectId "65f0c0ffee0000000000e001"
             := Spec.event "Meetup" "meetup" "2024-01-05" "14:30" ]} ∅.

Definition bookedEvent : Store :=
  mkStore (events oneEvent)
          {[ mkObjectId "b1" := mkBooking (mkObjectId "e1") "ada@example.org" ]}.

(** What the [catch] blocks rethrow: an [Error] as it is, anything else as
    a new [Error] with the operation's message. *)
Definition rethrown (unknown : string) (error : Thrown) : Thrown :=
  match error with
  | JsError _ _ => error
  | NonError _ => Error unknown
  end.

(** How many of the results are failures, and whether one is a success. *)
Definition isThrow {A} (r : Result A) : bool :=
  match r with
  | Throw _ => true
  | Ok _ => false
  end.

Definition failures {A} (rs : list (Result A)) : nat :=
  length (List.filter isThrow rs).

Definition succeeded {A} (rs : list (Result A)) : bool :=
  existsb (λ r, negb (isThrow r)) rs.

End Props.

(** Reduction of the projections and updaters of an Event instance. *)
Ltac event_simpl :=
  cbn [EventModel._id EventModel.doc EventModel.isNew EventModel.modifiedTitle
       EventModel.modifiedDate EventModel.modifiedTime ev_title ev_slug ev_date
       ev_time EventModel.withDoc EventModel.setSlug EventModel.setDate
       EventModel.setTime EventModel.setTitle fst snd] in *.

(* ===================================================================== *)
(** * Facts about characters and strings *)
(* ===================================================================== *)

Lemma code_inj (c d : ascii) : Js.code c = Js.code d → c = d.
Proof.
  unfold Js.code. intros E.
  rewrite <- (ascii_N_embedding c), <- (ascii_N_embedding d).
  f_equal. lia.
Qed.

Lemma code_eqb_true (c d : ascii) : (Js.code c =? Js.code d) = true → c = d.
Proof. intros E. apply code_inj. lia. Qed.

Lemma string_app_cons (c : ascii) (s t : string) : String c s +:+ t = String c (s +:+ t).
Proof. reflexivity. Qed.

Lemma string_app_nil_l (t : string) : "" +:+ t = t.
Proof. reflexivity. Qed.

Lemma string_app_nil_r (s : string) : s +:+ "" = s.
Proof. induction s as [|c s IH]; [done|]. by rewrite string_app_cons, IH. Qed.

Lemma string_length_app (s t : string) :
  String.length (s +:+ t) = (String.length s + String.length t)%nat.
Proof. induction s as [|c s IH]; [done|]. rewrite string_app_cons. simpl. by rewrite IH. Qed.

Lemma eqb_true (s t : string) : Js.eqb s t = true ↔ s = t.
Proof. unfold Js.eqb. by rewrite bool_decide_eq_true. Qed.

Lemma trimStart_split (s : string) :
  ∃ ws, Js.all Js.isWhiteSpace ws = true ∧ s = ws +:+ Js.trimStart s.
Proof.
  induction s as [|c s (ws & Hws & IH)]; simpl.
  - by exists "".
  - destruct (Js.isWhiteSpace c) eqn:Hc.
    + exists (String c ws). simpl. rewrite Hc, Hws. split; [done|].
      by rewrite string_app_cons, <- IH.
    + by exists "".
Qed.

Lemma trimStart_app (ws t : string) :
  Js.all Js.isWhiteSpace ws = true → Js.trimStart (ws +:+ t) = Js.trimStart t.
Proof.
  induction ws as [|c ws IH]; [done|]. simpl.
  intros [Hc Hws]%andb_prop. rewrite Hc. auto.
Qed.

(** A character whose upper case is [A] or [P] is no white space. *)
Lemma upper_AP_not_space (c : ascii) :
  Js.upperChar c = "A"%char ∨ Js.upperChar c = "P"%char → Js.isWhiteSpace c = false.
Proof.
  destruct c as [[] [] [] [] [] [] [] []]; vm_compute; intros [?|?];
    (reflexivity || discriminate).
Qed.

Lemma meridiem_shape (ap : string) :
  Spec.isMeridiem ap →
  ∃ a m, ap = String a (String m EmptyString)
         ∧ (Js.upperChar a = "A"%char ∨ Js.upperChar a = "P"%char).
Proof.
  intros H.
  destruct ap as [|a [|m [|x rest]]];
    try (destruct H as [H|H]; simpl in H; discriminate).
  exists a, m. split; [done|].
  destruct H as [H|H]; simpl in H; injection H; auto.
Qed.

Lemma meridiem_trimStart (ap : string) : Spec.isMeridiem ap → Js.trimStart ap = ap.
Proof.
  intros (a & m & -> & Ha)%meridiem_shape. simpl.
  by rewrite (upper_AP_not_space a Ha).
Qed.

(* ===================================================================== *)
(** * The regular expression of [normalizeTime] *)
(* ===================================================================== *)

Lemma matchMeridiem_spec (s p : string) :
  Clock.matchMeridiem s = Some p ↔ p = s ∧ Spec.isMeridiem s.
Proof.
  unfold Clock.matchMeridiem, Spec.isMeridiem. split.
  - destruct s as [|a [|m [|x rest]]]; try discriminate.
    destruct (Js.eqb _ "AM") eqn:E1; simpl.
    + intros [= <-]. apply eqb_true in E1. auto.
    + destruct (Js.eqb _ "PM") eqn:E2; [|discriminate].
      intros [= <-]. apply eqb_true in E2. auto.
  - intros [-> H].
    destruct (meridiem_shape s H) as (a & m & -> & _).
    destruct H as [H|H]; apply eqb_true in H; rewrite H; [done|].
    by rewrite orb_true_r.
Qed.

Lemma matchSuffix_spec (s : string) (p : option string) :
  Clock.matchSuffix s = Some p ↔
  match p with
  | None => s = ""
  | Some ap => Spec.isMeridiem ap
               ∧ ∃ ws, Js.all Js.isWhiteSpace ws = true ∧ s = ws +:+ ap
  end.
Proof.
  unfold Clock.matchSuffix. split.
  - destruct (Clock.matchMeridiem (Js.trimStart s)) as [q|] eqn:E.
    + intros [= <-]. apply matchMeridiem_spec in E as [-> H].
      split; [done|]. apply trimStart_split.
    + destruct s; [|discriminate]. by intros [= <-].
  - destruct p as [ap|].
    + intros (H & ws & Hws & ->).
      rewrite (trimStart_app _ _ Hws), (meridiem_trimStart _ H).
      by rewrite (proj2 (matchMeridiem_spec ap ap) (conj eq_refl H)).
    + by intros ->.
Qed.

Lemma colon_not_digit : Js.isDigit ":" = false.
Proof. reflexivity. Qed.

Lemma matchAfterHours_spec (h s h' m : string) (p : option string) :
  Clock.matchAfterHours h s = Some (h', m, p) ↔
  h' = h ∧ Js.all Js.isDigit m = true ∧ String.length m = 2%nat
  ∧ ∃ suffix, s = ":" +:+ m +:+ suffix ∧ Clock.matchSuffix suffix = Some p.
Proof.
  unfold Clock.matchAfterHours. split.
  - destruct s as [|c [|m1 [|m2 rest]]]; try discriminate.
    destruct (Js.code c =? 58) eqn:Hc; [|discriminate].
    destruct (Js.isDigit m1) eqn:H1; [|discriminate].
    destruct (Js.isDigit m2) eqn:H2; [|discriminate]. simpl.
    destruct (Clock.matchSuffix rest) as [q|] eqn:Hs; [|discriminate].
    intros [= <- <- <-]. simpl. rewrite H1, H2.
    repeat split; [].
    exists rest. split; [|done].
    by rewrite (code_eqb_true c ":" Hc).
  - intros (-> & Hd & Hl & suffix & -> & Hs).
    destruct m as [|m1 [|m2 [|x m]]]; try discriminate.
    simpl in Hd. apply andb_prop in Hd as [H1 H2'].
    apply andb_prop in H2' as [H2 _].
    rewrite !string_app_cons, !string_app_nil_l. simpl. by rewrite H1, H2, Hs.
Qed.

(** The matcher accepts exactly the strings of the pattern, with those
    groups. *)
Lemma matchTime_spec (s h m : string) (p : option string) :
  Clock.matchTime s = Some (h, m, p) ↔ Spec.TimePattern s h m p.
Proof.
  assert (Hpat : Spec.TimePattern s h m p ↔
    Js.all Js.isDigit h = true
    ∧ (String.length h = 1%nat ∨ String.length h = 2%nat)
    ∧ Js.all Js.isDigit m = true ∧ String.length m = 2%nat
    ∧ ∃ suffix, s = h +:+ ":" +:+ m +:+ suffix ∧ Clock.matchSuffix suffix = Some p).
  { split.
    - intros [H1 H2 H3 H4 H5]. repeat split; try done.
      destruct p as [ap|].
      + destruct H5 as (Hap & ws & Hws & ->). exists (ws +:+ ap).
        split; [done|]. apply matchSuffix_spec. eauto.
      + exists "". by rewrite string_app_nil_r.
    - intros (H1 & H2 & H3 & H4 & suffix & -> & H5).
      split; try done. apply matchSuffix_spec in H5.
      destruct p as [ap|].
      + destruct H5 as (Hap & ws & Hws & ->). split; [done|]. by exists ws.
      + by rewrite H5, string_app_nil_r. }
  rewrite Hpat. clear Hpat. unfold Clock.matchTime. split.
  - destruct s as [|d1 rest1]; [discriminate|].
    destruct (Js.isDigit d1) eqn:Hd1; [|discriminate].
    destruct rest1 as [|d2 rest2].
    { simpl. discriminate. }
    destruct (Js.isDigit d2) eqn:Hd2.
    + destruct (Clock.matchAfterHours (String d1 (String d2 "")) rest2)
        as [[[h0 m0] p0]|] eqn:E.
      * intros [= -> -> ->].
        apply matchAfterHours_spec in E as (-> & Hm & Hl & suffix & -> & Hs).
        simpl. rewrite Hd1, Hd2. repeat split; auto. by exists suffix.
      * intros (-> & Hm & Hl & suffix & Hr & Hs)%matchAfterHours_spec.
        rewrite string_app_cons in Hr. injection Hr as -> _.
        by rewrite colon_not_digit in Hd2.
    + intros (-> & Hm & Hl & suffix & Hr & Hs)%matchAfterHours_spec.
      simpl. rewrite Hd1. repeat split; auto. exists suffix. by rewrite Hr.
  - intros (Hh & Hl & Hm & Hlm & suffix & -> & Hs).
    destruct h as [|d1 [|d2 [|x h]]]; simpl in Hl; try (destruct Hl; discriminate).
    + simpl in Hh. apply andb_prop in Hh as [Hd1 _].
      rewrite !string_app_cons, !string_app_nil_l, Hd1, colon_not_digit.
      by apply matchAfterHours_spec; repeat split; auto; exists suffix.
    + simpl in Hh. apply andb_prop in Hh as [Hd1 Hh].
      apply andb_prop in Hh as [Hd2 _].
      rewrite !string_app_cons, !string_app_nil_l, Hd1, Hd2.
      assert (E : Clock.matchAfterHours (String d1 (String d2 ""))
                    (":" +:+ m +:+ suffix)
                  = Some (String d1 (String d2 ""), m, p)).
      { by apply matchAfterHours_spec; repeat split; auto; exists suffix. }
      rewrite !string_app_cons, !string_app_nil_l in E. by rewrite E.
Qed.

(* ===================================================================== *)
(** * [normalizeTime] on matching inputs *)
(* ===================================================================== *)

Lemma digit_code (c : ascii) : Js.isDigit c = true → 48 ≤ Js.code c ≤ 57.
Proof. unfold Js.isDigit, Js.between. lia. Qed.

Lemma digitsValue_nonneg (s : string) (acc : Z) : 0 ≤ acc → 0 ≤ Js.digitsValue acc s.
Proof.
  revert acc. induction s as [|c s IH]; intros acc Hacc; simpl; [done|].
  destruct (Js.isDigit c) eqn:Hc; [|done].
  apply IH. apply digit_code in Hc. lia.
Qed.

Lemma decimal_nonneg (s : string) : 0 ≤ Spec.decimal s.
Proof. by apply digitsValue_nonneg. Qed.

Lemma parseInt_digits (s : string) :
  Js.all Js.isDigit s = true → s ≠ "" → Js.parseInt s = Num (Spec.decimal s).
Proof.
  destruct s as [|c s]; [done|].
  intros [Hc _]%andb_prop _. unfold Js.parseInt. by rewrite Hc.
Qed.

Lemma convertHours_hour24 (p : option string) (v : Z) :
  match p with Some ap => Spec.isMeridiem ap | None => True end →
  Clock.convertHours (Js.toUpperCase <$> p) (Num v) = Num (Spec.hour24 p v).
Proof.
  destruct p as [ap|]; [|done]. simpl.
  intros [H|H]; rewrite H; simpl;
    destruct (v =? 12) eqn:E; simpl; rewrite ?E; try done.
  f_equal. lia.
Qed.

Lemma hour24_nonneg (p : option string) (v : Z) : 0 ≤ v → 0 ≤ Spec.hour24 p v.
Proof.
  intros Hv. unfold Spec.hour24. destruct p as [ap|]; [|done].
  repeat case_match; lia.
Qed.

Lemma padStart_hours (H : Z) :
  0 ≤ H ≤ 23 → Js.padStart 2 "0" (Js.toString (Num H)) = Spec.twoDigits H.
Proof.
  intros HH. rewrite <- (Z2Nat.id H) by lia.
  assert (Hn : (Z.to_nat H < 24)%nat) by lia.
  generalize dependent (Z.to_nat H). clear. intros n Hn.
  do 24 (destruct n as [|n]; [vm_compute; reflexivity|]). lia.
Qed.

(** What [normalizeTime] answers on an input whose trimmed text matches. *)
Lemma normalizeTime_matched (s h m : string) (p : option string) :
  Spec.TimePattern (Js.trim s) h m p →
  Clock.normalizeTime s =
    if (23 <? Spec.hour24 p (Spec.decimal h)) || (59 <? Spec.decimal m)
    then Throw Clock.invalidValues
    else Ok (Spec.twoDigits (Spec.hour24 p (Spec.decimal h)) +:+ ":" +:+ m).
Proof.
  intros Hp. pose proof Hp as [Hh Hhl Hm Hml Hshape].
  apply matchTime_spec in Hp. unfold Clock.normalizeTime. rewrite Hp.
  rewrite (parseInt_digits h), (parseInt_digits m); try done.
  2: { intros ->. discriminate. }
  2: { intros ->. destruct Hhl; discriminate. }
  rewrite convertHours_hour24.
  2: { destruct p; [|done]. apply Hshape. }
  pose proof (hour24_nonneg p _ (decimal_nonneg h)) as H0.
  pose proof (decimal_nonneg m) as M0.
  unfold Js.lt, Js.gt.
  replace (Spec.hour24 p (Spec.decimal h) <? 0) with false by lia.
  replace (Spec.decimal m <? 0) with false by lia.
  rewrite orb_false_r. cbn [orb].
  destruct (23 <? _) eqn:E1; cbn [orb]; [done|].
  destruct (59 <? _) eqn:E2; cbn [orb]; [done|].
  by rewrite padStart_hours by lia.
Qed.

(** What it answers on the others. *)
Lemma normalizeTime_unmatched (s : string) :
  (¬ ∃ h m p, Spec.TimePattern (Js.trim s) h m p) →
  Clock.normalizeTime s = Throw Clock.invalidFormat.
Proof.
  intros Hno. unfold Clock.normalizeTime.
  destruct (Clock.matchTime (Js.trim s)) as [[[h m] p]|] eqn:E; [|done].
  exfalso. apply Hno. exists h, m, p. by apply matchTime_spec.
Qed.

Lemma chr_code (c : ascii) : Js.chr (Js.code c) = c.
Proof. unfold Js.chr, Js.code. by rewrite N2Z.id, ascii_N_embedding. Qed.

(** Two digits that denote [n] are [n] written on two digits. *)
Lemma twoDigits_decimal (h : string) :
  Js.all Js.isDigit h = true → String.length h = 2%nat →
  Spec.twoDigits (Spec.decimal h) = h.
Proof.
  destruct h as [|d1 [|d2 [|x h]]]; try discriminate.
  intros Hd _. simpl in Hd.
  apply andb_prop in Hd as [H1 Hd]. apply andb_prop in Hd as [H2 _].
  unfold Spec.decimal. simpl. rewrite H1, H2.
  apply digit_code in H1, H2. unfold Spec.twoDigits.
  replace (48 + (10 * (10 * 0 + (Js.code d1 - 48)) + (Js.code d2 - 48)) / 10)
    with (Js.code d1).
  2: { symmetry.
       replace (10 * (10 * 0 + (Js.code d1 - 48)) + (Js.code d2 - 48))
         with ((Js.code d2 - 48) + (Js.code d1 - 48) * 10) by lia.
       rewrite Z.div_add by lia. rewrite Z.div_small by lia. lia. }
  replace (48 + (10 * (10 * 0 + (Js.code d1 - 48)) + (Js.code d2 - 48)) mod 10)
    with (Js.code d2).
  2: { symmetry.
       replace (10 * (10 * 0 + (Js.code d1 - 48)) + (Js.code d2 - 48))
         with ((Js.code d2 - 48) + (Js.code d1 - 48) * 10) by lia.
       rewrite Z.mod_add by lia. rewrite Z.mod_small by lia. lia. }
  by rewrite !chr_code.
Qed.

Lemma decimal_one_digit (h : string) :
  Js.all Js.isDigit h = true → String.length h = 1%nat → Spec.decimal h ≤ 9.
Proof.
  destruct h as [|d1 [|x h]]; try discriminate.
  intros Hd _. simpl in Hd. apply andb_prop in Hd as [H1 _].
  unfold Spec.decimal. simpl. rewrite H1. apply digit_code in H1. lia.
Qed.

(** C5. [normalizeTime] takes [H:MM] and [HH:MM], alone or followed by
    [AM] or [PM] in any letter case, read on the trimmed input, and answers
    the time on the 24-hour clock with the hour on two digits:
    ["2:30 PM"] gives ["14:30"] and ["2:30"] gives ["02:30"].  An input that
    does not match the pattern throws the error [invalidFormat]; a matching
    input whose converted hour exceeds 23 or whose minutes exceed 59 throws
    the error [invalidValues]. *)
Theorem normalizeTime_contract :
  Clock.normalizeTime "2:30 PM" = Ok "14:30"
  ∧ Clock.normalizeTime "2:30" = Ok "02:30"
  ∧ (∀ s h m p,
       Spec.TimePattern (Js.trim s) h m p →
       Spec.hour24 p (Spec.decimal h) ≤ 23 → Spec.decimal m ≤ 59 →
       Clock.normalizeTime s
       = Ok (Spec.twoDigits (Spec.hour24 p (Spec.decimal h)) +:+ ":" +:+ m))
  ∧ (∀ s,
       (¬ ∃ h m p, Spec.TimePattern (Js.trim s) h m p) →
       Clock.normalizeTime s
       = Throw (Error "Invalid time format. Use HH:MM or HH:MM AM/PM"))
  ∧ (∀ s h m p,
       Spec.TimePattern (Js.trim s) h m p →
       23 < Spec.hour24 p (Spec.decimal h) ∨ 59 < Spec.decimal m →
       Clock.normalizeTime s = Throw (Error "Invalid time values")).
Proof.
  split; [by vm_compute|]. split; [by vm_compute|]. split; [|split].
  - intros s h m p Hp Hh Hm. rewrite (normalizeTime_matched _ _ _ _ Hp).
    replace (23 <? _) with false by lia. by replace (59 <? _) with false by lia.
  - apply normalizeTime_unmatched.
  - intros s h m p Hp Hbad. rewrite (normalizeTime_matched _ _ _ _ Hp).
    destruct Hbad.
    + by replace (23 <? _) with true by lia.
    + replace (59 <? _) with true by lia. by rewrite orb_true_r.
Qed.

Lemma normalizeTime_contract_witness :
  Clock.normalizeTime " 11:45 pm " = Ok "23:45"
  ∧ Clock.normalizeTime "7pm" = Throw Clock.invalidFormat
  ∧ Clock.normalizeTime "12:60" = Throw Clock.invalidValues.
Proof.
  destruct normalizeTime_contract as (_ & _ & Hok & Hformat & Hvalues).
  split; [|split].
  - apply (Hok " 11:45 pm " "11" "45" (Some "pm")).
    + apply matchTime_spec. vm_compute. reflexivity.
    + vm_compute. discriminate.
    + vm_compute. discriminate.
  - apply (Hformat "7pm"). intros (h & m & p & H).
    apply matchTime_spec in H. vm_compute in H. discriminate.
  - apply (Hvalues "12:60" "12" "60" None).
    + apply matchTime_spec. vm_compute. reflexivity.
    + right. vm_compute. reflexivity.
Defined.

(** C9, as stated, fails: ["13:60 AM"] has the hour field 13 and the suffix
    [AM], and [normalizeTime] throws on it. *)
Lemma normalizeTime_late_hour_AM_minutes :
  Spec.TimePattern (Js.trim "13:60 AM") "13" "60" (Some "AM")
  ∧ Spec.decimal "13" = 13
  ∧ Clock.normalizeTime "13:60 AM" = Throw Clock.invalidValues.
Proof.
  split; [|split].
  - apply matchTime_spec. vm_compute. reflexivity.
  - reflexivity.
  - vm_compute. reflexivity.
Qed.

(** C9, amended. On an input that matches the pattern with an hour field
    between 13 and 23, minutes of at most 59 and the suffix [AM],
    [normalizeTime] does not throw: the hour is left as it is and the time
    comes back as [HH:MM]; ["13:00 AM"] gives ["13:00"]. *)
Theorem normalizeTime_late_hour_AM :
  Clock.normalizeTime "13:00 AM" = Ok "13:00"
  ∧ ∀ s h m ap,
      Spec.TimePattern (Js.trim s) h m (Some ap) →
      Js.toUpperCase ap = "AM" →
      13 ≤ Spec.decimal h ≤ 23 → Spec.decimal m ≤ 59 →
      Clock.normalizeTime s = Ok (h +:+ ":" +:+ m).
Proof.
  split; [by vm_compute|].
  intros s h m ap Hp Hap Hh Hm.
  rewrite (normalizeTime_matched _ _ _ _ Hp).
  assert (E : Spec.hour24 (Some ap) (Spec.decimal h) = Spec.decimal h).
  { unfold Spec.hour24. rewrite Hap.
    replace (Js.eqb "AM" "PM") with false by done.
    by replace (Spec.decimal h =? 12) with false by lia. }
  rewrite E.
  replace (23 <? _) with false by lia. replace (59 <? _) with false by lia.
  cbn [orb]. rewrite twoDigits_decimal; [done|apply Hp|].
  destruct Hp as [Hd [Hl|Hl] _ _ _]; [|done].
  pose proof (decimal_one_digit h Hd Hl). lia.
Qed.

Lemma normalizeTime_late_hour_AM_witness :
  Clock.normalizeTime " 23:59 am" = Ok "23:59".
Proof.
  apply (proj2 normalizeTime_late_hour_AM " 23:59 am" "23" "59" "am").
  - apply matchTime_spec. vm_compute. reflexivity.
  - reflexivity.
  - vm_compute. split; discriminate.
  - vm_compute. discriminate.
Defined.

(* ===================================================================== *)
(** * Round trips, traces and the loop of [generateUniqueSlug] *)
(* ===================================================================== *)

Lemma roundTrip_operational {A} (c : DbCall) (act : World → Result A * World)
    (w : World) :
  faults w = [] → roundTrip c act w = act (logCall c w).
Proof. intros Hf. unfold roundTrip. simpl. by rewrite Hf. Qed.

Lemma afterCalls_nil (w : World) : Spec.afterCalls [] w = w.
Proof. destruct w. unfold Spec.afterCalls. simpl. by rewrite List.app_nil_r. Qed.

Lemma afterCalls_logCall (c : DbCall) (cs : list DbCall) (w : World) :
  Spec.afterCalls cs (logCall c w) = Spec.afterCalls (c :: cs) w.
Proof. unfold Spec.afterCalls, logCall. simpl. by rewrite <- List.app_assoc. Qed.

Lemma matchesQuery_true (slug : string) (ne : option ObjectId)
    (i : ObjectId) (d : EventDoc) :
  EventModel.matchesQuery slug ne (i, d) = true ↔ ev_slug d = slug ∧ ne ≠ Some i.
Proof.
  unfold EventModel.matchesQuery. simpl.
  by rewrite andb_true_iff, !bool_decide_eq_true.
Qed.

Lemma find_Some_Held (st : Store) (slug : string) (ne : option ObjectId) x :
  List.find (EventModel.matchesQuery slug ne) (map_to_list (events st)) = Some x →
  Spec.Held st slug ne.
Proof.
  intros [Hin Hm]%List.find_some. destruct x as [i d].
  apply matchesQuery_true in Hm as [Hs Hne].
  exists i, d. split; [|done].
  by apply elem_of_map_to_list, list_elem_of_In.
Qed.

Lemma find_None_not_Held (st : Store) (slug : string) (ne : option ObjectId) :
  List.find (EventModel.matchesQuery slug ne) (map_to_list (events st)) = None →
  ¬ Spec.Held st slug ne.
Proof.
  intros Hnone (i & d & Hl & Hs & Hne).
  assert (Hin : In (i, d) (map_to_list (events st))).
  { by apply list_elem_of_In, elem_of_map_to_list. }
  pose proof (List.find_none _ _ Hnone _ Hin) as Hf.
  assert (Ht : EventModel.matchesQuery slug ne (i, d) = true).
  { by apply matchesQuery_true. }
  congruence.
Qed.

(** The look-up finds a document exactly when the slug is held. *)
Lemma find_Held (st : Store) (slug : string) (ne : option ObjectId) :
  Spec.Held st slug ne →
  ∃ x, List.find (EventModel.matchesQuery slug ne) (map_to_list (events st)) = Some x.
Proof.
  intros H. destruct (List.find _ _) as [x|] eqn:E; [by exists x|].
  by apply find_None_not_Held in E.
Qed.

Lemma find_not_Held (st : Store) (slug : string) (ne : option ObjectId) :
  ¬ Spec.Held st slug ne →
  List.find (EventModel.matchesQuery slug ne) (map_to_list (events st)) = None.
Proof.
  intros H. destruct (List.find _ _) as [x|] eqn:E; [|done].
  by apply find_Some_Held in E.
Qed.

Lemma findOne_held (slug : string) (ne : option ObjectId) (w : World) :
  faults w = [] → Spec.Held (committed w) slug ne →
  ∃ i, EventModel.findOne slug ne w = (Ok (Some i), logCall (EventFindOne slug ne) w).
Proof.
  intros Hf [x Hx]%find_Held. exists x.1.
  unfold EventModel.findOne. rewrite roundTrip_operational by done.
  simpl. by rewrite Hx.
Qed.

Lemma findOne_free (slug : string) (ne : option ObjectId) (w : World) :
  faults w = [] → ¬ Spec.Held (committed w) slug ne →
  EventModel.findOne slug ne w = (Ok None, logCall (EventFindOne slug ne) w).
Proof.
  intros Hf Hx%find_not_Held.
  unfold EventModel.findOne. rewrite roundTrip_operational by done.
  simpl. by rewrite Hx.
Qed.

Lemma candidate_next (base : string) (a : nat) :
  base +:+ "-" +:+ pretty (Z.of_nat a + 1) = Spec.candidate base (S a).
Proof. unfold Spec.candidate. do 3 f_equal. lia. Qed.

(** Every candidate of the remaining iterations is held: the loop runs out. *)
Lemma attemptLoop_exhausts (n a : nat) (base : string) (ne : option ObjectId)
    (w : World) :
  faults w = [] →
  (∀ j, (j < n)%nat → Spec.Held (committed w) (Spec.candidate base (a + j)) ne) →
  EventModel.attemptLoop n base ne (Spec.candidate base a) (Z.of_nat a + 1) w
  = (Throw EventModel.exhausted, Spec.afterCalls (Spec.lookups base ne a n) w).
Proof.
  revert a w. induction n as [|n IH]; intros a w Hf Hheld.
  - simpl. unfold throw. by rewrite afterCalls_nil.
  - cbn [EventModel.attemptLoop]. unfold bind, tryCatch.
    destruct (findOne_held (Spec.candidate base a) ne w Hf) as [i Hi].
    { specialize (Hheld O). rewrite Nat.add_0_r in Hheld. apply Hheld. lia. }
    rewrite Hi, candidate_next.
    replace (Z.of_nat a + 1 + 1) with (Z.of_nat (S a) + 1) by lia.
    rewrite IH; [by rewrite afterCalls_logCall|done|].
    intros j Hj. specialize (Hheld (S j)).
    replace (S a + j)%nat with (a + S j)%nat by lia. apply Hheld. lia.
Qed.

(** The first [k] candidates are held and the next is free: the loop
    returns it, after [k + 1] look-ups. *)
Lemma attemptLoop_returns (k n a : nat) (base : string) (ne : option ObjectId)
    (w : World) :
  faults w = [] → (k < n)%nat →
  (∀ j, (j < k)%nat → Spec.Held (committed w) (Spec.candidate base (a + j)) ne) →
  ¬ Spec.Held (committed w) (Spec.candidate base (a + k)) ne →
  EventModel.attemptLoop n base ne (Spec.candidate base a) (Z.of_nat a + 1) w
  = (Ok (Spec.candidate base (a + k)),
     Spec.afterCalls (Spec.lookups base ne a (S k)) w).
Proof.
  revert n a w. induction k as [|k IH]; intros n a w Hf Hk Hheld Hfree.
  - destruct n as [|n]; [lia|].
    cbn [EventModel.attemptLoop]. unfold bind, tryCatch.
    rewrite Nat.add_0_r in *. by rewrite (findOne_free _ _ _ Hf Hfree).
  - destruct n as [|n]; [lia|].
    cbn [EventModel.attemptLoop]. unfold bind, tryCatch.
    destruct (findOne_held (Spec.candidate base a) ne w Hf) as [i Hi].
    { specialize (Hheld O). rewrite Nat.add_0_r in Hheld. apply Hheld. lia. }
    rewrite Hi, candidate_next.
    replace (Z.of_nat a + 1 + 1) with (Z.of_nat (S a) + 1) by lia.
    rewrite (IH n (S a)); try done; try lia.
    + rewrite afterCalls_logCall.
      by replace (S a + k)%nat with (a + S k)%nat by lia.
    + intros j Hj. specialize (Hheld (S j)).
      replace (S a + j)%nat with (a + S j)%nat by lia. apply Hheld. lia.
    + by replace (S a + k)%nat with (a + S k)%nat by lia.
Qed.

(** Whatever the server answers, a look-up leaves the documents alone and
    adds itself to the trace; when it answers [null], the slug is free. *)
Lemma findOne_any (slug : string) (ne : option ObjectId) (w : World) :
  ∃ r f, EventModel.findOne slug ne w
         = (r, setFaults f (logCall (EventFindOne slug ne) w))
         ∧ (r = Ok None → ¬ Spec.Held (committed w) slug ne).
Proof.
  unfold EventModel.findOne, roundTrip. cbn [faults logCall].
  destruct (faults w) as [|[e|] rest] eqn:Hf.
  - eexists _, []. split.
    + f_equal. unfold setFaults, logCall. simpl. by rewrite Hf.
    + simpl. destruct (List.find _ _) eqn:E; [done|].
      intros _. by apply find_None_not_Held.
  - by exists (Throw e), rest.
  - eexists _, rest. split; [done|].
    simpl. destruct (List.find _ _) eqn:E; [done|].
    intros _. by apply find_None_not_Held.
Qed.

(** The loop in any world: at most [remaining] calls, all of them look-ups
    that exclude [ne]; no document changes; a slug that is returned is
    free. *)
Lemma attemptLoop_trace (n : nat) (base : string) (ne : option ObjectId)
    (slug : string) (counter : Z) (w : World) :
  ∃ cs, calls (EventModel.attemptLoop n base ne slug counter w).2 = calls w ++ cs
        ∧ (length cs ≤ n)%nat
        ∧ Forall (Spec.isLookup ne) cs
        ∧ committed (EventModel.attemptLoop n base ne slug counter w).2 = committed w
        ∧ transaction (EventModel.attemptLoop n base ne slug counter w).2
          = transaction w
        ∧ ∀ s, (EventModel.attemptLoop n base ne slug counter w).1 = Ok s →
               ¬ Spec.Held (committed w) s ne.
Proof.
  revert slug counter w. induction n as [|n IH]; intros slug counter w.
  - exists []. simpl. rewrite List.app_nil_r.
    split_and!; auto; done.
  - cbn [EventModel.attemptLoop]. unfold bind, tryCatch.
    destruct (findOne_any slug ne w) as (r & f & -> & Hfree).
    assert (Hthis : Spec.isLookup ne (EventFindOne slug ne)) by (by exists slug).
    destruct r as [[i|]|e].
    + destruct (IH (base +:+ "-" +:+ pretty counter) (counter + 1)
                   (setFaults f (logCall (EventFindOne slug ne) w)))
        as (cs & Hc & Hl & Hall & Hst & Htx & Hok).
      exists (EventFindOne slug ne :: cs).
      rewrite Hc, Hst, Htx. simpl. rewrite <- List.app_assoc.
      split_and!; auto; try lia.
    + exists [EventFindOne slug ne]. simpl.
      split_and!; auto; try lia; try (by repeat constructor).
      intros s [= <-]. auto.
    + exists [EventFindOne slug ne]. unfold throw. simpl.
      split_and!; auto; try lia; try (by repeat constructor); done.
Qed.

(* ===================================================================== *)
(** * Candidates are pairwise distinct *)
(* ===================================================================== *)

Lemma candidate_inj (base : string) (j k : nat) :
  Spec.candidate base j = Spec.candidate base k → j = k.
Proof.
  assert (Hlen : ∀ n, Spec.candidate base (S n) ≠ base).
  { intros n E. apply (f_equal String.length) in E.
    unfold Spec.candidate in E. rewrite !string_length_app in E.
    simpl in E. lia. }
  destruct j as [|j], k as [|k]; intros E; try done.
  - symmetry in E. by apply Hlen in E.
  - by apply Hlen in E.
  - unfold Spec.candidate in E.
    apply (inj (String.append base)) in E.
    apply (inj (String.append "-")) in E.
    apply (inj pretty) in E. lia.
Qed.

(* ===================================================================== *)
(** * [generateUniqueSlug] *)
(* ===================================================================== *)

Lemma heldb_true (st : Store) (slug : string) (ne : option ObjectId) :
  Spec.heldb st slug ne = true ↔ Spec.Held st slug ne.
Proof.
  unfold Spec.heldb, Spec.Held. rewrite existsb_exists. split.
  - intros ([i d] & Hin & Hm). exists i, d.
    apply andb_prop in Hm as [H1%bool_decide_eq_true H2%bool_decide_eq_true].
    split; [|done]. by apply elem_of_map_to_list, list_elem_of_In.
  - intros (i & d & Hl & Hs & Hne). exists (i, d). split.
    + by apply list_elem_of_In, elem_of_map_to_list.
    + simpl. by rewrite !bool_decide_eq_true_2.
Qed.

Lemma heldb_false (st : Store) (slug : string) (ne : option ObjectId) :
  Spec.heldb st slug ne = false ↔ ¬ Spec.Held st slug ne.
Proof. rewrite <- heldb_true. by destruct (Spec.heldb st slug ne). Qed.

Lemma forallb_seq (f : nat → bool) (n : nat) :
  forallb f (seq 0 n) = true → ∀ k, (k < n)%nat → f k = true.
Proof.
  intros H k Hk. rewrite forallb_forall in H. apply H, in_seq. lia.
Qed.

Lemma generateUniqueSlug_exhausts (title : string) (ne : option ObjectId) (w : World) :
  faults w = [] →
  (∀ k, (k < 100)%nat →
        Spec.Held (committed w) (Spec.candidate (Slug.generateSlug title) k) ne) →
  EventModel.generateUniqueSlug title ne w
  = (Throw EventModel.exhausted,
     Spec.afterCalls (Spec.lookups (Slug.generateSlug title) ne 0 100) w).
Proof.
  intros Hf Hheld. unfold EventModel.generateUniqueSlug.
  by apply (attemptLoop_exhausts EventModel.MAX_ATTEMPTS 0).
Qed.

Lemma generateUniqueSlug_returns (k : nat) (title : string) (ne : option ObjectId)
    (w : World) :
  faults w = [] → (k < 100)%nat →
  (∀ j, (j < k)%nat →
        Spec.Held (committed w) (Spec.candidate (Slug.generateSlug title) j) ne) →
  ¬ Spec.Held (committed w) (Spec.candidate (Slug.generateSlug title) k) ne →
  EventModel.generateUniqueSlug title ne w
  = (Ok (Spec.candidate (Slug.generateSlug title) k),
     Spec.afterCalls (Spec.lookups (Slug.generateSlug title) ne 0 (S k)) w).
Proof.
  intros Hf Hk Hheld Hfree. unfold EventModel.generateUniqueSlug.
  by apply (attemptLoop_returns k EventModel.MAX_ATTEMPTS 0).
Qed.

(** C3. [generateUniqueSlug] makes at most 100 look-ups, whatever the server
    answers; when the server answers and each of the 100 candidates is held
    by another Event, it throws the error "Unable to generate unique slug
    after 100 attempts" after exactly those 100 look-ups; and a slug it
    returns is never held by another Event. *)
Theorem generateUniqueSlug_bound :
  (∀ title ne w,
     ∃ cs, calls (EventModel.generateUniqueSlug title ne w).2 = calls w ++ cs
           ∧ (length cs ≤ 100)%nat
           ∧ Forall (Spec.isLookup ne) cs)
  ∧ (∀ title ne w,
       faults w = [] →
       (∀ k, (k < 100)%nat →
             Spec.Held (committed w) (Spec.candidate (Slug.generateSlug title) k) ne) →
       EventModel.generateUniqueSlug title ne w
       = (Throw (Error "Unable to generate unique slug after 100 attempts"),
          Spec.afterCalls (Spec.lookups (Slug.generateSlug title) ne 0 100) w))
  ∧ (∀ title ne w slug,
       (EventModel.generateUniqueSlug title ne w).1 = Ok slug →
       ¬ Spec.Held (committed w) slug ne).
Proof.
  split; [|split].
  - intros title ne w. unfold EventModel.generateUniqueSlug.
    destruct (attemptLoop_trace EventModel.MAX_ATTEMPTS (Slug.generateSlug title)
                ne (Slug.generateSlug title) 1 w) as (cs & Hc & Hl & Hall & _).
    by exists cs.
  - intros title ne w Hf Hheld.
    by rewrite generateUniqueSlug_exhausts.
  - intros title ne w slug. unfold EventModel.generateUniqueSlug.
    destruct (attemptLoop_trace EventModel.MAX_ATTEMPTS (Slug.generateSlug title)
                ne (Slug.generateSlug title) 1 w) as (cs & _ & _ & _ & _ & _ & Hok).
    apply Hok.
Qed.

Lemma generateUniqueSlug_bound_witness :
  (EventModel.generateUniqueSlug "Meetup" None (Spec.worldOf (Spec.crowdedStore 100))).1
  = Throw (Error "Unable to generate unique slug after 100 attempts").
Proof.
  destruct generateUniqueSlug_bound as (_ & Hfull & _).
  rewrite (Hfull "Meetup" None (Spec.worldOf (Spec.crowdedStore 100))).
  - reflexivity.
  - reflexivity.
  - intros k Hk. apply heldb_true. revert k Hk.
    apply (forallb_seq (λ k, Spec.heldb _ (Spec.candidate _ k) None)).
    vm_compute. reflexivity.
Defined.

(** Among the candidates below [n], either all are held or there is a first
    free one. *)
Lemma first_free (st : Store) (base : string) (ne : option ObjectId) (n : nat) :
  (∀ k, (k < n)%nat → Spec.Held st (Spec.candidate base k) ne)
  ∨ ∃ k, (k < n)%nat
         ∧ (∀ j, (j < k)%nat → Spec.Held st (Spec.candidate base j) ne)
         ∧ ¬ Spec.Held st (Spec.candidate base k) ne.
Proof.
  induction n as [|n [IH|(k & Hk & Hheld & Hfree)]].
  - left. lia.
  - destruct (Spec.heldb st (Spec.candidate base n) ne) eqn:E.
    + left. intros k Hk. destruct (decide (k = n)) as [->|].
      * by apply heldb_true.
      * apply IH. lia.
    + right. exists n. split_and!; [lia|auto|by apply heldb_false].
  - right. exists k. split_and!; [lia|done|done].
Qed.

(** With the server answering, the look-ups of [generateUniqueSlug] are the
    candidates in their order, each one made after the one before was found
    held. *)
Lemma generateUniqueSlug_order (title : string) (ne : option ObjectId) (w : World) :
  faults w = [] →
  ∃ n, (1 ≤ n ≤ 100)%nat
       ∧ calls (EventModel.generateUniqueSlug title ne w).2
         = calls w ++ Spec.lookups (Slug.generateSlug title) ne 0 n
       ∧ ∀ j, (S j < n)%nat →
              Spec.Held (committed w) (Spec.candidate (Slug.generateSlug title) j) ne.
Proof.
  intros Hf.
  destruct (first_free (committed w) (Slug.generateSlug title) ne 100)
    as [Hall|(k & Hk & Hheld & Hfree)].
  - exists 100%nat. rewrite generateUniqueSlug_exhausts by done.
    split_and!; [lia|lia|done|]. intros j Hj. apply Hall. lia.
  - exists (S k). rewrite (generateUniqueSlug_returns k) by done.
    split_and!; [lia|lia|done|]. intros j Hj. apply Hheld. lia.
Qed.

(** The empty base is a base like any other. *)
Lemma all_trimStart (p : ascii → bool) (s : string) :
  Js.all p s = true → Js.all p (Js.trimStart s) = true.
Proof.
  induction s as [|c s IH]; [done|]. simpl.
  intros [Hc Hs]%andb_prop. destruct (Js.isWhiteSpace c); [auto|].
  simpl. by rewrite Hc, Hs.
Qed.

Lemma all_trimEnd (p : ascii → bool) (s : string) :
  Js.all p s = true → Js.all p (Js.trimEnd s) = true.
Proof.
  induction s as [|c s IH]; [done|]. simpl.
  intros [Hc Hs]%andb_prop. specialize (IH Hs).
  destruct (Js.trimEnd s) as [|d t].
  - destruct (Js.isWhiteSpace c); [done|]. simpl. by rewrite Hc.
  - cbn [Js.all] in *. by rewrite Hc, IH.
Qed.

Lemma all_map (p : ascii → bool) (f : ascii → ascii) (s : string) :
  Js.all (λ c, p (f c)) s = true → Js.all p (Js.map f s) = true.
Proof.
  induction s as [|c s IH]; [done|]. simpl.
  intros [Hc Hs]%andb_prop. by rewrite Hc, IH.
Qed.

Lemma removeSpecial_none (s : string) :
  Js.all (λ c, negb (Slug.isSlugChar c)) s = true → Slug.removeSpecial s = "".
Proof.
  induction s as [|c s IH]; [done|]. simpl.
  intros [Hc Hs]%andb_prop. apply negb_true_iff in Hc. rewrite Hc. auto.
Qed.

(** A title made only of characters outside the class of the slug (after
    lower-casing), punctuation for one, has the empty slug. *)
Lemma generateSlug_punctuation (title : string) :
  Js.all (λ c, negb (Slug.isSlugChar (Js.lowerChar c))) title = true →
  Slug.generateSlug title = "".
Proof.
  intros H. unfold Slug.generateSlug.
  rewrite removeSpecial_none; [done|].
  unfold Js.trim. apply all_trimEnd, all_trimStart.
  by apply (all_map (λ c, negb (Slug.isSlugChar c))).
Qed.

(** C10. A title whose canonical form is empty, such as one made only of
    punctuation, is treated like any other: [generateUniqueSlug] looks up
    the empty slug and returns it when no other Event holds it; when the
    empty slug and ["-1"], ..., up to ["-(k-1)"] are held and ["-k"] is
    free, it returns ["-k"]. *)
Theorem generateUniqueSlug_empty_base :
  Slug.generateSlug "?!..." = ""
  ∧ (∀ title, Js.all (λ c, negb (Slug.isSlugChar (Js.lowerChar c))) title = true →
              Slug.generateSlug title = "")
  ∧ Spec.candidate "" 1 = "-1" ∧ Spec.candidate "" 2 = "-2"
  ∧ ∀ title ne w,
      Slug.generateSlug title = "" → faults w = [] →
      (¬ Spec.Held (committed w) "" ne →
       EventModel.generateUniqueSlug title ne w
       = (Ok "", Spec.afterCalls [EventFindOne "" ne] w))
      ∧ (∀ k, (1 ≤ k < 100)%nat →
              (∀ j, (j < k)%nat → Spec.Held (committed w) (Spec.candidate "" j) ne) →
              ¬ Spec.Held (committed w) ("-" +:+ pretty (Z.of_nat k)) ne →
              EventModel.generateUniqueSlug title ne w
              = (Ok ("-" +:+ pretty (Z.of_nat k)),
                 Spec.afterCalls (Spec.lookups "" ne 0 (S k)) w)).
Proof.
  split; [by vm_compute|]. split; [apply generateSlug_punctuation|].
  split; [by vm_compute|]. split; [by vm_compute|].
  intros title ne w Hbase Hf. split.
  - intros Hfree.
    rewrite (generateUniqueSlug_returns 0) by (rewrite ?Hbase; (done || lia)).
    by rewrite Hbase.
  - intros k Hk Hheld Hfree.
    assert (E : Spec.candidate "" k = "-" +:+ pretty (Z.of_nat k)).
    { destruct k; [lia|done]. }
    rewrite (generateUniqueSlug_returns k); rewrite ?Hbase, ?E; (done || lia).
Qed.

Lemma generateUniqueSlug_empty_base_witness :
  (EventModel.generateUniqueSlug "?!..." None Spec.emptyWorld).1 = Ok "".
Proof.
  destruct generateUniqueSlug_empty_base as (_ & _ & _ & _ & H).
  destruct (H "?!..." None Spec.emptyWorld) as [Hfree _].
  - vm_compute. reflexivity.
  - reflexivity.
  - rewrite Hfree; [reflexivity|].
    apply heldb_false. vm_compute. reflexivity.
Defined.

(* ===================================================================== *)
(** * Trimming and lower-casing *)
(* ===================================================================== *)

(** Lower-casing keeps white space white space, and nothing else. *)
Lemma lowerChar_isWhiteSpace (c : ascii) :
  Js.isWhiteSpace (Js.lowerChar c) = Js.isWhiteSpace c.
Proof. destruct c as [[] [] [] [] [] [] [] []]; vm_compute; done. Qed.

Lemma trimStart_map (f : ascii → ascii) (s : string) :
  (∀ c, Js.isWhiteSpace (f c) = Js.isWhiteSpace c) →
  Js.trimStart (Js.map f s) = Js.map f (Js.trimStart s).
Proof.
  intros Hf. induction s as [|c s IH]; [done|]. simpl.
  rewrite Hf. by destruct (Js.isWhiteSpace c).
Qed.

Lemma trimEnd_map (f : ascii → ascii) (s : string) :
  (∀ c, Js.isWhiteSpace (f c) = Js.isWhiteSpace c) →
  Js.trimEnd (Js.map f s) = Js.map f (Js.trimEnd s).
Proof.
  intros Hf. induction s as [|c s IH]; [done|]. simpl.
  rewrite IH, Hf. destruct (Js.trimEnd s); [|done].
  by destruct (Js.isWhiteSpace c).
Qed.

(** Trimming and lower-casing commute. *)
Lemma trim_toLowerCase (s : string) :
  Js.trim (Js.toLowerCase s) = Js.toLowerCase (Js.trim s).
Proof.
  unfold Js.trim, Js.toLowerCase.
  by rewrite trimStart_map, trimEnd_map by apply lowerChar_isWhiteSpace.
Qed.

Lemma trimEnd_idempotent (s : string) : Js.trimEnd (Js.trimEnd s) = Js.trimEnd s.
Proof.
  induction s as [|c s IH]; [done|]. simpl.
  destruct (Js.trimEnd s) as [|d t] eqn:E.
  - destruct (Js.isWhiteSpace c) eqn:Ec; [done|]. simpl. by rewrite Ec.
  - change (Js.trimEnd (String c (String d t)))
      with (match Js.trimEnd (String d t) with
            | EmptyString =>
                if Js.isWhiteSpace c then EmptyString else String c EmptyString
            | t' => String c t'
            end).
    by rewrite IH.
Qed.

Lemma trimStart_trimEnd (s : string) :
  Js.trimStart (Js.trimEnd (Js.trimStart s)) = Js.trimEnd (Js.trimStart s).
Proof.
  induction s as [|c s IH]; [done|]. cbn [Js.trimStart].
  destruct (Js.isWhiteSpace c) eqn:Ec; [done|].
  cbn [Js.trimEnd]. destruct (Js.trimEnd s); rewrite ?Ec; simpl; by rewrite Ec.
Qed.

Lemma trim_idempotent (s : string) : Js.trim (Js.trim s) = Js.trim s.
Proof. unfold Js.trim. by rewrite trimStart_trimEnd, trimEnd_idempotent. Qed.

(** The [trim] setter of [title] does not change the slug. *)
Lemma generateSlug_trim (title : string) :
  Slug.generateSlug (Js.trim title) = Slug.generateSlug title.
Proof.
  unfold Slug.generateSlug.
  by rewrite (trim_toLowerCase (Js.trim title)), trim_idempotent, <- trim_toLowerCase.
Qed.

(** What the setters leave of the title, the date and the time. *)
Lemma applySetters_title (data : EventDoc) :
  ev_title (EventModel.applySetters data) = Js.trim (ev_title data).
Proof. reflexivity. Qed.

Lemma applySetters_date (data : EventDoc) :
  ev_date (EventModel.applySetters data) = ev_date data.
Proof. reflexivity. Qed.

Lemma applySetters_time (data : EventDoc) :
  ev_time (EventModel.applySetters data) = ev_time data.
Proof. reflexivity. Qed.

Lemma generateUniqueSlug_trim (title : string) (ne : option ObjectId) :
  EventModel.generateUniqueSlug (Js.trim title) ne
  = EventModel.generateUniqueSlug title ne.
Proof. unfold EventModel.generateUniqueSlug. by rewrite generateSlug_trim. Qed.

(* ===================================================================== *)
(** * Saving an Event *)
(* ===================================================================== *)

(** The insert of a new document whose slug nobody else holds. *)
Lemma write_insert (id : ObjectId) (d : EventDoc) (a b c : bool) (w : World) :
  faults w = [] →
  events (committed w) !! id = None →
  ¬ Spec.Held (committed w) (ev_slug d) (Some id) →
  EventModel.write (EventModel.mkInstance id d true a b c) w
  = (Ok (EventModel.mkInstance id d false false false false),
     setCommitted (mkStore (<[id := d]> (events (committed w)))
                           (bookings (committed w)))
                  (Spec.afterCalls [EventInsert id] w)).
Proof.
  intros Hf Hnew Hfree%find_not_Held. unfold EventModel.write.
  rewrite roundTrip_operational by done. cbn [EventModel.isNew EventModel._id
    EventModel.doc committed logCall andb negb].
  rewrite Hnew, Hfree.
  by rewrite bool_decide_eq_false_2 by (by intros [? ?]).
Qed.

(** The update of a stored document whose slug nobody else holds. *)
Lemma write_update (id : ObjectId) (d d0 : EventDoc) (a b c : bool) (w : World) :
  faults w = [] →
  events (committed w) !! id = Some d0 →
  ¬ Spec.Held (committed w) (ev_slug d) (Some id) →
  EventModel.write (EventModel.mkInstance id d false a b c) w
  = (Ok (EventModel.mkInstance id d false false false false),
     setCommitted (mkStore (<[id := d]> (events (committed w)))
                           (bookings (committed w)))
                  (Spec.afterCalls [EventUpdate id] w)).
Proof.
  intros Hf Hold Hfree%find_not_Held. unfold EventModel.write.
  rewrite roundTrip_operational by done. cbn [EventModel.isNew EventModel._id
    EventModel.doc committed logCall andb negb].
  rewrite Hold, Hfree.
  by rewrite bool_decide_eq_false_2 by done.
Qed.

(** C4. Every look-up of [generateUniqueSlug title excludeId] carries the
    exclusion of [excludeId]; when the only Event that holds the canonical
    slug of the title is the document [excludeId] itself,
    [generateUniqueSlug] returns that slug after one look-up; and saving a
    stored Event renamed to a title that canonicalizes to its own slug, the
    document passing the validation of the schema, succeeds, stores the
    trimmed title and leaves the slug as it was. *)
Theorem rename_excludes_own_document :
  (∀ title id w,
     ∃ cs, calls (EventModel.generateUniqueSlug title (Some id) w).2 = calls w ++ cs
           ∧ Forall (Spec.isLookup (Some id)) cs)
  ∧ (∀ title id w,
       faults w = [] →
       (∀ j d, events (committed w) !! j = Some d →
               ev_slug d = Slug.generateSlug title → j = id) →
       EventModel.generateUniqueSlug title (Some id) w
       = (Ok (Slug.generateSlug title),
          Spec.afterCalls [EventFindOne (Slug.generateSlug title) (Some id)] w))
  ∧ (∀ (host : Host) title id d w,
       faults w = [] →
       events (committed w) !! id = Some d →
       EventModel.validation (EventModel.setTitle (Js.trim title) d) = [] →
       Slug.generateSlug title = ev_slug d →
       (∀ j d', events (committed w) !! j = Some d' →
                ev_slug d' = ev_slug d → j = id) →
       ∃ w', EventModel.save
               (EventModel.rename title
                  (EventModel.mkInstance id d false false false false)) w
             = (Ok (EventModel.mkInstance id (EventModel.setTitle (Js.trim title) d)
                                          false false false false), w')
             ∧ events (committed w')
               = <[id := EventModel.setTitle (Js.trim title) d]>
                   (events (committed w))).
Proof.
  assert (Hown : ∀ title id w,
    (∀ j d, events (committed w) !! j = Some d →
            ev_slug d = Slug.generateSlug title → j = id) →
    ¬ Spec.Held (committed w) (Slug.generateSlug title) (Some id)).
  { intros title id w Honly (j & d & Hl & Hs & Hne).
    apply Hne. f_equal. symmetry. eauto. }
  split; [|split].
  - intros title id w. unfold EventModel.generateUniqueSlug.
    destruct (attemptLoop_trace EventModel.MAX_ATTEMPTS (Slug.generateSlug title)
                (Some id) (Slug.generateSlug title) 1 w) as (cs & Hc & _ & Hall & _).
    by exists cs.
  - intros title id w Hf Honly.
    rewrite (generateUniqueSlug_returns 0); try done; try lia.
    by apply Hown.
  - intros host title id d w Hf Hd Hvalid Hslug Honly.
    assert (Hfree : ¬ Spec.Held (committed w) (Slug.generateSlug title) (Some id)).
    { apply Hown. intros j d' Hl Hs. apply (Honly j d' Hl). congruence. }
    unfold EventModel.save, EventModel.validate, EventModel.rename.
    cbn [EventModel.doc]. rewrite Hvalid.
    unfold EventModel.preSave, bind, ret.
    cbn [EventModel.modifiedTitle EventModel.modifiedDate EventModel.modifiedTime
         EventModel.isNew EventModel.doc EventModel._id orb ev_title
         EventModel.setTitle].
    destruct (negb (Js.eqb (Js.trim title) (ev_title d))); cbn [orb].
    + rewrite generateUniqueSlug_trim.
      rewrite (generateUniqueSlug_returns 0); try done; try lia.
      cbn [ret EventModel.withDoc EventModel.modifiedTitle EventModel.modifiedDate
           EventModel.modifiedTime EventModel.isNew EventModel.doc EventModel._id].
      rewrite Hslug. cbn [Spec.candidate].
      unfold EventModel.withDoc.
      cbn [EventModel.modifiedTitle EventModel.modifiedDate EventModel.modifiedTime
           EventModel.isNew EventModel._id].
      replace (EventModel.setSlug (ev_slug d) (EventModel.setTitle (Js.trim title) d))
        with (EventModel.setTitle (Js.trim title) d) by (by destruct d).
      rewrite (write_update id _ d); try done.
      * eexists. split; [reflexivity|done].
      * cbn [EventModel.setTitle ev_slug]. rewrite <- Hslug. apply Hfree.
    + cbn [EventModel.modifiedTitle EventModel.modifiedDate EventModel.modifiedTime
           EventModel.isNew EventModel.doc EventModel._id].
      rewrite (write_update id _ d); try done.
      * eexists. split; [reflexivity|done].
      * cbn [EventModel.setTitle ev_slug]. rewrite <- Hslug. apply Hfree.
Qed.

Lemma rename_excludes_own_document_witness :
  (EventModel.generateUniqueSlug "MEETUP !" (Some (mkObjectId "0"))
     (Spec.worldOf (Spec.crowdedStore 1))).1
  = Ok "meetup"
  ∧ (@EventModel.save Spec.epochHost
       (EventModel.rename " MEETUP ! "
          (EventModel.mkInstance (mkObjectId "0")
             (Spec.event "Meetup" "meetup" "2024-01-05" "14:30")
             false false false false))
       (Spec.worldOf (Spec.crowdedStore 1))).1
    = Ok (EventModel.mkInstance (mkObjectId "0")
            (Spec.event "MEETUP !" "meetup" "2024-01-05" "14:30")
            false false false false).
Proof.
  assert (Hone : ∀ j d,
    events (committed (Spec.worldOf (Spec.crowdedStore 1))) !! j = Some d →
    j = mkObjectId "0").
  { intros j d Hl.
    change (events (committed (Spec.worldOf (Spec.crowdedStore 1))))
      with (<[mkObjectId "0" := Spec.event "Meetup" "meetup" "2024-01-05" "14:30"]>
              (∅ : gmap ObjectId EventDoc)) in Hl.
    apply lookup_insert_Some in Hl as [[<- _]|[_ Hl]]; [done|].
    by rewrite lookup_empty in Hl. }
  destruct rename_excludes_own_document as (_ & Hown & Hsave). split.
  - rewrite Hown.
    + vm_compute. reflexivity.
    + reflexivity.
    + intros j d Hl _. by apply (Hone j d).
  - destruct (Hsave Spec.epochHost " MEETUP ! " (mkObjectId "0")
                (Spec.event "Meetup" "meetup" "2024-01-05" "14:30")
                (Spec.worldOf (Spec.crowdedStore 1))) as (w' & E & _).
    + reflexivity.
    + by vm_compute.
    + by vm_compute.
    + by vm_compute.
    + intros j d' Hl _. by apply (Hone j d').
    + rewrite E. reflexivity.
Defined.

(* ===================================================================== *)
(** * Creations that share a base slug *)
(* ===================================================================== *)

(** One creation in a store that holds the first [a] candidates: the new
    Event gets the candidate [a]. *)
Lemma createEvent_step `{Host} (base : string) (a : nat) (r : Spec.Request)
    (w : World) :
  faults w = [] → (a < 100)%nat → Spec.accepted base r →
  events (committed w) !! Spec.rq_id r = None →
  Spec.holdsFirst base a (committed w) →
  ∃ w', Spec.createEvent r w = (Ok (Spec.candidate base a), w')
        ∧ faults w' = []
        ∧ Spec.holdsFirst base (S a) (committed w')
        ∧ ∀ j, j ≠ Spec.rq_id r →
               events (committed w) !! j = None → events (committed w') !! j = None.
Proof.
  intros Hf Ha (Hvalid & Hbase & [d' Hd] & [t' Ht]) Hnew [Hheld Honly].
  unfold Spec.rq_title, Spec.rq_date, Spec.rq_time in *.
  assert (Hcollide : ∀ j, (j < a)%nat →
            Spec.Held (committed w) (Spec.candidate base j) (Some (Spec.rq_id r))).
  { intros j Hj. destruct (Hheld j Hj) as (i & d & Hl & Hs).
    exists i, d. split_and!; [done|done|]. intros [= <-]. congruence. }
  assert (Hfree : ¬ Spec.Held (committed w) (Spec.candidate base a) (Some (Spec.rq_id r))).
  { intros (i & d & Hl & Hs & _). specialize (Honly i d a Hl Hs). lia. }
  unfold Spec.createEvent, EventModel.save, EventModel.validate, EventModel.newEvent.
  cbn [EventModel.doc]. rewrite Hvalid.
  unfold EventModel.preSave, bind.
  cbn [ret EventModel.modifiedTitle EventModel.modifiedDate EventModel.modifiedTime
       EventModel.isNew EventModel.doc EventModel._id orb].
  rewrite applySetters_title, generateUniqueSlug_trim.
  rewrite (generateUniqueSlug_returns a); rewrite ?Hbase; try done.
  unfold EventModel.withDoc, EventModel.liftResult.
  cbn [ret EventModel.modifiedTitle EventModel.modifiedDate EventModel.modifiedTime
       EventModel.isNew EventModel.doc EventModel._id EventModel.setSlug
       EventModel.setDate EventModel.setTime ev_title ev_date ev_time ev_slug].
  rewrite applySetters_date, Hd.
  cbn [ret EventModel.modifiedTitle EventModel.modifiedDate EventModel.modifiedTime
       EventModel.isNew EventModel.doc EventModel._id EventModel.setSlug
       EventModel.setDate EventModel.setTime ev_title ev_date ev_time ev_slug].
  rewrite applySetters_time, Ht.
  cbn [ret EventModel.modifiedTitle EventModel.modifiedDate EventModel.modifiedTime
       EventModel.isNew EventModel.doc EventModel._id EventModel.setSlug
       EventModel.setDate EventModel.setTime ev_title ev_date ev_time ev_slug].
  rewrite write_insert; try done.
  eexists. split; [reflexivity|].
  unfold setCommitted, Spec.afterCalls. cbn [committed faults]. cbn [events].
  split_and!; [done| |].
  - unfold Spec.holdsFirst. cbn [events]. split.
    + intros k Hk. destruct (decide (k = a)) as [->|Hne].
      * exists (Spec.rq_id r). eexists. split; [apply lookup_insert_eq|done].
      * destruct (Hheld k) as (i & d & Hl & Hs); [lia|].
        exists i, d. split; [|done].
        rewrite lookup_insert_ne; [done|]. intros <-. congruence.
    + intros i d k [[<- <-]|[Hne Hl]]%lookup_insert_Some Hs.
      * cbn [ev_slug EventModel.setTime EventModel.setDate EventModel.setSlug] in Hs.
        apply candidate_inj in Hs. lia.
      * specialize (Honly i d k Hl Hs). lia.
  - intros j Hj Hl. by rewrite lookup_insert_ne.
Qed.

(** Creations in a row from a store that holds the first [a] candidates. *)
Lemma createEvents_from `{Host} (base : string) (rs : list Spec.Request) :
  ∀ (a : nat) (w : World),
    faults w = [] → (a + length rs ≤ 100)%nat →
    Forall (Spec.accepted base) rs →
    NoDup (Spec.rq_id <$> rs) →
    Forall (λ r, events (committed w) !! Spec.rq_id r = None) rs →
    Spec.holdsFirst base a (committed w) →
    (Spec.createEvents rs w).1 = Ok (Spec.candidate base <$> seq a (length rs)).
Proof.
  induction rs as [|r rs IH]; intros a w Hf Hlen Hacc Hdup Hnew Hfirst; [done|].
  cbn [length] in Hlen.
  apply Forall_cons in Hacc as [Hr Hacc]. apply Forall_cons in Hnew as [Hnr Hnew].
  cbn [fmap list_fmap] in Hdup. apply NoDup_cons in Hdup as [Hnotin Hdup].
  destruct (createEvent_step base a r w) as (w' & Hstep & Hf' & Hfirst' & Hkeep);
    try done; [lia|].
  cbn [Spec.createEvents]. unfold bind at 1. rewrite Hstep.
  assert (Hnew' : Forall (λ r, events (committed w') !! Spec.rq_id r = None) rs).
  { apply Forall_forall. intros r' Hin. apply Hkeep.
    - intros E'. apply Hnotin. rewrite <- E'. by apply list_elem_of_fmap_2.
    - by apply (proj1 (Forall_forall _ _) Hnew). }
  specialize (IH (S a) w' Hf' ltac:(lia) Hacc Hdup Hnew' Hfirst').
  unfold bind at 1.
  destruct (Spec.createEvents rs w') as [[slugs|e] w'']; cbn [fst] in IH; [|done].
  injection IH as ->. done.
Qed.

(** C2, as stated, fails at the 101st creation: after a hundred creations
    titled ["Meetup"], which got ["meetup"], ["meetup-1"], ..., ["meetup-99"],
    one more does not get ["meetup-100"]: it throws. *)
Lemma slug_sequence_101st :
  (@Spec.createEvents Spec.epochHost (Spec.sameTitle "Meetup" 100) Spec.emptyWorld).1
  = Ok (Spec.candidate "meetup" <$> seq 0 100)
  ∧ Spec.candidate "meetup" 100 = "meetup-100"
  ∧ (@Spec.createEvent Spec.epochHost
       (Spec.mkRequest (mkObjectId "101")
          (Spec.event "Meetup" "" "2024-01-05" "2:30 PM"))
       (@Spec.createEvents Spec.epochHost (Spec.sameTitle "Meetup" 100)
          Spec.emptyWorld).2).1
    = Throw (Error "Unable to generate unique slug after 100 attempts").
Proof.
  split; [|split]; vm_compute; reflexivity.
Qed.

(** C2, amended. [generateUniqueSlug] looks up the canonical base slug
    first, then [base-1], [base-2], ..., one more candidate after each
    look-up that found the slug held, and at most 100 in all.  So, from a
    store in which no Event holds the base or any [base-k], the creations of
    up to 100 Events whose titles canonicalize to the same base get, in
    their order, [base], [base-1], [base-2], ...: the [N]th gets
    [base-(N-1)], for [N] up to 100.  A creation is the [save] of a new
    document that passes the validation of the schema, with a date and a
    time that normalize. *)
Theorem slug_sequence :
  (∀ title ne w,
     faults w = [] →
     ∃ n, (1 ≤ n ≤ 100)%nat
          ∧ calls (EventModel.generateUniqueSlug title ne w).2
            = calls w ++ Spec.lookups (Slug.generateSlug title) ne 0 n
          ∧ ∀ j, (S j < n)%nat →
                 Spec.Held (committed w)
                           (Spec.candidate (Slug.generateSlug title) j) ne)
  ∧ (∀ (host : Host) base rs w,
       faults w = [] → (length rs ≤ 100)%nat →
       Forall (Spec.accepted base) rs →
       NoDup (Spec.rq_id <$> rs) →
       Forall (λ r, events (committed w) !! Spec.rq_id r = None) rs →
       (∀ i d k, events (committed w) !! i = Some d →
                 ev_slug d ≠ Spec.candidate base k) →
       (Spec.createEvents rs w).1
       = Ok (Spec.candidate base <$> seq 0 (length rs))).
Proof.
  split; [apply generateUniqueSlug_order|].
  intros host base rs w Hf Hlen Hacc Hdup Hnew Hnone.
  apply createEvents_from; try done. split.
  - intros k Hk. lia.
  - intros i d k Hl Hs. by destruct (Hnone i d k Hl).
Qed.

Lemma slug_sequence_witness :
  (@Spec.createEvents Spec.epochHost (Spec.sameTitle " Rust Meetup! " 3)
     Spec.emptyWorld).1
  = Ok ["rust-meetup"; "rust-meetup-1"; "rust-meetup-2"].
Proof.
  apply (proj2 slug_sequence Spec.epochHost "rust-meetup"
               (Spec.sameTitle " Rust Meetup! " 3) Spec.emptyWorld).
  - reflexivity.
  - simpl. lia.
  - repeat constructor; vm_compute; eauto.
  - apply (proj1 (bool_decide_eq_true
             (NoDup (Spec.rq_id <$> Spec.sameTitle " Rust Meetup! " 3)))).
    vm_compute. reflexivity.
  - repeat constructor.
  - intros i d k Hl.
    change (events (committed Spec.emptyWorld)) with (∅ : gmap ObjectId EventDoc) in Hl.
    by rewrite lookup_empty in Hl.
Defined.

(* ===================================================================== *)
(** * The transactional booking operations *)
(* ===================================================================== *)

Lemma store_eta (st : Store) : mkStore (events st) (bookings st) = st.
Proof. by destruct st. Qed.

Lemma bind_ok {A B} (m : M A) (k : A → M B) (w w' : World) (a : A) :
  m w = (Ok a, w') → bind m k w = k a w'.
Proof. unfold bind. by intros ->. Qed.

(** The cast of an id: accepted, it gives the ObjectId the argument stands
    for; refused, it throws the [CastError] that quotes the argument. *)
Lemma castObjectId_valid (model : string) (id : IdArg) :
  isValidId id = true → castObjectId model id = Ok (objectIdOf id).
Proof.
  destruct id as [s|o]; [|done]. cbn [isValidId castObjectId objectIdOf].
  unfold ObjectId_ofString. by intros ->.
Qed.

Lemma castObjectId_invalid (model : string) (id : IdArg) :
  isValidId id = false → castObjectId model id = Throw (castError (idText id) model).
Proof.
  destruct id as [s|o]; [|done]. cbn [isValidId castObjectId idText].
  unfold ObjectId_ofString. by intros ->.
Qed.

Lemma toObjectId_valid (id : IdArg) :
  isValidId id = true → toObjectId id = Ok (objectIdOf id).
Proof.
  destruct id as [s|o]; [|done]. cbn [isValidId toObjectId objectIdOf].
  unfold ObjectId_ofString. by intros ->.
Qed.

(** The steps of a transaction when the server answers. *)
Section Steps.

Variables (st : Store) (tx : option Store) (n : nat) (cs : list DbCall) (nid : N).

Lemma startSession_run :
  startSession (mkWorld st tx n [] cs nid)
  = (Ok (), mkWorld st tx (S n) [] (cs ++ [StartSession]) nid).
Proof. reflexivity. Qed.

Lemma startTransaction_run :
  startTransaction (mkWorld st tx n [] cs nid)
  = (Ok (), mkWorld st (Some st) n [] (cs ++ [StartTransaction]) nid).
Proof. reflexivity. Qed.

Lemma commitTransaction_run (t : Store) :
  commitTransaction (mkWorld st (Some t) n [] cs nid)
  = (Ok (), mkWorld t None n [] (cs ++ [CommitTransaction]) nid).
Proof. reflexivity. Qed.

Lemma abortTransaction_run :
  abortTransaction (mkWorld st tx n [] cs nid)
  = (Ok (), mkWorld st None n [] (cs ++ [AbortTransaction]) nid).
Proof. reflexivity. Qed.

Lemma endSession_run :
  endSession (mkWorld st tx n [] cs nid)
  = (Ok (), mkWorld st tx (pred n) [] (cs ++ [EndSession]) nid).
Proof. reflexivity. Qed.

Lemma Event_findById_run (id : IdArg) (t : Store) :
  isValidId id = true →
  EventModel.findById id true (mkWorld st (Some t) n [] cs nid)
  = (Ok (match events t !! objectIdOf id with
         | Some _ => Some (objectIdOf id)
         | None => None
         end),
     mkWorld st (Some t) n [] (cs ++ [EventFindById (objectIdOf id)]) nid).
Proof.
  intros Hid. unfold EventModel.findById. by rewrite castObjectId_valid.
Qed.

Lemma Booking_findByIdAndDelete_run (id : IdArg) (t : Store) :
  isValidId id = true →
  BookingModel.findByIdAndDelete id (mkWorld st (Some t) n [] cs nid)
  = (Ok (bookings t !! objectIdOf id),
     mkWorld st (Some (mkStore (events t) (delete (objectIdOf id) (bookings t))))
             n [] (cs ++ [BookingFindByIdAndDelete (objectIdOf id)]) nid).
Proof.
  intros Hid. unfold BookingModel.findByIdAndDelete. by rewrite castObjectId_valid.
Qed.

(** A query whose id the cast refuses throws before anything is sent. *)
Lemma Event_findById_cast (id : IdArg) (inSession : bool) (w : World) :
  isValidId id = false →
  EventModel.findById id inSession w = (Throw (castError (idText id) "Event"), w).
Proof.
  intros Hid. unfold EventModel.findById. by rewrite castObjectId_invalid.
Qed.

Lemma Booking_findById_cast (id : IdArg) (w : World) :
  isValidId id = false →
  BookingModel.findById id w = (Throw (castError (idText id) "Booking"), w).
Proof.
  intros Hid. unfold BookingModel.findById. by rewrite castObjectId_invalid.
Qed.

Lemma Booking_findByIdAndDelete_cast (id : IdArg) (w : World) :
  isValidId id = false →
  BookingModel.findByIdAndDelete id w
  = (Throw (castError (idText id) "Booking"), w).
Proof.
  intros Hid. unfold BookingModel.findByIdAndDelete. by rewrite castObjectId_invalid.
Qed.

End Steps.

(** [createBookingWithTransaction] on an id the cast accepts and that names
    no Event. *)
Lemma createBooking_missing_run (eventId : IdArg) (email : string) (w : World) :
  faults w = [] →
  isValidId eventId = true →
  events (committed w) !! objectIdOf eventId = None →
  BookingUtils.createBookingWithTransaction eventId email w
  = (Throw (Error ("Event with ID " +:+ idText eventId +:+ " does not exist")),
     setTransaction None
       (Spec.afterCalls [StartSession; StartTransaction;
                         EventFindById (objectIdOf eventId);
                         AbortTransaction; EndSession] w)).
Proof.
  intros Hf Hid Hmissing.
  destruct w as [st tx n f cs nid]. simpl in Hf, Hmissing. subst f.
  unfold BookingUtils.createBookingWithTransaction.
  erewrite bind_ok by apply startSession_run.
  erewrite bind_ok by apply startTransaction_run.
  unfold tryCatchFinally, tryCatch.
  erewrite bind_ok by (by apply Event_findById_run).
  rewrite Hmissing. unfold throw, BookingUtils.abortAndRethrow.
  erewrite bind_ok by apply abortTransaction_run.
  unfold BookingUtils.eventMissing, Error, throw.
  rewrite endSession_run.
  unfold Spec.afterCalls, setTransaction. cbn [committed transaction openSessions
    faults calls nextId pred].
  by rewrite <- !List.app_assoc.
Qed.

(** [createBookingWithTransaction] on a string the cast refuses: the
    look-up throws before it reaches the server. *)
Lemma createBooking_cast_run (eventId : IdArg) (email : string) (w : World) :
  faults w = [] →
  isValidId eventId = false →
  BookingUtils.createBookingWithTransaction eventId email w
  = (Throw (castError (idText eventId) "Event"),
     setTransaction None
       (Spec.afterCalls [StartSession; StartTransaction;
                         AbortTransaction; EndSession] w)).
Proof.
  intros Hf Hid.
  destruct w as [st tx n f cs nid]. simpl in Hf. subst f.
  unfold BookingUtils.createBookingWithTransaction.
  erewrite bind_ok by apply startSession_run.
  erewrite bind_ok by apply startTransaction_run.
  unfold tryCatchFinally, tryCatch. unfold bind at 1.
  rewrite Event_findById_cast by done.
  unfold BookingUtils.abortAndRethrow, castError.
  erewrite bind_ok by apply abortTransaction_run.
  unfold throw. rewrite endSession_run.
  unfold Spec.afterCalls, setTransaction. cbn [committed transaction openSessions
    faults calls nextId pred].
  by rewrite <- !List.app_assoc.
Qed.

(** C1, as stated, fails on a string that is not the text of an ObjectId:
    no Event is stored, so ["e1"] names none, and the call does not fail
    with the missing-Event error: the look-up refuses to cast the string and
    the [CastError] is what is thrown. *)
Lemma createBooking_malformed_id :
  events (committed Spec.emptyWorld) = ∅
  ∧ (BookingUtils.createBookingWithTransaction (IdString "e1") "ada@example.org"
       Spec.emptyWorld).1
    = Throw (castError "e1" "Event")
  ∧ castError "e1" "Event" ≠ Error "Event with ID e1 does not exist".
Proof. split_and!; [done|by vm_compute|discriminate]. Qed.

(** C1, amended. With the server answering, [createBookingWithTransaction]
    on an [eventId] that the cast accepts (an ObjectId, or the text of one:
    24 hexadecimal digits in either letter case) and that names no Event
    throws the error "Event with ID ... does not exist" (the
    missing-reference failure), after the calls [startSession],
    [startTransaction], the look-up, [abortTransaction] and [endSession]; on
    any other string it throws the [CastError] of the look-up, which does
    not reach the server, after [abortTransaction] and [endSession] as well.
    In both cases the committed documents are the same as before, no
    transaction is left open, and no Booking was inserted. *)
Theorem createBooking_missing_event (eventId : IdArg) (email : string) (w : World) :
  faults w = [] →
  events (committed w) !! objectIdOf eventId = None →
  (isValidId eventId = true →
   BookingUtils.createBookingWithTransaction eventId email w
   = (Throw (Error ("Event with ID " +:+ idText eventId +:+ " does not exist")),
      setTransaction None
        (Spec.afterCalls [StartSession; StartTransaction;
                          EventFindById (objectIdOf eventId);
                          AbortTransaction; EndSession] w)))
  ∧ (isValidId eventId = false →
     ∃ message,
       BookingUtils.createBookingWithTransaction eventId email w
       = (Throw (JsError "CastError" message),
          setTransaction None
            (Spec.afterCalls [StartSession; StartTransaction;
                              AbortTransaction; EndSession] w)))
  ∧ committed (BookingUtils.createBookingWithTransaction eventId email w).2
    = committed w
  ∧ transaction (BookingUtils.createBookingWithTransaction eventId email w).2 = None
  ∧ Forall (λ c, ∀ id, c ≠ BookingInsert id)
           (drop (length (calls w))
              (calls (BookingUtils.createBookingWithTransaction eventId email w).2)).
Proof.
  intros Hf Hmissing.
  split; [intros Hid; by apply createBooking_missing_run|].
  split; [intros Hid; eexists; by apply createBooking_cast_run|].
  destruct (isValidId eventId) eqn:Hid.
  - rewrite createBooking_missing_run by done. split_and!; try done.
    cbn [snd calls setTransaction Spec.afterCalls].
    rewrite drop_app_length. repeat constructor; done.
  - rewrite createBooking_cast_run by done. split_and!; try done.
    cbn [snd calls setTransaction Spec.afterCalls].
    rewrite drop_app_length. repeat constructor; done.
Qed.

Lemma createBooking_missing_event_witness :
  (BookingUtils.createBookingWithTransaction (IdString "65F0C0FFEE0000000000ABCD")
     "Ada@Example.org" Spec.emptyWorld).1
  = Throw (Error "Event with ID 65F0C0FFEE0000000000ABCD does not exist").
Proof.
  destruct (createBooking_missing_event
              (IdString "65F0C0FFEE0000000000ABCD") "Ada@Example.org"
              Spec.emptyWorld) as [E _].
  - reflexivity.
  - apply lookup_empty.
  - rewrite E; [reflexivity|by vm_compute].
Defined.

(** One deletion when the server answers and the cast accepts the id. *)
Lemma deleteBooking_run (id : IdArg) (w : World) :
  faults w = [] →
  isValidId id = true →
  BookingUtils.deleteBookingWithTransaction id w
  = (Ok (bool_decide (is_Some (bookings (committed w) !! objectIdOf id))),
     setTransaction None
       (setCommitted
          (mkStore (events (committed w))
                   (delete (objectIdOf id) (bookings (committed w))))
          (Spec.afterCalls (Spec.deletionCalls id) w))).
Proof.
  intros Hf Hid. destruct w as [st tx n f cs nid]. simpl in Hf. subst f.
  unfold BookingUtils.deleteBookingWithTransaction.
  erewrite bind_ok by apply startSession_run.
  erewrite bind_ok by apply startTransaction_run.
  unfold tryCatchFinally, tryCatch.
  erewrite bind_ok by (by apply Booking_findByIdAndDelete_run).
  erewrite bind_ok by apply commitTransaction_run.
  unfold ret. rewrite endSession_run.
  unfold Spec.afterCalls, Spec.deletionCalls, setTransaction, setCommitted.
  cbn [committed transaction openSessions faults calls nextId pred].
  by rewrite <- !List.app_assoc.
Qed.

(** One deletion on a string the cast refuses. *)
Lemma deleteBooking_cast_run (id : IdArg) (w : World) :
  faults w = [] →
  isValidId id = false →
  BookingUtils.deleteBookingWithTransaction id w
  = (Throw (castError (idText id) "Booking"),
     setTransaction None
       (Spec.afterCalls [StartSession; StartTransaction;
                         AbortTransaction; EndSession] w)).
Proof.
  intros Hf Hid. destruct w as [st tx n f cs nid]. simpl in Hf. subst f.
  unfold BookingUtils.deleteBookingWithTransaction.
  erewrite bind_ok by apply startSession_run.
  erewrite bind_ok by apply startTransaction_run.
  unfold tryCatchFinally, tryCatch. unfold bind at 1.
  rewrite Booking_findByIdAndDelete_cast by done.
  unfold BookingUtils.abortAndRethrow, castError.
  erewrite bind_ok by apply abortTransaction_run.
  unfold throw. rewrite endSession_run.
  unfold Spec.afterCalls, setTransaction. cbn [committed transaction openSessions
    faults calls nextId pred].
  by rewrite <- !List.app_assoc.
Qed.

(** C7, as stated, fails on a string that is not the text of an ObjectId:
    no stored Booking has the id ["b2"], and the call throws: the query
    refuses to cast the string. *)
Lemma deleteBooking_malformed_id :
  (∀ id b, bookings (committed (Spec.worldOf Spec.storedBooking)) !! id = Some b →
           toHexString id ≠ "b2")
  ∧ (BookingUtils.deleteBookingWithTransaction (IdString "b2")
       (Spec.worldOf Spec.storedBooking)).1
    = Throw (castError "b2" "Booking").
Proof.
  split; [|by vm_compute].
  intros id b Hl.
  change (bookings (committed (Spec.worldOf Spec.storedBooking)))
    with ({[ mkObjectId "65f0c0ffee0000000000b001"
             := mkBooking (mkObjectId "65f0c0ffee0000000000e001")
                          "ada@example.org" ]} : gmap ObjectId BookingDoc) in Hl.
  apply lookup_singleton_Some in Hl as [<- _]. discriminate.
Qed.

(** C7, amended. With the server answering, and for an id the cast accepts
    (an ObjectId, or the text of one: 24 hexadecimal digits in either letter
    case): when the id names no Booking, [deleteBookingWithTransaction] does
    not throw, commits all the same and returns [false], the documents
    unchanged; when it names a Booking it returns [true] and that Booking,
    and no other document, is gone; and in calls repeated with the same id,
    every call after the first returns [false].  On any other string the
    call throws the [CastError] of the query after aborting the transaction,
    the documents unchanged. *)
Theorem deleteBooking_idempotent :
  (∀ id w,
     faults w = [] → isValidId id = true →
     bookings (committed w) !! objectIdOf id = None →
     BookingUtils.deleteBookingWithTransaction id w
     = (Ok false, setTransaction None (Spec.afterCalls (Spec.deletionCalls id) w)))
  ∧ (∀ id w b,
       faults w = [] → isValidId id = true →
       bookings (committed w) !! objectIdOf id = Some b →
       (BookingUtils.deleteBookingWithTransaction id w).1 = Ok true
       ∧ bookings (committed (BookingUtils.deleteBookingWithTransaction id w).2)
         = delete (objectIdOf id) (bookings (committed w))
       ∧ events (committed (BookingUtils.deleteBookingWithTransaction id w).2)
         = events (committed w))
  ∧ (∀ id w n,
       faults w = [] → isValidId id = true →
       (Spec.deleteTimes (S n) id w).1
       = Ok (bool_decide (is_Some (bookings (committed w) !! objectIdOf id)))
         :: replicate n (Ok false))
  ∧ (∀ id w,
       faults w = [] → isValidId id = false →
       ∃ message,
         BookingUtils.deleteBookingWithTransaction id w
         = (Throw (JsError "CastError" message),
            setTransaction None
              (Spec.afterCalls [StartSession; StartTransaction;
                                AbortTransaction; EndSession] w))).
Proof.
  split_and!.
  - intros id w Hf Hid Hnone. rewrite deleteBooking_run by done.
    rewrite Hnone, delete_id, store_eta by done.
    rewrite bool_decide_eq_false_2 by (by intros [? ?]).
    by destruct w.
  - intros id w b Hf Hid Hsome. rewrite deleteBooking_run by done.
    rewrite Hsome. by rewrite bool_decide_eq_true_2 by eauto.
  - intros id w n Hf Hid. revert w Hf. induction n as [|n IH]; intros w Hf.
    + cbn [Spec.deleteTimes]. by rewrite deleteBooking_run by done.
    + change (Spec.deleteTimes (S (S n)) id w)
        with (let (r, w1) := BookingUtils.deleteBookingWithTransaction id w in
              let (rs, w2) := Spec.deleteTimes (S n) id w1 in (r :: rs, w2)).
      rewrite deleteBooking_run by done.
      match goal with |- context [Spec.deleteTimes (S n) id ?w1] =>
        specialize (IH w1 Hf); destruct (Spec.deleteTimes (S n) id w1) as [rs w2]
      end.
      cbn [fst] in *. rewrite IH.
      cbn [committed setTransaction setCommitted bookings].
      rewrite lookup_delete_eq.
      by rewrite (bool_decide_eq_false_2 (is_Some None)) by (by intros [? ?]).
  - intros id w Hf Hid. eexists. by apply deleteBooking_cast_run.
Qed.

Lemma deleteBooking_idempotent_witness :
  (Spec.deleteTimes 3 (IdString "65F0C0FFEE0000000000B001")
     (Spec.worldOf Spec.storedBooking)).1
  = [Ok true; Ok false; Ok false]
  ∧ (Spec.deleteTimes 3 (IdString "65f0c0ffee0000000000b002")
       (Spec.worldOf Spec.storedBooking)).1
    = [Ok false; Ok false; Ok false].
Proof.
  destruct deleteBooking_idempotent as (_ & _ & H & _). split.
  - rewrite (H (IdString "65F0C0FFEE0000000000B001")
               (Spec.worldOf Spec.storedBooking) 2%nat eq_refl)
      by (by vm_compute).
    vm_compute. reflexivity.
  - rewrite (H (IdString "65f0c0ffee0000000000b002")
               (Spec.worldOf Spec.storedBooking) 2%nat eq_refl)
      by (by vm_compute).
    vm_compute. reflexivity.
Defined.

(* ===================================================================== *)
(** * The cached connection *)
(* ===================================================================== *)

Lemma connectDB_cached (outcome : nat → Connection.Settled)
    (p : Connection.Process) (h : Connection.Handle) :
  Connection.conn (Connection.cached p) = Some h →
  Connection.connectDB outcome p = (Ok h, p).
Proof. unfold Connection.connectDB. by intros ->. Qed.

(** A call with an empty cache: one new attempt, awaited. *)
Lemma connectDB_fresh (outcome : nat → Connection.Settled) (k : nat) :
  Connection.connectDB outcome (Connection.mkProcess (Connection.mkCache None None) k)
  = match outcome k with
    | Connection.Fulfilled h =>
        (Ok h, Connection.mkProcess (Connection.mkCache (Some h) (Some k)) (S k))
    | Connection.Rejected e =>
        (Throw e, Connection.mkProcess (Connection.mkCache None None) (S k))
    end.
Proof. unfold Connection.connectDB. simpl. by destruct (outcome k). Qed.

(** A call that fails awaited an attempt that was rejected, and leaves an
    empty cache. *)
Lemma connectDB_failed (outcome : nat → Connection.Settled)
    (p : Connection.Process) (e : Thrown) :
  (Connection.connectDB outcome p).1 = Throw e →
  (∃ attempt, outcome attempt = Connection.Rejected e)
  ∧ ∃ k, (Connection.connectDB outcome p).2
         = Connection.mkProcess (Connection.mkCache None None) k.
Proof.
  destruct p as [[c pr] k]. unfold Connection.connectDB. simpl.
  destruct c as [h|]; [done|].
  destruct pr as [a|]; simpl.
  - destruct (outcome a) eqn:Ho; [done|]. simpl. intros [= ->]. eauto.
  - destruct (outcome k) eqn:Ho; [done|]. simpl. intros [= ->]. eauto.
Qed.

(** C8. When a call of [connectDB] fails, the failure is the rejection of
    the attempt it awaited, the cache it leaves holds neither a connection
    nor an attempt, and the next call starts a new attempt (one more call of
    [mongoose.connect]) and awaits that one.  When a connection is cached,
    every later call returns that same connection, starts no attempt and
    leaves the process as it is; and a call that succeeds leaves its
    connection cached. *)
Theorem connectDB_retry_and_reuse (outcome : nat → Connection.Settled) :
  (∀ p e,
     (Connection.connectDB outcome p).1 = Throw e →
     Connection.cached (Connection.connectDB outcome p).2
     = Connection.mkCache None None
     ∧ (∃ attempt, outcome attempt = Connection.Rejected e)
     ∧ Connection.connects
         (Connection.connectDB outcome (Connection.connectDB outcome p).2).2
       = S (Connection.connects (Connection.connectDB outcome p).2)
     ∧ (Connection.connectDB outcome (Connection.connectDB outcome p).2).1
       = match outcome (Connection.connects (Connection.connectDB outcome p).2) with
         | Connection.Fulfilled h => Ok h
         | Connection.Rejected e' => Throw e'
         end)
  ∧ (∀ p h n,
       Connection.conn (Connection.cached p) = Some h →
       Connection.connectTimes outcome n p = (replicate n (Ok h), p))
  ∧ (∀ p h,
       (Connection.connectDB outcome p).1 = Ok h →
       Connection.conn (Connection.cached (Connection.connectDB outcome p).2)
       = Some h).
Proof.
  split; [|split].
  - intros p e Hfail.
    destruct (connectDB_failed outcome p e Hfail) as [Hrej [k Hk]].
    rewrite Hk, connectDB_fresh. simpl.
    split_and!; [done|done| |]; by destruct (outcome k).
  - intros p h n Hc. induction n as [|n IH]; [done|].
    cbn [Connection.connectTimes]. by rewrite (connectDB_cached _ _ _ Hc), IH.
  - intros [[c pr] k] h. unfold Connection.connectDB. simpl.
    destruct c as [h'|]; [by intros [= ->]|].
    destruct pr as [a|]; simpl.
    + destruct (outcome a); [by intros [= ->]|done].
    + destruct (outcome k); [by intros [= ->]|done].
Qed.

Lemma connectDB_retry_and_reuse_witness :
  Connection.connectTimes Spec.refusesOnce 4 Spec.freshProcess
  = ([Throw (Error "connect ECONNREFUSED"); Ok 7%nat; Ok 7%nat; Ok 7%nat],
     Connection.mkProcess (Connection.mkCache (Some 7%nat) (Some 1%nat)) 2)
  ∧ Connection.cached (Connection.connectDB Spec.refusesOnce Spec.freshProcess).2
    = Connection.mkCache None None.
Proof.
  destruct (connectDB_retry_and_reuse Spec.refusesOnce) as (Hfail & Hreuse & _).
  split.
  - change (Connection.connectTimes Spec.refusesOnce 4 Spec.freshProcess)
      with (let (rs, p) :=
              Connection.connectTimes Spec.refusesOnce 2
                (Connection.mkProcess (Connection.mkCache (Some 7%nat) (Some 1%nat)) 2) in
            (Throw (Error "connect ECONNREFUSED") :: Ok 7%nat :: rs, p)).
    by rewrite (Hreuse (Connection.mkProcess
                          (Connection.mkCache (Some 7%nat) (Some 1%nat)) 2)
                       7%nat 2%nat eq_refl).
  - by destruct (Hfail Spec.freshProcess (Error "connect ECONNREFUSED") eq_refl).
Defined.

(* ===================================================================== *)
(** * [normalizeDate], relative to the host's [Date] *)
(* ===================================================================== *)

(** What the function does with the answers of the host: a string of the
    shape [YYYY-MM-DD] is returned as it is when the host takes it (with the
    suffix [T00:00:00Z]) for a date, any other string the host parses is
    rendered by the host, and a string the host rejects throws. *)
Lemma normalizeDate_control (host : Host) (s : string) :
  (EventModel.isoDateRegex_test s = true →
   EventModel.normalizeDate s
   = match Date_parse (s +:+ "T00:00:00Z") with
     | Some _ => Ok s
     | None => Throw (Error "Invalid date format")
     end)
  ∧ (EventModel.isoDateRegex_test s = false →
     EventModel.normalizeDate s
     = match Date_parse s with
       | Some t => Ok (EventModel.beforeT (Date_toISOString t))
       | None => Throw (Error "Invalid date format")
       end).
Proof.
  unfold EventModel.normalizeDate. split; intros ->; by case_match.
Qed.

Lemma isoDateRegex_examples :
  EventModel.isoDateRegex_test "2024-01-05" = true
  ∧ EventModel.isoDateRegex_test "2024-1-5" = false
  ∧ EventModel.isoDateRegex_test "not-a-date" = false.
Proof. by vm_compute. Qed.

(* ===================================================================== *)
(** * The form of slugs and of times *)
(* ===================================================================== *)

Lemma isHyphen_eq (c : ascii) : Slug.isHyphen c = true ↔ c = "-"%char.
Proof.
  unfold Slug.isHyphen. split.
  - intros H. apply code_inj. change (Js.code "-") with 45. lia.
  - by intros ->.
Qed.

Lemma noDoubleHyphen_spec (s : string) :
  Props.noDoubleHyphen s = true → ∀ a b, s ≠ a +:+ "--" +:+ b.
Proof.
  intros H a. revert s H. induction a as [|c a IH]; intros s H b E; subst s.
  - simpl in H. discriminate.
  - rewrite string_app_cons in H.
    destruct (a +:+ "--" +:+ b) as [|d r] eqn:Er.
    + destruct a; discriminate.
    + change (negb (Slug.isHyphen c && Slug.isHyphen d)
              && Props.noDoubleHyphen (String d r) = true) in H.
      apply andb_prop in H as [_ H]. by apply (IH _ H b).
Qed.

(** After the runs of [X] are replaced, no character of [X] is left that is
    not a hyphen. *)
Lemma all_replaceRuns (p q X : ascii → bool) (b : bool) (s : string) :
  (∀ c, p c = true → X c = false → q c = true) → q "-"%char = true →
  Js.all p s = true → Js.all q (Slug.replaceRuns X b s) = true.
Proof.
  intros Hpq Hq. revert b. induction s as [|c s IH]; intros b; [done|].
  simpl. intros [Hc Hs]%andb_prop.
  destruct (X c) eqn:HX.
  - destruct b; simpl; rewrite ?Hq; simpl; auto.
  - simpl. rewrite (Hpq c Hc HX). simpl. auto.
Qed.

Lemma all_removeSpecial (s : string) :
  Js.all Slug.isSlugChar (Slug.removeSpecial s) = true.
Proof.
  induction s as [|c s IH]; [done|]. simpl.
  destruct (Slug.isSlugChar c) eqn:E; [|done]. simpl. by rewrite E.
Qed.

Lemma all_dropLeadingHyphen (p : ascii → bool) (s : string) :
  Js.all p s = true → Js.all p (Slug.dropLeadingHyphen s) = true.
Proof.
  destruct s as [|c s]; [done|]. simpl. intros [Hc Hs]%andb_prop.
  destruct (Slug.isHyphen c); [done|]. simpl. by rewrite Hc.
Qed.

Lemma all_dropTrailingHyphen (p : ascii → bool) (s : string) :
  Js.all p s = true → Js.all p (Slug.dropTrailingHyphen s) = true.
Proof.
  induction s as [|c s IH]; [done|]. intros [Hc Hs]%andb_prop.
  cbn [Slug.dropTrailingHyphen]. destruct s as [|d s].
  - destruct (Slug.isHyphen c); [done|]. simpl. by rewrite Hc.
  - cbn [Js.all]. rewrite Hc. by apply IH.
Qed.

Lemma generateSlug_letters (title : string) :
  Js.all Props.isSlugLetter (Slug.generateSlug title) = true.
Proof.
  unfold Slug.generateSlug, Slug.stripEdgeHyphens.
  apply all_dropTrailingHyphen, all_dropLeadingHyphen.
  apply (all_replaceRuns Props.isSlugLetter); [done|done|].
  apply (all_replaceRuns Slug.isSlugChar); [|done|apply all_removeSpecial].
  intros c Hc HX. unfold Slug.isSlugChar in Hc. unfold Props.isSlugLetter.
  rewrite HX in Hc. by rewrite orb_false_r in Hc.
Qed.

Lemma noDoubleHyphen_cons (c : ascii) (t : string) :
  Props.noDoubleHyphen (String c t)
  = match Props.first t with
    | Some d => negb (Slug.isHyphen c && Slug.isHyphen d)
    | None => true
    end && Props.noDoubleHyphen t.
Proof. by destruct t. Qed.

Lemma first_not_hyphen (s : string) :
  Props.first s ≠ Some "-"%char ↔
  match Props.first s with Some d => Slug.isHyphen d = false | None => True end.
Proof.
  destruct s as [|c s]; simpl; [done|]. split.
  - intros H. destruct (Slug.isHyphen c) eqn:E; [|done].
    apply isHyphen_eq in E. by subst.
  - intros H [= ->]. done.
Qed.

Lemma noDoubleHyphen_complete (s : string) :
  (∀ a b, s ≠ a +:+ "--" +:+ b) → Props.noDoubleHyphen s = true.
Proof.
  induction s as [|c s IH]; [done|]. intros H.
  rewrite noDoubleHyphen_cons. rewrite IH.
  - rewrite andb_true_r. destruct s as [|d s]; [done|]. simpl.
    destruct (Slug.isHyphen c) eqn:Ec; [|done].
    destruct (Slug.isHyphen d) eqn:Ed; [|done].
    apply isHyphen_eq in Ec, Ed. subst. by destruct (H "" s).
  - intros a b ->. by apply (H (String c a) b).
Qed.

Lemma replaceRuns_hyphen_shape (b : bool) (s : string) :
  Props.noDoubleHyphen (Slug.replaceRuns Slug.isHyphen b s) = true
  ∧ (b = true → Props.first (Slug.replaceRuns Slug.isHyphen b s) ≠ Some "-"%char).
Proof.
  revert b. induction s as [|c s IH]; intros b; [done|].
  cbn [Slug.replaceRuns]. destruct (Slug.isHyphen c) eqn:Ec.
  - destruct b.
    + apply IH.
    + split; [|done]. rewrite noDoubleHyphen_cons.
      destruct (IH true) as [-> Hfirst]. specialize (Hfirst eq_refl).
      apply first_not_hyphen in Hfirst.
      destruct (Props.first _); [|done]. by rewrite Hfirst.
  - split.
    + rewrite noDoubleHyphen_cons, Ec. destruct (IH false) as [-> _].
      by destruct (Props.first _).
    + intros _ [= ->]. done.
Qed.

Lemma noDoubleHyphen_tail (c : ascii) (s : string) :
  Props.noDoubleHyphen (String c s) = true → Props.noDoubleHyphen s = true.
Proof. rewrite noDoubleHyphen_cons. by intros [_ ?]%andb_prop. Qed.

Lemma dropTrailingHyphen_first (s : string) :
  Props.first s ≠ Some "-"%char →
  Props.first (Slug.dropTrailingHyphen s) ≠ Some "-"%char.
Proof.
  destruct s as [|c [|d s]]; [done| |done].
  simpl. destruct (Slug.isHyphen c); done.
Qed.

Lemma dropTrailingHyphen_first_eq (s t : string) (e : ascii) :
  Slug.dropTrailingHyphen s = String e t → Props.first s = Some e.
Proof.
  destruct s as [|c [|d s]]; simpl; [done| |by intros [= -> _]].
  destruct (Slug.isHyphen c); [done|by intros [= -> _]].
Qed.

Lemma dropTrailingHyphen_shape (s : string) :
  Props.noDoubleHyphen s = true →
  Props.noDoubleHyphen (Slug.dropTrailingHyphen s) = true
  ∧ BookingModel.last (Slug.dropTrailingHyphen s) ≠ Some "-"%char.
Proof.
  induction s as [|c s IH]; [done|]. intros H.
  destruct s as [|d s].
  - simpl. destruct (Slug.isHyphen c) eqn:Ec; [done|].
    split; [done|]. intros [= ->]. done.
  - change (Slug.dropTrailingHyphen (String c (String d s)))
      with (String c (Slug.dropTrailingHyphen (String d s))).
    destruct (IH (noDoubleHyphen_tail _ _ H)) as [Hn Hl].
    rewrite noDoubleHyphen_cons in H. apply andb_prop in H as [Hcd _].
    cbn [Props.first] in Hcd.
    destruct (Slug.dropTrailingHyphen (String d s)) as [|e t] eqn:Et.
    + split; [done|]. simpl. intros [= ->].
      destruct s as [|x s]; [|discriminate Et].
      simpl in Et. destruct (Slug.isHyphen d) eqn:Ed; [|done]. done.
    + split; [|done].
      rewrite noDoubleHyphen_cons, Hn, andb_true_r.
      apply dropTrailingHyphen_first_eq in Et. injection Et as <-. done.
Qed.

(** [generateSlug] yields a canonical slug. *)
Lemma generateSlug_canonical (title : string) :
  Props.canonical (Slug.generateSlug title).
Proof.
  split; [apply generateSlug_letters|].
  unfold Slug.generateSlug, Slug.stripEdgeHyphens.
  set (u := Slug.replaceRuns Slug.isHyphen false _).
  assert (Hu : Props.noDoubleHyphen u = true) by apply replaceRuns_hyphen_shape.
  assert (Hd : Props.noDoubleHyphen (Slug.dropLeadingHyphen u) = true
               ∧ Props.first (Slug.dropLeadingHyphen u) ≠ Some "-"%char).
  { destruct u as [|c u]; [done|]. simpl.
    destruct (Slug.isHyphen c) eqn:Ec.
    - split; [by apply noDoubleHyphen_tail in Hu|].
      rewrite noDoubleHyphen_cons, Ec in Hu. apply andb_prop in Hu as [Hu _].
      apply first_not_hyphen. destruct (Props.first u); [|done].
      simpl in Hu. by destruct (Slug.isHyphen a).
    - split; [done|]. simpl. intros [= ->]. done. }
  destruct Hd as [Hd Hf].
  destruct (dropTrailingHyphen_shape _ Hd) as [Hn Hl].
  split_and!; [by apply dropTrailingHyphen_first|done|by apply noDoubleHyphen_spec].
Qed.

Lemma map_fixed (p : ascii → bool) (f : ascii → ascii) (s : string) :
  (∀ c, p c = true → f c = c) → Js.all p s = true → Js.map f s = s.
Proof.
  intros Hf. induction s as [|c s IH]; [done|]. simpl.
  intros [Hc Hs]%andb_prop. by rewrite (Hf c Hc), IH.
Qed.

Lemma all_impl (p q : ascii → bool) (s : string) :
  (∀ c, p c = true → q c = true) → Js.all p s = true → Js.all q s = true.
Proof.
  intros Hpq. induction s as [|c s IH]; [done|]. simpl.
  intros [Hc Hs]%andb_prop. by rewrite (Hpq c Hc), IH.
Qed.

Lemma slugLetter_facts (c : ascii) :
  Props.isSlugLetter c = true →
  Js.lowerChar c = c ∧ Js.isWhiteSpace c = false ∧ Slug.isSlugChar c = true.
Proof.
  destruct c as [[] [] [] [] [] [] [] []]; vm_compute; intros; done.
Qed.

Lemma trimStart_fixed (s : string) :
  Js.all (λ c, negb (Js.isWhiteSpace c)) s = true → Js.trimStart s = s.
Proof.
  destruct s as [|c s]; [done|]. simpl.
  intros [Hc _]%andb_prop. apply negb_true_iff in Hc. by rewrite Hc.
Qed.

Lemma trimEnd_fixed (s : string) :
  Js.all (λ c, negb (Js.isWhiteSpace c)) s = true → Js.trimEnd s = s.
Proof.
  induction s as [|c s IH]; [done|]. simpl.
  intros [Hc Hs]%andb_prop. apply negb_true_iff in Hc. rewrite (IH Hs), Hc.
  by destruct s.
Qed.

Lemma trim_fixed (s : string) :
  Js.all (λ c, negb (Js.isWhiteSpace c)) s = true → Js.trim s = s.
Proof.
  intros H. unfold Js.trim. by rewrite (trimStart_fixed s H), (trimEnd_fixed s H).
Qed.

Lemma removeSpecial_fixed (s : string) :
  Js.all Slug.isSlugChar s = true → Slug.removeSpecial s = s.
Proof.
  induction s as [|c s IH]; [done|]. simpl.
  intros [Hc Hs]%andb_prop. by rewrite Hc, IH.
Qed.

Lemma replaceRuns_none (X : ascii → bool) (b : bool) (s : string) :
  Js.all (λ c, negb (X c)) s = true → Slug.replaceRuns X b s = s.
Proof.
  revert b. induction s as [|c s IH]; intros b; [done|]. simpl.
  intros [Hc Hs]%andb_prop. apply negb_true_iff in Hc. by rewrite Hc, IH.
Qed.

Lemma replaceRuns_hyphen_fixed (b : bool) (s : string) :
  Props.noDoubleHyphen s = true →
  (b = true → Props.first s ≠ Some "-"%char) →
  Slug.replaceRuns Slug.isHyphen b s = s.
Proof.
  revert b. induction s as [|c s IH]; intros b Hn Hb; [done|].
  cbn [Slug.replaceRuns]. rewrite noDoubleHyphen_cons in Hn.
  apply andb_prop in Hn as [Hcd Hn].
  destruct (Slug.isHyphen c) eqn:Ec.
  - destruct b.
    + apply isHyphen_eq in Ec. subst. by destruct (Hb eq_refl).
    + f_equal; [symmetry; by apply isHyphen_eq|].
      apply IH; [done|]. intros _. apply first_not_hyphen.
      destruct (Props.first s); [|done]. simpl in Hcd.
      by destruct (Slug.isHyphen a).
  - f_equal. apply IH; [done|]. intros [=].
Qed.

Lemma dropTrailingHyphen_fixed (s : string) :
  BookingModel.last s ≠ Some "-"%char → Slug.dropTrailingHyphen s = s.
Proof.
  induction s as [|c s IH]; [done|]. destruct s as [|d s].
  - simpl. destruct (Slug.isHyphen c) eqn:Ec; [|done].
    apply isHyphen_eq in Ec. by subst.
  - intros H.
    change (Slug.dropTrailingHyphen (String c (String d s)))
      with (String c (Slug.dropTrailingHyphen (String d s))).
    f_equal. by apply IH.
Qed.

(** The canonical slugs are the fixed points of [generateSlug]. *)
Lemma generateSlug_fixed (s : string) :
  Props.canonical s → Slug.generateSlug s = s.
Proof.
  intros (Hl & Hf & Hlast & Hn%noDoubleHyphen_complete).
  assert (Hws : Js.all (λ c, negb (Js.isWhiteSpace c)) s = true).
  { apply (all_impl _ _ _ (λ c Hc, eq_trans
      (f_equal negb (proj1 (proj2 (slugLetter_facts c Hc)))) eq_refl) Hl). }
  unfold Slug.generateSlug, Js.toLowerCase.
  rewrite (map_fixed Props.isSlugLetter) by (done || apply slugLetter_facts).
  rewrite trim_fixed by done.
  rewrite removeSpecial_fixed
    by (apply (all_impl Props.isSlugLetter); [apply slugLetter_facts|done]).
  rewrite (replaceRuns_none Js.isWhiteSpace) by done.
  rewrite replaceRuns_hyphen_fixed by done.
  unfold Slug.stripEdgeHyphens.
  assert (Hd : Slug.dropLeadingHyphen s = s).
  { destruct s as [|c s]; [done|]. simpl.
    destruct (Slug.isHyphen c) eqn:Ec; [|done].
    apply isHyphen_eq in Ec. by subst. }
  rewrite Hd. by apply dropTrailingHyphen_fixed.
Qed.

Lemma all_app (p : ascii → bool) (s t : string) :
  Js.all p (s +:+ t) = Js.all p s && Js.all p t.
Proof.
  induction s as [|c s IH]; [done|]. rewrite string_app_cons. simpl.
  by rewrite IH, andb_assoc.
Qed.

Lemma pretty_digits (k : nat) :
  (k < 100)%nat → Js.all Js.isDigit (pretty (Z.of_nat k)) = true.
Proof.
  intros Hk. do 100 (destruct k as [|k]; [vm_compute; reflexivity|]). lia.
Qed.

Lemma candidate_letters (base : string) (k : nat) :
  Js.all Props.isSlugLetter base = true → (k < 100)%nat →
  Js.all Props.isSlugLetter (Spec.candidate base k) = true.
Proof.
  intros Hb Hk. destruct k as [|k]; [done|]. unfold Spec.candidate.
  rewrite !all_app, Hb. simpl.
  apply (all_impl Js.isDigit); [|by apply pretty_digits].
  intros c Hc. unfold Props.isSlugLetter. by rewrite Hc, orb_true_r.
Qed.

(** X1. The slug of every candidate is stored as generated: the setters
    [lowercase] and [trim] that the schema declares for [slug] leave [base],
    [base-1], ..., [base-99] as they are, for the canonical base of any
    title. *)
Theorem candidate_setters_neutral (title : string) (k : nat) :
  (k < 100)%nat →
  Js.toLowerCase (Spec.candidate (Slug.generateSlug title) k)
  = Spec.candidate (Slug.generateSlug title) k
  ∧ Js.trim (Spec.candidate (Slug.generateSlug title) k)
    = Spec.candidate (Slug.generateSlug title) k.
Proof.
  intros Hk.
  pose proof (candidate_letters _ k (generateSlug_letters title) Hk) as Hl.
  split.
  - apply (map_fixed Props.isSlugLetter); [apply slugLetter_facts|done].
  - apply trim_fixed. apply (all_impl Props.isSlugLetter); [|done].
    intros c Hc. by rewrite (proj1 (proj2 (slugLetter_facts c Hc))).
Qed.

Lemma candidate_setters_neutral_witness :
  Js.toLowerCase (Spec.candidate (Slug.generateSlug "Rust  Meetup!") 7) = "rust-meetup-7"
  ∧ Js.trim (Spec.candidate (Slug.generateSlug "Rust  Meetup!") 7) = "rust-meetup-7".
Proof.
  destruct (candidate_setters_neutral "Rust  Meetup!" 7) as [H1 H2]; [lia|].
  by rewrite H1, H2.
Defined.

(** X2. [generateSlug] puts every title in canonical form: what it returns
    has only [a-z], [0-9] and hyphens, no hyphen at the start or at the end
    and no two hyphens in a row; the canonical slugs are exactly the strings
    it leaves unchanged; so it is idempotent. *)
Theorem generateSlug_normal_form :
  (∀ title, Props.canonical (Slug.generateSlug title))
  ∧ (∀ s, Props.canonical s ↔ Slug.generateSlug s = s)
  ∧ (∀ title, Slug.generateSlug (Slug.generateSlug title) = Slug.generateSlug title).
Proof.
  split_and!.
  - apply generateSlug_canonical.
  - intros s. split; [apply generateSlug_fixed|].
    intros <-. apply generateSlug_canonical.
  - intros title. apply generateSlug_fixed, generateSlug_canonical.
Qed.

(* ------------------------------------------------------------------ *)
(** normalizeTime: the shape of what it returns *)

Lemma normalizeTime_Ok_inv (s r : string) :
  Clock.normalizeTime s = Ok r →
  ∃ h m p, Spec.TimePattern (Js.trim s) h m p
           ∧ Spec.hour24 p (Spec.decimal h) ≤ 23 ∧ Spec.decimal m ≤ 59
           ∧ r = Spec.twoDigits (Spec.hour24 p (Spec.decimal h)) +:+ ":" +:+ m.
Proof.
  intros Hr.
  destruct (Clock.matchTime (Js.trim s)) as [[[h m] p]|] eqn:E.
  - apply matchTime_spec in E. exists h, m, p. split; [done|].
    rewrite (normalizeTime_matched _ _ _ _ E) in Hr.
    destruct (23 <? _) eqn:E1; [done|].
    destruct (59 <? _) eqn:E2; [done|].
    injection Hr as <-. split_and!; [lia|lia|done].
  - unfold Clock.normalizeTime in Hr. by rewrite E in Hr.
Qed.

Lemma twoDigits_hours (H : Z) :
  0 ≤ H ≤ 23 →
  Js.all Js.isDigit (Spec.twoDigits H) = true
  ∧ Spec.decimal (Spec.twoDigits H) = H.
Proof.
  intros HH. rewrite <- (Z2Nat.id H) by lia.
  assert (Hn : (Z.to_nat H < 24)%nat) by lia.
  generalize dependent (Z.to_nat H). clear. intros n Hn.
  do 24 (destruct n as [|n]; [vm_compute; done|]). lia.
Qed.

Lemma digit_not_space (c : ascii) :
  Js.isDigit c = true → negb (Js.isWhiteSpace c) = true.
Proof. destruct c as [[] [] [] [] [] [] [] []]; vm_compute; done. Qed.

(** X3. A time [normalizeTime] returns reads [HH:MM], two digits each, with
    the hour at most 23 and the minutes at most 59. *)
Theorem normalizeTime_output_shape (s r : string) :
  Clock.normalizeTime s = Ok r →
  ∃ hh mm, r = hh +:+ ":" +:+ mm
           ∧ String.length hh = 2%nat ∧ String.length mm = 2%nat
           ∧ Js.all Js.isDigit hh = true ∧ Js.all Js.isDigit mm = true
           ∧ 0 ≤ Spec.decimal hh ≤ 23 ∧ 0 ≤ Spec.decimal mm ≤ 59.
Proof.
  intros (h & m & p & Hp & HH & HM & ->)%normalizeTime_Ok_inv.
  pose proof (hour24_nonneg p _ (decimal_nonneg h)) as H0.
  pose proof (decimal_nonneg m) as M0.
  destruct (twoDigits_hours (Spec.hour24 p (Spec.decimal h))) as [Hd Hv]; [lia|].
  exists (Spec.twoDigits (Spec.hour24 p (Spec.decimal h))), m.
  destruct Hp as [_ _ Hmd Hml _].
  split_and!; try done; lia.
Qed.

Lemma normalizeTime_output_shape_witness :
  ∃ hh mm, "09:05" = hh +:+ ":" +:+ mm
           ∧ String.length hh = 2%nat ∧ String.length mm = 2%nat
           ∧ Js.all Js.isDigit hh = true ∧ Js.all Js.isDigit mm = true
           ∧ 0 ≤ Spec.decimal hh ≤ 23 ∧ 0 ≤ Spec.decimal mm ≤ 59.
Proof.
  apply (normalizeTime_output_shape " 9:05 am"). vm_compute. reflexivity.
Defined.

(** X4. [normalizeTime] is idempotent: a time it returned is returned
    unchanged when it is normalized again. *)
Theorem normalizeTime_idempotent (s r : string) :
  Clock.normalizeTime s = Ok r → Clock.normalizeTime r = Ok r.
Proof.
  intros (h & m & p & Hp & HH & HM & ->)%normalizeTime_Ok_inv.
  pose proof (hour24_nonneg p _ (decimal_nonneg h)) as H0.
  set (H := Spec.hour24 p (Spec.decimal h)) in *.
  destruct (twoDigits_hours H) as [Hd Hv]; [lia|].
  destruct Hp as [_ _ Hmd Hml _].
  assert (Hpat : Spec.TimePattern (Js.trim (Spec.twoDigits H +:+ ":" +:+ m))
                   (Spec.twoDigits H) m None).
  { rewrite trim_fixed.
    - split; try done. by right.
    - rewrite !all_app.
      rewrite (all_impl _ _ _ digit_not_space Hd), (all_impl _ _ _ digit_not_space Hmd).
      done. }
  rewrite (normalizeTime_matched _ _ _ _ Hpat). simpl. rewrite Hv.
  replace (23 <? H) with false by lia. by replace (59 <? _) with false by lia.
Qed.

Lemma normalizeTime_idempotent_witness :
  Clock.normalizeTime "14:30" = Ok "14:30".
Proof.
  apply (normalizeTime_idempotent "2:30 PM"). vm_compute. reflexivity.
Defined.

(* ------------------------------------------------------------------ *)
(** generateUniqueSlug: every outcome *)

Lemma attemptLoop_outcome (n a : nat) (base : string) (ne : option ObjectId)
    (w : World) :
  (∃ k, (k < n)%nat
        ∧ (EventModel.attemptLoop n base ne (Spec.candidate base a) (Z.of_nat a + 1) w).1
          = Ok (Spec.candidate base (a + k)))
  ∨ (EventModel.attemptLoop n base ne (Spec.candidate base a) (Z.of_nat a + 1) w).1
    = Throw EventModel.exhausted
  ∨ ∃ e, (EventModel.attemptLoop n base ne (Spec.candidate base a) (Z.of_nat a + 1) w).1
         = Throw (EventModel.lookupFailed e).
Proof.
  revert a w. induction n as [|n IH]; intros a w.
  - right. by left.
  - cbn [EventModel.attemptLoop]. unfold bind, tryCatch.
    destruct (findOne_any (Spec.candidate base a) ne w) as (r & f & -> & _).
    destruct r as [[i|]|e].
    + rewrite candidate_next.
      replace (Z.of_nat a + 1 + 1) with (Z.of_nat (S a) + 1) by lia.
      destruct (IH (S a) (setFaults f (logCall (EventFindOne (Spec.candidate base a) ne) w)))
        as [(k & Hk & ->)|[->| [e ->]]].
      * left. exists (S k). split; [lia|].
        by replace (S a + k)%nat with (a + S k)%nat by lia.
      * right. by left.
      * right. right. by exists e.
    + left. exists 0%nat. split; [lia|]. by rewrite Nat.add_0_r.
    + right. right. by exists e.
Qed.

(** X5. Whatever the server answers, [generateUniqueSlug] ends in one of three
    ways: it returns the base slug or [base-k] with [k] from 1 to 99; it
    throws the exhaustion error; or it throws the error of a failed look-up,
    a plain [Error] whose message starts with "Failed to generate unique
    slug: ". *)
Theorem generateUniqueSlug_outcomes (title : string) (ne : option ObjectId)
    (w : World) :
  (∃ k, (k < 100)%nat
        ∧ (EventModel.generateUniqueSlug title ne w).1
          = Ok (Spec.candidate (Slug.generateSlug title) k))
  ∨ (EventModel.generateUniqueSlug title ne w).1
    = Throw (Error "Unable to generate unique slug after 100 attempts")
  ∨ ∃ reason, (EventModel.generateUniqueSlug title ne w).1
              = Throw (Error ("Failed to generate unique slug: " +:+ reason)).
Proof.
  unfold EventModel.generateUniqueSlug.
  destruct (attemptLoop_outcome EventModel.MAX_ATTEMPTS 0 (Slug.generateSlug title) ne w)
    as [(k & Hk & H)|[H|[e H]]].
  - left. by exists k.
  - right. by left.
  - right. right. destruct e as [name message|v].
    + by exists message.
    + by exists "Unknown error".
Qed.

Lemma findOne_answers (slug : string) (ne : option ObjectId) (st : Store)
    (tx : option Store) (n : nat) (f : list (option Thrown)) (cs : list DbCall)
    (nid : N) :
  Spec.Held st slug ne →
  ∃ i, EventModel.findOne slug ne (mkWorld st tx n (None :: f) cs nid)
       = (Ok (Some i), mkWorld st tx n f (cs ++ [EventFindOne slug ne]) nid).
Proof.
  intros [x Hx]%find_Held. exists x.1.
  unfold EventModel.findOne, roundTrip. simpl. by rewrite Hx.
Qed.

Lemma findOne_fails (slug : string) (ne : option ObjectId) (st : Store)
    (tx : option Store) (n : nat) (e : Thrown) (f : list (option Thrown))
    (cs : list DbCall) (nid : N) :
  EventModel.findOne slug ne (mkWorld st tx n (Some e :: f) cs nid)
  = (Throw e, mkWorld st tx n f (cs ++ [EventFindOne slug ne]) nid).
Proof. reflexivity. Qed.

Lemma attemptLoop_fault (k : nat) : ∀ (n a : nat) (base : string)
    (ne : option ObjectId) (st : Store) (tx : option Store) (m : nat)
    (e : Thrown) (rest : list (option Thrown)) (cs : list DbCall) (nid : N),
  (k < n)%nat →
  (∀ j, (j < k)%nat → Spec.Held st (Spec.candidate base (a + j)) ne) →
  EventModel.attemptLoop n base ne (Spec.candidate base a) (Z.of_nat a + 1)
    (mkWorld st tx m (replicate k None ++ Some e :: rest) cs nid)
  = (Throw (EventModel.lookupFailed e),
     mkWorld st tx m rest (cs ++ Spec.lookups base ne a (S k)) nid).
Proof.
  induction k as [|k IH]; intros n a base ne st tx m e rest cs nid Hk Hheld.
  - destruct n as [|n]; [lia|].
    cbn [EventModel.attemptLoop replicate app]. unfold bind, tryCatch.
    by rewrite findOne_fails.
  - destruct n as [|n]; [lia|].
    cbn [EventModel.attemptLoop replicate app]. unfold bind, tryCatch.
    destruct (findOne_answers (Spec.candidate base a) ne st tx m
                (replicate k None ++ Some e :: rest) cs nid) as [i Hi].
    { specialize (Hheld 0%nat). rewrite Nat.add_0_r in Hheld. apply Hheld. lia. }
    rewrite Hi, candidate_next.
    replace (Z.of_nat a + 1 + 1) with (Z.of_nat (S a) + 1) by lia.
    rewrite IH; [|lia|].
    + do 2 f_equal. rewrite <- List.app_assoc. done.
    + intros j Hj. specialize (Hheld (S j)).
      replace (S a + j)%nat with (a + S j)%nat by lia. apply Hheld. lia.
Qed.

(** X6. When the server answers [k] look-ups, each finding the candidate
    held, and fails on the next one, [generateUniqueSlug] stops there: it
    throws [Error] with the message "Failed to generate unique slug: "
    followed by the message of the failure ("Unknown error" when what was
    thrown is no [Error]), after [k + 1] look-ups and no other call. *)
Theorem generateUniqueSlug_lookup_failure (title : string)
    (ne : option ObjectId) (k : nat) (e : Thrown) (rest : list (option Thrown))
    (w : World) :
  (k < 100)%nat →
  faults w = replicate k None ++ Some e :: rest →
  (∀ j, (j < k)%nat →
        Spec.Held (committed w) (Spec.candidate (Slug.generateSlug title) j) ne) →
  EventModel.generateUniqueSlug title ne w
  = (Throw (Error ("Failed to generate unique slug: "
                   +:+ match e with
                       | JsError _ message => message
                       | NonError _ => "Unknown error"
                       end)),
     setFaults rest
       (Spec.afterCalls (Spec.lookups (Slug.generateSlug title) ne 0 (S k)) w)).
Proof.
  intros Hk Hf Hheld. destruct w as [st tx m f cs nid]. simpl in Hf, Hheld. subst f.
  unfold EventModel.generateUniqueSlug.
  rewrite (attemptLoop_fault k EventModel.MAX_ATTEMPTS 0); [|done|done].
  by destruct e.
Qed.

Lemma generateUniqueSlug_lookup_failure_witness :
  (EventModel.generateUniqueSlug "Meetup" None
     (setFaults [None; None; Some (Error "socket closed")]
        (Spec.worldOf (Spec.crowdedStore 5)))).1
  = Throw (Error "Failed to generate unique slug: socket closed").
Proof.
  rewrite (generateUniqueSlug_lookup_failure "Meetup" None 2
             (Error "socket closed") []).
  - reflexivity.
  - lia.
  - reflexivity.
  - intros j Hj. apply heldb_true. revert j Hj.
    apply (forallb_seq (λ j, Spec.heldb _ (Spec.candidate _ j) None)).
    vm_compute. reflexivity.
Defined.

(* ===================================================================== *)
(** * Saving an Event *)
(* ===================================================================== *)

Lemma generateUniqueSlug_pure (title : string) (ne : option ObjectId) (w : World) :
  committed (EventModel.generateUniqueSlug title ne w).2 = committed w
  ∧ ∃ cs, calls (EventModel.generateUniqueSlug title ne w).2 = calls w ++ cs
          ∧ Forall (Spec.isLookup ne) cs.
Proof.
  unfold EventModel.generateUniqueSlug.
  destruct (attemptLoop_trace EventModel.MAX_ATTEMPTS (Slug.generateSlug title) ne
              (Slug.generateSlug title) 1 w) as (cs & Hc & _ & Hall & Hst & _).
  split; [done|]. by exists cs.
Qed.

(** What the hook leaves of the world: the world of the slug look-ups when
    the title changed or the document is new, the same world otherwise. *)
Lemma preSave_world `{Host} (e : EventModel.Instance) (w : World) :
  (EventModel.preSave e w).2
  = if EventModel.modifiedTitle e || EventModel.isNew e
    then (EventModel.generateUniqueSlug (ev_title (EventModel.doc e))
            (Some (EventModel._id e)) w).2
    else w.
Proof.
  unfold EventModel.preSave, bind, EventModel.liftResult, ret, throw.
  destruct e as [id [title slug desc over img ven loc date time mode aud agenda
                       org tags] new mt md mtm].
  event_simpl.
  destruct (mt || new);
    [destruct (EventModel.generateUniqueSlug title (Some id) w) as [[slug1|x] w1]|];
    event_simpl; try done;
    (destruct md; [destruct (EventModel.normalizeDate date)|]; event_simpl; try done;
     (destruct mtm; [destruct (Clock.normalizeTime time)|]; event_simpl; done)).
Qed.

(** What the hook returns. *)
Lemma preSave_result `{Host} (e e' : EventModel.Instance) (w : World) :
  (EventModel.preSave e w).1 = Ok e' →
  EventModel._id e' = EventModel._id e
  ∧ EventModel.isNew e' = EventModel.isNew e
  ∧ ev_title (EventModel.doc e') = ev_title (EventModel.doc e)
  ∧ (if EventModel.modifiedTitle e || EventModel.isNew e
     then (EventModel.generateUniqueSlug (ev_title (EventModel.doc e))
             (Some (EventModel._id e)) w).1 = Ok (ev_slug (EventModel.doc e'))
     else ev_slug (EventModel.doc e') = ev_slug (EventModel.doc e))
  ∧ (if EventModel.modifiedDate e
     then EventModel.normalizeDate (ev_date (EventModel.doc e))
          = Ok (ev_date (EventModel.doc e'))
     else ev_date (EventModel.doc e') = ev_date (EventModel.doc e))
  ∧ (if EventModel.modifiedTime e
     then Clock.normalizeTime (ev_time (EventModel.doc e))
          = Ok (ev_time (EventModel.doc e'))
     else ev_time (EventModel.doc e') = ev_time (EventModel.doc e)).
Proof.
  unfold EventModel.preSave, bind, EventModel.liftResult, ret, throw.
  destruct e as [id [title slug desc over img ven loc date time mode aud agenda
                       org tags] new mt md mtm].
  event_simpl.
  destruct (mt || new);
    [destruct (EventModel.generateUniqueSlug title (Some id) w) as [[slug1|x] w1]|];
    event_simpl; try done;
    (destruct md; [destruct (EventModel.normalizeDate date)|]; event_simpl; try done;
     (destruct mtm; [destruct (Clock.normalizeTime time)|]; event_simpl; try done;
      by intros [= <-])).
Qed.

(** The write in any world: it throws and changes no document, or it puts
    the document under its [_id], and then no other Event holds its slug. *)
Lemma write_cases (e : EventModel.Instance) (w : World) :
  (∃ x, (EventModel.write e w).1 = Throw x
        ∧ committed (EventModel.write e w).2 = committed w)
  ∨ ((EventModel.write e w).1
     = Ok (EventModel.mkInstance (EventModel._id e) (EventModel.doc e)
                                 false false false false)
     ∧ ¬ Spec.Held (committed w) (ev_slug (EventModel.doc e)) (Some (EventModel._id e))
     ∧ committed (EventModel.write e w).2
       = mkStore (<[EventModel._id e := EventModel.doc e]> (events (committed w)))
                 (bookings (committed w))).
Proof.
  destruct w as [st tx n f cs nid].
  assert (Hact : ∀ f',
    let w1 := mkWorld st tx n f'
                (cs ++ [if EventModel.isNew e then EventInsert (EventModel._id e)
                        else EventUpdate (EventModel._id e)]) nid in
    let r :=
      (if EventModel.isNew e && bool_decide (is_Some (events st !! EventModel._id e))
       then (Throw (EventModel.duplicateKey "_id_"), w1)
       else if negb (EventModel.isNew e)
               && bool_decide (events st !! EventModel._id e = None)
       then (Throw EventModel.documentNotFound, w1)
       else match List.find (EventModel.matchesQuery (ev_slug (EventModel.doc e))
                               (Some (EventModel._id e))) (map_to_list (events st)) with
            | Some _ => (Throw (EventModel.duplicateKey "slug_1"), w1)
            | None =>
                (Ok (EventModel.mkInstance (EventModel._id e) (EventModel.doc e)
                       false false false false),
                 setCommitted
                   (mkStore (<[EventModel._id e := EventModel.doc e]> (events st))
                            (bookings st)) w1)
            end) in
    (∃ x, r.1 = Throw x ∧ committed r.2 = st)
    ∨ (r.1 = Ok (EventModel.mkInstance (EventModel._id e) (EventModel.doc e)
                   false false false false)
       ∧ ¬ Spec.Held st (ev_slug (EventModel.doc e)) (Some (EventModel._id e))
       ∧ committed r.2
         = mkStore (<[EventModel._id e := EventModel.doc e]> (events st)) (bookings st))).
  { intros f' w1 r. subst r.
    destruct (_ && _); [left; eauto|].
    destruct (_ && _); [left; eauto|].
    destruct (List.find _ _) eqn:E; [left; eauto|].
    right. split_and!; [done| |done]. by apply find_None_not_Held. }
  unfold EventModel.write, roundTrip. cbn [faults logCall committed calls
    transaction openSessions nextId setFaults].
  destruct f as [|[x|] rest].
  - apply (Hact []).
  - left. by exists x.
  - apply (Hact rest).
Qed.

Lemma save_unfold `{Host} (e : EventModel.Instance) (w : World) :
  EventModel.save e w
  = match EventModel.validation (EventModel.doc e) with
    | [] =>
        match EventModel.preSave e w with
        | (Ok e', w') => EventModel.write e' w'
        | (Throw x, w') => (Throw x, w')
        end
    | failures => (Throw (EventModel.validationFailed failures), w)
    end.
Proof.
  unfold EventModel.save, EventModel.validate, bind.
  by destruct (EventModel.validation _).
Qed.

Lemma preSave_committed `{Host} (e : EventModel.Instance) (w : World) :
  committed (EventModel.preSave e w).2 = committed w.
Proof.
  rewrite preSave_world. destruct (_ || _); [|done].
  apply generateUniqueSlug_pure.
Qed.

(** What a save does to the documents, in any world: nothing, or it puts
    one document under the [_id] of the saved instance, whose slug no other
    Event holds. *)
Lemma save_cases `{Host} (e : EventModel.Instance) (w : World) :
  committed (EventModel.save e w).2 = committed w
  ∨ ∃ d, ¬ Spec.Held (committed w) (ev_slug d) (Some (EventModel._id e))
         ∧ committed (EventModel.save e w).2
           = mkStore (<[EventModel._id e := d]> (events (committed w)))
                     (bookings (committed w)).
Proof.
  rewrite save_unfold. destruct (EventModel.validation _); [|by left].
  pose proof (preSave_committed e w) as Hc.
  destruct (EventModel.preSave e w) as [[e'|x] w'] eqn:E; [|by left].
  assert (Hid : EventModel._id e' = EventModel._id e).
  { apply (preSave_result e e' w). by rewrite E. }
  cbn [snd] in Hc.
  destruct (write_cases e' w') as [(x & _ & Hs)|(_ & Hfree & Hs)].
  - left. by rewrite Hs.
  - right. exists (EventModel.doc e'). rewrite Hs, Hc, Hid in *. done.
Qed.

Lemma uniqueSlugs_insert (st : Store) (id : ObjectId) (d : EventDoc) :
  Props.uniqueSlugs st → ¬ Spec.Held st (ev_slug d) (Some id) →
  Props.uniqueSlugs (mkStore (<[id := d]> (events st)) (bookings st)).
Proof.
  intros Hu Hfree i j d1 d2. cbn [events].
  intros [[<- <-]|[Hi H1]]%lookup_insert_Some [[<- <-]|[Hj H2]]%lookup_insert_Some Hs;
    try done.
  - destruct Hfree. exists j, d2. split_and!; [done|done|]. by intros [= ->].
  - destruct Hfree. exists i, d1. split_and!; [done|done|]. by intros [= ->].
  - by apply (Hu i j d1 d2).
Qed.

(** X7. Saving an Event keeps the slugs unique: whatever the instance, the
    host and the answers of the server, if no two stored Events share a slug
    before [save], none do after it. *)
Theorem save_keeps_slugs_unique `{Host} (e : EventModel.Instance) (w : World) :
  Props.uniqueSlugs (committed w) →
  Props.uniqueSlugs (committed (EventModel.save e w).2).
Proof.
  intros Hu. destruct (save_cases e w) as [->|(d & Hfree & ->)]; [done|].
  by apply uniqueSlugs_insert.
Qed.

(** X8. Saving an Event touches no other document: the Bookings and every
    Event with another [_id] are after [save] what they were before, in any
    world. *)
Theorem save_frame `{Host} (e : EventModel.Instance) (w : World) :
  bookings (committed (EventModel.save e w).2) = bookings (committed w)
  ∧ ∀ j, j ≠ EventModel._id e →
         events (committed (EventModel.save e w).2) !! j
         = events (committed w) !! j.
Proof.
  destruct (save_cases e w) as [->|(d & _ & ->)]; [done|].
  split; [done|]. intros j Hj. cbn [events]. by rewrite lookup_insert_ne.
Qed.

Lemma uniqueSlugs_empty : Props.uniqueSlugs Spec.emptyStore.
Proof.
  intros i j d d' Hi.
  change (events Spec.emptyStore) with (∅ : gmap ObjectId EventDoc) in Hi.
  by rewrite lookup_empty in Hi.
Qed.

Lemma save_frame_witness :
  events (committed (@EventModel.save Spec.epochHost
                       (EventModel.newEvent (mkObjectId "2")
                          (Spec.event "Meetup" "" "2024-01-05" "2:30 PM"))
                       (Spec.worldOf Props.oneEvent)).2) !! mkObjectId "e1"
  = events (committed (Spec.worldOf Props.oneEvent)) !! mkObjectId "e1".
Proof.
  refine (proj2 (@save_frame Spec.epochHost
                   (EventModel.newEvent (mkObjectId "2")
                      (Spec.event "Meetup" "" "2024-01-05" "2:30 PM"))
                   (Spec.worldOf Props.oneEvent)) (mkObjectId "e1") _).
  discriminate.
Defined.

Lemma save_keeps_slugs_unique_witness :
  Props.uniqueSlugs (committed Spec.emptyWorld)
  ∧ Props.uniqueSlugs
      (committed (@EventModel.save Spec.epochHost
                    (EventModel.newEvent (mkObjectId "1")
                       (Spec.event "Meetup" "" "2024-01-05" "2:30 PM"))
                    Spec.emptyWorld).2).
Proof.
  split; [apply uniqueSlugs_empty|].
  apply (@save_keeps_slugs_unique Spec.epochHost). apply uniqueSlugs_empty.
Defined.

(** X9. The slug is recomputed only when the title changed: saving a stored
    Event whose title is not modified makes no look-up (the only call it can
    make is the update) and the instance it returns has the slug and the
    title it had, in any world. *)
Theorem save_keeps_slug_of_unchanged_title `{Host} (e : EventModel.Instance)
    (w : World) :
  EventModel.isNew e = false → EventModel.modifiedTitle e = false →
  (calls (EventModel.save e w).2 = calls w
   ∨ calls (EventModel.save e w).2 = calls w ++ [EventUpdate (EventModel._id e)])
  ∧ ∀ e', (EventModel.save e w).1 = Ok e' →
          ev_slug (EventModel.doc e') = ev_slug (EventModel.doc e)
          ∧ ev_title (EventModel.doc e') = ev_title (EventModel.doc e).
Proof.
  intros Hnew Hmt. rewrite save_unfold.
  destruct (EventModel.validation _); [|split; [by left|done]].
  pose proof (preSave_world e w) as Hw. rewrite Hnew, Hmt in Hw. cbn [orb] in Hw.
  destruct (EventModel.preSave e w) as [[e1|x] w1] eqn:E; cbn [snd] in Hw; subst w1.
  - destruct (preSave_result e e1 w) as (Hid & Hn & Ht & Hs & _); [by rewrite E|].
    rewrite Hnew, Hmt in Hs. cbn [orb] in Hs. split.
    + right. unfold EventModel.write, roundTrip. rewrite Hn, Hnew, Hid.
      cbn [faults logCall]. destruct (faults w) as [|[x|] rest]; cbn [snd calls setFaults];
        repeat (case_match; cbn [snd calls setCommitted setFaults]); done.
    + intros e'. destruct (write_cases e1 w) as [(x & -> & _)|(-> & _)]; [done|].
      intros [= <-]. cbn [EventModel.doc]. by rewrite Hs, Ht.
  - split; [by left|done].
Qed.

Lemma save_keeps_slug_of_unchanged_title_witness :
  calls (@EventModel.save Spec.epochHost
           (EventModel.mkInstance (mkObjectId "0")
              (Spec.event "Meetup" "meetup" "2024-01-05" "9:00 pm")
              false false false true)
           (Spec.worldOf (Spec.crowdedStore 1))).2 = []
  ∨ calls (@EventModel.save Spec.epochHost
             (EventModel.mkInstance (mkObjectId "0")
                (Spec.event "Meetup" "meetup" "2024-01-05" "9:00 pm")
                false false false true)
             (Spec.worldOf (Spec.crowdedStore 1))).2 = [EventUpdate (mkObjectId "0")].
Proof.
  apply (proj1 (@save_keeps_slug_of_unchanged_title Spec.epochHost
           (EventModel.mkInstance (mkObjectId "0")
              (Spec.event "Meetup" "meetup" "2024-01-05" "9:00 pm")
              false false false true)
           (Spec.worldOf (Spec.crowdedStore 1)) eq_refl eq_refl)).
Defined.

Lemma notEventWrite_lookup (ne : option ObjectId) (c : DbCall) :
  Spec.isLookup ne c → Props.notEventWrite c.
Proof. intros [slug ->] id. done. Qed.

(** X10. A date or a time that does not normalize blocks the save: when the
    modified date (or time) of the instance is rejected by [normalizeDate]
    (or [normalizeTime]), [save] throws, no document changes and no write is
    sent to the server, in any world. *)
Theorem save_rejects_invalid_date_or_time `{Host} (e : EventModel.Instance)
    (w : World) (x : Thrown) :
  (EventModel.modifiedDate e = true
   ∧ EventModel.normalizeDate (ev_date (EventModel.doc e)) = Throw x)
  ∨ (EventModel.modifiedTime e = true
     ∧ Clock.normalizeTime (ev_time (EventModel.doc e)) = Throw x) →
  (∃ x', (EventModel.save e w).1 = Throw x')
  ∧ committed (EventModel.save e w).2 = committed w
  ∧ Forall Props.notEventWrite
           (drop (length (calls w)) (calls (EventModel.save e w).2)).
Proof.
  intros Hbad. rewrite save_unfold.
  destruct (EventModel.validation _) as [|failure failures].
  2:{ cbn [fst snd]. split_and!; [by eexists|done|].
      rewrite drop_all. constructor. }
  pose proof (preSave_world e w) as Hw. pose proof (preSave_committed e w) as Hc.
  destruct (EventModel.preSave e w) as [[e1|x1] w1] eqn:E.
  - exfalso. destruct (preSave_result e e1 w) as (_ & _ & _ & _ & Hd & Ht);
      [by rewrite E|].
    destruct Hbad as [[Hm Hx]|[Hm Hx]]; rewrite Hm in *; congruence.
  - cbn [fst snd] in *. split_and!; [by exists x1|done|].
    rewrite Hw. destruct (_ || _).
    + destruct (generateUniqueSlug_pure (ev_title (EventModel.doc e))
                  (Some (EventModel._id e)) w) as (_ & cs & -> & Hall).
      rewrite drop_app_length.
      eapply Forall_impl; [exact Hall|]. apply notEventWrite_lookup.
    + rewrite drop_all. constructor.
Qed.

Lemma save_rejects_invalid_date_or_time_witness :
  (∃ x', (@EventModel.save Spec.epochHost
            (EventModel.newEvent (mkObjectId "1")
               (Spec.event "Meetup" "" "2024-01-05" "25:00"))
            Spec.emptyWorld).1 = Throw x')
  ∧ committed (@EventModel.save Spec.epochHost
                 (EventModel.newEvent (mkObjectId "1")
                    (Spec.event "Meetup" "" "2024-01-05" "25:00"))
                 Spec.emptyWorld).2 = Spec.emptyStore.
Proof.
  destruct (@save_rejects_invalid_date_or_time Spec.epochHost
              (EventModel.newEvent (mkObjectId "1")
                 (Spec.event "Meetup" "" "2024-01-05" "25:00"))
              Spec.emptyWorld Clock.invalidValues) as (H1 & H2 & _).
  - right. split; [reflexivity|]. vm_compute. reflexivity.
  - by split.
Defined.

Lemma omap_head_Some {A B} (f : A → option B) (x : A) (l : list A) (y : B) :
  f x = Some y → omap f (x :: l) ≠ [].
Proof. intros Hx. cbn [omap list_omap]. by rewrite Hx. Qed.

(** A title that is empty or longer than 100 characters fails the
    validation. *)
Lemma validation_title (d : EventDoc) :
  ev_title d = "" ∨ (100 < String.length (ev_title d))%nat →
  EventModel.validation d ≠ [].
Proof.
  intros Htitle. unfold EventModel.validation, EventModel.pathErrors.
  destruct Htitle as [Hempty|Hlong].
  - eapply (omap_head_Some _ _ _ ("title", "Title is required")).
    cbn [fst snd EventModel.firstError]. unfold EventModel.required.
    by rewrite Hempty.
  - eapply (omap_head_Some _ _ _ ("title", "Title cannot exceed 100 characters")).
    cbn [fst snd]. unfold EventModel.required, EventModel.maxlength, Js.eqb.
    rewrite (bool_decide_eq_false_2 (_ ≤ _)%nat) by lia.
    rewrite (bool_decide_eq_false_2 (ev_title d = "")).
    + done.
    + intros E. rewrite E in Hlong. cbn in Hlong. lia.
Qed.

(** X11. Creating an Event. A document that fails the validation of the
    schema (a title that is blank or longer than 100 characters once
    trimmed, say) is rejected by [save] with the [ValidationError], before
    any call is made. When the server answers and the document built by the
    setters passes the validation, with the first [k] candidates of the
    title held and the next one free, a date and a time that normalize and
    an [_id] not yet stored, [save] stores that document (the title trimmed)
    under its [_id] with that candidate as slug and with the normalized date
    and time, and returns it as a clean instance. *)
Theorem save_new_event `{Host} (id : ObjectId) (data : EventDoc) (d' t' : string)
    (k : nat) (w : World) :
  (Js.trim (ev_title data) = ""
   ∨ (100 < String.length (Js.trim (ev_title data)))%nat →
   EventModel.validation (EventModel.applySetters data) ≠ [])
  ∧ (EventModel.validation (EventModel.applySetters data) ≠ [] →
     ∃ message,
       EventModel.save (EventModel.newEvent id data) w
       = (Throw (JsError "ValidationError" message), w))
  ∧ (faults w = [] → events (committed w) !! id = None → (k < 100)%nat →
     EventModel.validation (EventModel.applySetters data) = [] →
     (∀ j, (j < k)%nat →
           Spec.Held (committed w)
             (Spec.candidate (Slug.generateSlug (ev_title data)) j) (Some id)) →
     ¬ Spec.Held (committed w)
         (Spec.candidate (Slug.generateSlug (ev_title data)) k) (Some id) →
     EventModel.normalizeDate (ev_date data) = Ok d' →
     Clock.normalizeTime (ev_time data) = Ok t' →
     let stored :=
       EventModel.setTime t'
         (EventModel.setDate d'
            (EventModel.setSlug
               (Spec.candidate (Slug.generateSlug (ev_title data)) k)
               (EventModel.applySetters data))) in
     ev_title stored = Js.trim (ev_title data)
     ∧ EventModel.save (EventModel.newEvent id data) w
       = (Ok (EventModel.mkInstance id stored false false false false),
          setCommitted
            (mkStore (<[id := stored]> (events (committed w)))
                     (bookings (committed w)))
            (Spec.afterCalls
               (Spec.lookups (Slug.generateSlug (ev_title data)) (Some id) 0 (S k)
                ++ [EventInsert id])
               w))).
Proof.
  split_and!.
  - intros Htitle. apply validation_title. by rewrite applySetters_title.
  - intros Hbad. rewrite save_unfold. unfold EventModel.newEvent.
    cbn [EventModel.doc]. destruct (EventModel.validation _); [done|].
    by eexists.
  - intros Hf Hnew Hk Hvalid Hheld Hfree Hd Ht stored. split; [done|].
    unfold EventModel.save, EventModel.validate, EventModel.newEvent.
    cbn [EventModel.doc]. rewrite Hvalid.
    unfold EventModel.preSave, bind. event_simpl. cbn [orb ret].
    rewrite applySetters_title, generateUniqueSlug_trim.
    rewrite (generateUniqueSlug_returns k) by done.
    unfold EventModel.liftResult, ret. event_simpl.
    rewrite !applySetters_date, Hd. event_simpl.
    rewrite !applySetters_time, Ht.
    unfold EventModel.withDoc. event_simpl.
    rewrite write_insert; try done.
    unfold Spec.afterCalls, setCommitted. cbn [committed transaction openSessions faults
      calls nextId]. by rewrite <- List.app_assoc.
Qed.

Lemma save_new_event_witness :
  (@EventModel.save Spec.epochHost
     (EventModel.newEvent (mkObjectId "2")
        (Spec.event "  Meetup " "" "2024-01-05" "2:30 PM"))
     (Spec.worldOf Props.oneEvent)).1
  = Ok (EventModel.mkInstance (mkObjectId "2")
          (Spec.event "Meetup" "meetup-1" "2024-01-05" "14:30")
          false false false false).
Proof.
  refine (f_equal fst
            (proj2 (proj2 (proj2 (@save_new_event Spec.epochHost (mkObjectId "2")
               (Spec.event "  Meetup " "" "2024-01-05" "2:30 PM")
               "2024-01-05" "14:30" 1 (Spec.worldOf Props.oneEvent)))
               eq_refl _ _ _ _ _ _ _))).
  - by vm_compute.
  - lia.
  - by vm_compute.
  - intros j Hj. assert (j = O) as -> by lia. apply heldb_true. by vm_compute.
  - apply heldb_false. by vm_compute.
  - by vm_compute.
  - by vm_compute.
Defined.

(* ===================================================================== *)
(** * The addresses the Booking schema accepts *)
(* ===================================================================== *)

Lemma cut_spec (sep : ascii) (s a b : string) :
  BookingModel.cut sep s = Some (a, b) →
  s = a +:+ String sep b
  ∧ Js.all (λ c, negb (Js.code c =? Js.code sep)) a = true.
Proof.
  revert a. induction s as [|c s IH]; intros a; [done|]. simpl.
  destruct (Js.code c =? Js.code sep) eqn:E.
  - intros [= <- <-]. split; [|done]. by rewrite (code_eqb_true _ _ E).
  - destruct (BookingModel.cut sep s) as [[a' b']|]; [|done].
    intros [= <- <-]. destruct (IH a' eq_refl) as [-> Ha].
    split; [done|]. simpl. by rewrite E, Ha.
Qed.

Lemma all_rev_app (p : ascii → bool) (s t : string) :
  Js.all p (String.rev_app s t) = Js.all p s && Js.all p t.
Proof.
  revert t. induction s as [|c s IH]; intros t; [done|]. simpl.
  rewrite IH. simpl. destruct (p c), (Js.all p s), (Js.all p t); done.
Qed.

Lemma all_rev (p : ascii → bool) (s : string) :
  Js.all p (String.rev s) = Js.all p s.
Proof. unfold String.rev. by rewrite all_rev_app, andb_true_r. Qed.

(** The characters of a string cut into pieces at [sep] are [sep] or the
    characters of the pieces. *)
Lemma splitOn_chars (p : ascii → bool) (sep : ascii) (cur s : string) :
  forallb (Js.all p) (BookingModel.splitOn sep cur s) = true →
  Js.all p cur = true
  ∧ Js.all (λ c, p c || (Js.code c =? Js.code sep)) s = true.
Proof.
  revert cur. induction s as [|c s IH]; intros cur; simpl.
  - rewrite andb_true_r, all_rev. done.
  - destruct (Js.code c =? Js.code sep) eqn:E.
    + simpl. rewrite all_rev. intros [Hc Hs]%andb_prop.
      destruct (IH _ Hs) as [_ ->]. by rewrite orb_true_r.
    + intros H. destruct (IH _ H) as [Hc ->]. simpl in Hc.
      apply andb_prop in Hc as [-> ->]. done.
Qed.

Lemma isLabel_chars (l : string) :
  BookingModel.isLabel l = true →
  Js.all (λ x, BookingModel.isAlnum x || Slug.isHyphen x) l = true.
Proof.
  unfold BookingModel.isLabel. destruct l as [|c l]; [done|].
  destruct (BookingModel.last _); [|done].
  intros H. repeat (apply andb_prop in H as [H ?]). done.
Qed.

Lemma forallb_impl {A} (f g : A → bool) (l : list A) :
  (∀ x, f x = true → g x = true) → forallb f l = true → forallb g l = true.
Proof.
  intros Hfg. induction l as [|x l IH]; [done|]. simpl.
  intros [Hx Hl]%andb_prop. by rewrite (Hfg x Hx), IH.
Qed.

Lemma email_char_facts (c : ascii) :
  (BookingModel.isLocalChar c = true →
   Js.isWhiteSpace c = false ∧ (Js.code c =? 64) = false
   ∧ BookingModel.isLocalChar (Js.lowerChar c) = true)
  ∧ ((BookingModel.isAlnum c || Slug.isHyphen c) || (Js.code c =? 46) = true →
     Js.isWhiteSpace c = false ∧ (Js.code c =? 64) = false)
  ∧ BookingModel.isAlnum (Js.lowerChar c) = BookingModel.isAlnum c
  ∧ Slug.isHyphen (Js.lowerChar c) = Slug.isHyphen c
  ∧ (Js.code (Js.lowerChar c) =? 64) = (Js.code c =? 64)
  ∧ (Js.code (Js.lowerChar c) =? 46) = (Js.code c =? 46)
  ∧ Js.isWhiteSpace (Js.lowerChar c) = Js.isWhiteSpace c
  ∧ Js.lowerChar (Js.lowerChar c) = Js.lowerChar c.
Proof.
  destruct c as [[] [] [] [] [] [] [] []]; vm_compute; split_and!; intros; done.
Qed.

(** The two parts of an accepted address. *)
Lemma emailRegex_parts (email : string) :
  BookingModel.emailRegex_test email = true →
  ∃ l d, email = l +:+ "@" +:+ d ∧ l ≠ ""
         ∧ Js.all BookingModel.isLocalChar l = true
         ∧ forallb BookingModel.isLabel (BookingModel.splitOn "." "" d) = true.
Proof.
  unfold BookingModel.emailRegex_test.
  destruct (BookingModel.cut "@" email) as [[l d]|] eqn:E; [|done].
  destruct l as [|c l]; [done|].
  intros [Hl Hd]%andb_prop. apply cut_spec in E as [-> _].
  exists (String c l), d. done.
Qed.

Lemma occurrences_app (c : ascii) (s t : string) :
  Props.occurrences c (s +:+ t)
  = (Props.occurrences c s + Props.occurrences c t)%nat.
Proof.
  induction s as [|d s IH]; [done|]. rewrite string_app_cons. simpl.
  rewrite IH. lia.
Qed.

Lemma occurrences_none (c : ascii) (s : string) :
  Js.all (λ d, negb (Js.code d =? Js.code c)) s = true → Props.occurrences c s = 0%nat.
Proof.
  induction s as [|d s IH]; [done|]. simpl.
  intros [Hd Hs]%andb_prop. apply negb_true_iff in Hd. rewrite Hd, IH; done.
Qed.

Lemma domain_chars (d : string) :
  forallb BookingModel.isLabel (BookingModel.splitOn "." "" d) = true →
  Js.all (λ c, (BookingModel.isAlnum c || Slug.isHyphen c) || (Js.code c =? 46)) d
  = true.
Proof.
  intros H.
  apply (splitOn_chars (λ x, BookingModel.isAlnum x || Slug.isHyphen x) "." "" d).
  eapply forallb_impl; [|exact H]. apply isLabel_chars.
Qed.

Lemma accepted_no_space (email : string) :
  BookingModel.emailRegex_test email = true →
  Js.all (λ c, negb (Js.isWhiteSpace c)) email = true.
Proof.
  intros (l & d & -> & Hl & Hlc & Hd)%emailRegex_parts.
  pose proof (domain_chars d Hd) as Hdc.
  assert (H1 : Js.all (λ c, negb (Js.isWhiteSpace c)) l = true).
  { eapply all_impl; [|exact Hlc]. intros c Hc.
    destruct (email_char_facts c) as (H & _). destruct (H Hc) as (E & _).
    by rewrite E. }
  assert (H2 : Js.all (λ c, negb (Js.isWhiteSpace c)) d = true).
  { eapply all_impl; [|exact Hdc]. intros c Hc.
    destruct (email_char_facts c) as (_ & H & _). destruct (H Hc) as [E _].
    by rewrite E. }
  by rewrite !all_app, H1, H2.
Qed.

(** X12. An address the schema accepts has exactly one [@], with something
    before it and something after it, and no white space anywhere. *)
Theorem accepted_email_shape (email : string) :
  BookingModel.emailRegex_test email = true →
  Props.occurrences "@" email = 1%nat
  ∧ Js.all (λ c, negb (Js.isWhiteSpace c)) email = true
  ∧ ∃ l d, email = l +:+ "@" +:+ d ∧ l ≠ "" ∧ d ≠ "".
Proof.
  intros Hok. pose proof (accepted_no_space email Hok) as Hws.
  apply emailRegex_parts in Hok as (l & d & -> & Hl & Hlc & Hd).
  pose proof (domain_chars d Hd) as Hdc.
  split_and!; [|done|].
  - rewrite !occurrences_app. simpl.
    rewrite (occurrences_none "@" l), (occurrences_none "@" d); [done| |].
    + eapply all_impl; [|exact Hdc]. intros c Hc.
      destruct (email_char_facts c) as (_ & H & _). destruct (H Hc) as [_ E].
      change (Js.code "@") with 64. by rewrite E.
    + eapply all_impl; [|exact Hlc]. intros c Hc.
      destruct (email_char_facts c) as (H & _). destruct (H Hc) as (_ & E & _).
      change (Js.code "@") with 64. by rewrite E.
  - exists l, d. split_and!; [done|done|]. intros ->. done.
Qed.

Lemma accepted_email_shape_witness :
  Props.occurrences "@" "ada.lovelace@example.org" = 1%nat
  ∧ Js.all (λ c, negb (Js.isWhiteSpace c)) "ada.lovelace@example.org" = true
  ∧ ∃ l d, "ada.lovelace@example.org" = l +:+ "@" +:+ d ∧ l ≠ "" ∧ d ≠ "".
Proof.
  apply accepted_email_shape. vm_compute. reflexivity.
Defined.

(* ------------------------------------------------------------------ *)
(** Lower-casing and trimming *)

Lemma all_map_eq (p : ascii → bool) (f : ascii → ascii) (s : string) :
  Js.all p (Js.map f s) = Js.all (λ c, p (f c)) s.
Proof. induction s as [|c s IH]; [done|]. simpl. by rewrite IH. Qed.

Lemma all_ext (p q : ascii → bool) (s : string) :
  (∀ c, p c = q c) → Js.all p s = Js.all q s.
Proof. intros E. induction s as [|c s IH]; [done|]. simpl. by rewrite E, IH. Qed.

Lemma string_length_map (f : ascii → ascii) (s : string) :
  String.length (Js.map f s) = String.length s.
Proof. induction s as [|c s IH]; simpl; congruence. Qed.

Lemma last_map (f : ascii → ascii) (s : string) :
  BookingModel.last (Js.map f s) = f <$> BookingModel.last s.
Proof.
  induction s as [|c s IH]; [done|]. destruct s as [|d s]; [done|].
  change (BookingModel.last (Js.map f (String c (String d s))))
    with (BookingModel.last (Js.map f (String d s))).
  by rewrite IH.
Qed.

Lemma string_rev_app_map (f : ascii → ascii) (s t : string) :
  String.rev_app (Js.map f s) (Js.map f t) = Js.map f (String.rev_app s t).
Proof.
  revert t. induction s as [|c s IH]; intros t; [done|]. simpl.
  by rewrite <- IH.
Qed.

Lemma string_rev_map (f : ascii → ascii) (s : string) :
  String.rev (Js.map f s) = Js.map f (String.rev s).
Proof. apply (string_rev_app_map f s ""). Qed.

Lemma cut_map (f : ascii → ascii) (sep : ascii) (s : string) :
  (∀ c, (Js.code (f c) =? Js.code sep) = (Js.code c =? Js.code sep)) →
  BookingModel.cut sep (Js.map f s)
  = (λ ab, (Js.map f ab.1, Js.map f ab.2)) <$> BookingModel.cut sep s.
Proof.
  intros Hf. induction s as [|c s IH]; [done|]. simpl.
  rewrite Hf, IH. destruct (Js.code c =? Js.code sep); [done|].
  by destruct (BookingModel.cut sep s) as [[a b]|].
Qed.

Lemma splitOn_map (f : ascii → ascii) (sep : ascii) (cur s : string) :
  (∀ c, (Js.code (f c) =? Js.code sep) = (Js.code c =? Js.code sep)) →
  BookingModel.splitOn sep (Js.map f cur) (Js.map f s)
  = Js.map f <$> BookingModel.splitOn sep cur s.
Proof.
  intros Hf. revert cur. induction s as [|c s IH]; intros cur; simpl.
  - by rewrite string_rev_map.
  - rewrite Hf. destruct (Js.code c =? Js.code sep).
    + rewrite string_rev_map, fmap_cons. f_equal. apply (IH "").
    + apply (IH (String c cur)).
Qed.

Lemma isLabel_alt (l : string) :
  BookingModel.isLabel l
  = from_option BookingModel.isAlnum false (Props.first l)
    && from_option BookingModel.isAlnum false (BookingModel.last l)
    && Js.all (λ x, BookingModel.isAlnum x || Slug.isHyphen x) l
    && bool_decide (String.length l ≤ 63)%nat.
Proof.
  destruct l as [|c l]; [done|]. unfold BookingModel.isLabel.
  destruct (BookingModel.last (String c l)); [done|].
  cbn [Props.first from_option]. by rewrite andb_false_r.
Qed.

Lemma first_map (f : ascii → ascii) (s : string) :
  Props.first (Js.map f s) = f <$> Props.first s.
Proof. by destruct s. Qed.

Lemma isLabel_lower (l : string) :
  BookingModel.isLabel (Js.map Js.lowerChar l) = BookingModel.isLabel l.
Proof.
  rewrite !isLabel_alt, first_map, last_map, string_length_map, all_map_eq.
  rewrite (all_ext _ (λ x, BookingModel.isAlnum x || Slug.isHyphen x)).
  2: { intros c. destruct (email_char_facts c) as (_ & _ & -> & -> & _). done. }
  do 3 f_equal.
  - destruct (Props.first l) as [c|]; [|done]. simpl.
    by destruct (email_char_facts c) as (_ & _ & -> & _).
  - destruct (BookingModel.last l) as [c|]; [|done]. simpl.
    by destruct (email_char_facts c) as (_ & _ & -> & _).
Qed.

(** Lower-casing keeps an accepted address accepted. *)
Lemma emailRegex_toLowerCase (email : string) :
  BookingModel.emailRegex_test email = true →
  BookingModel.emailRegex_test (Js.toLowerCase email) = true.
Proof.
  unfold BookingModel.emailRegex_test, Js.toLowerCase.
  rewrite (cut_map Js.lowerChar "@").
  2: { intros c. apply (email_char_facts c). }
  destruct (BookingModel.cut "@" email) as [[l d]|]; [|done].
  cbn [fmap option_fmap option_map fst snd].
  destruct l as [|c l]; [done|].
  intros [Hl Hd]%andb_prop.
  change (Js.all BookingModel.isLocalChar (Js.map Js.lowerChar (String c l))
          && forallb BookingModel.isLabel
               (BookingModel.splitOn "." "" (Js.map Js.lowerChar d)) = true).
  rewrite all_map_eq.
  rewrite (all_impl BookingModel.isLocalChar _ _ (λ x Hx,
             proj2 (proj2 (proj1 (email_char_facts x) Hx))) Hl).
  change "" with (Js.map Js.lowerChar "").
  rewrite (splitOn_map Js.lowerChar ".").
  2: { intros x. apply (email_char_facts x). }
  rewrite forallb_forall in Hd. apply forallb_forall.
  intros x [y [<- Hy]]%in_map_iff. rewrite isLabel_lower. by apply Hd.
Qed.

Lemma toLowerCase_idempotent (s : string) :
  Js.toLowerCase (Js.toLowerCase s) = Js.toLowerCase s.
Proof.
  unfold Js.toLowerCase. induction s as [|c s IH]; [done|]. simpl.
  rewrite IH. f_equal. apply (email_char_facts c).
Qed.

(** X13. Normalizing never loses an accepted address: an address the schema
    accepts is still accepted once trimmed and lower-cased, and trimming
    leaves it as it is. *)
Theorem normalizeEmail_keeps_accepted (email : string) :
  BookingModel.emailRegex_test email = true →
  BookingModel.emailRegex_test (Props.normalizeEmail email) = true
  ∧ Props.normalizeEmail email = Js.toLowerCase email.
Proof.
  intros H. pose proof (accepted_no_space email H) as Hws.
  unfold Props.normalizeEmail. rewrite (trim_fixed email Hws).
  split; [by apply emailRegex_toLowerCase|done].
Qed.

Lemma normalizeEmail_keeps_accepted_witness :
  BookingModel.emailRegex_test (Props.normalizeEmail "Ada.Lovelace@Example.ORG") = true
  ∧ Props.normalizeEmail "Ada.Lovelace@Example.ORG" = "ada.lovelace@example.org".
Proof.
  destruct (normalizeEmail_keeps_accepted "Ada.Lovelace@Example.ORG") as [H1 H2].
  - vm_compute. reflexivity.
  - split; [done|]. by rewrite H2.
Defined.

(* ===================================================================== *)
(** * The Booking hook *)
(* ===================================================================== *)

(** X14. The pre-save hook of a Booking, in any world: it changes no document
    and no transaction; every error it raises is named [ValidationError]; a
    look-up the server fails is reported as "Invalid event ID format or
    database error", whatever was thrown; and a Booking that is not new and
    whose [eventId] is not modified passes without any call. *)
Theorem booking_hook_outcomes (b : BookingModel.Instance) (w : World) :
  committed (BookingModel.preSave b w).2 = committed w
  ∧ transaction (BookingModel.preSave b w).2 = transaction w
  ∧ ((BookingModel.preSave b w).1 = Ok ()
     ∨ ∃ message, (BookingModel.preSave b w).1
                  = Throw (JsError "ValidationError" message))
  ∧ (∀ e rest, faults w = Some e :: rest →
       BookingModel.modifiedEventId b || BookingModel.isNew b = true →
       (BookingModel.preSave b w).1
       = Throw (JsError "ValidationError" "Invalid event ID format or database error"))
  ∧ (BookingModel.modifiedEventId b || BookingModel.isNew b = false →
     BookingModel.preSave b w = (Ok (), w)).
Proof.
  unfold BookingModel.preSave.
  destruct (BookingModel.modifiedEventId b || BookingModel.isNew b).
  2: { split_and!; try done. by left. }
  destruct w as [st tx n f cs nid].
  unfold bind, tryCatch, EventModel.findById, roundTrip, throw, ret,
    BookingModel.validationError.
  cbn [faults logCall committed transaction calls openSessions nextId setFaults
       visible castObjectId].
  destruct f as [|[e|] rest]; cbn [fst snd committed transaction].
  - destruct (events st !! _); split_and!; try done; [by left|right; eauto].
  - split_and!; try done. right; eauto.
  - destruct (events st !! _); split_and!; try done; [by left|right; eauto].
Qed.

(** X15. The hook looks the Event up among the committed documents, outside
    any session: with the server answering, a new Booking passes exactly
    when its Event is committed, whatever the open transaction holds;
    otherwise the hook raises the [ValidationError] "Event with ID ... does
    not exist". *)
Theorem booking_hook_reads_committed (b : BookingModel.Instance) (w : World) :
  faults w = [] →
  BookingModel.modifiedEventId b || BookingModel.isNew b = true →
  (BookingModel.preSave b w).1
  = match events (committed w) !! bk_eventId (BookingModel.doc b) with
    | Some _ => Ok ()
    | None =>
        Throw (JsError "ValidationError"
                 ("Event with ID " +:+ toHexString (bk_eventId (BookingModel.doc b))
                  +:+ " does not exist"))
    end.
Proof.
  intros Hf Hm. unfold BookingModel.preSave. rewrite Hm.
  destruct w as [st tx n f cs nid]. simpl in Hf. subst f.
  unfold bind, tryCatch, EventModel.findById, roundTrip, throw, ret,
    BookingModel.validationError.
  cbn [faults logCall committed transaction calls openSessions nextId setFaults
       visible castObjectId].
  by destruct (events st !! _).
Qed.

Lemma booking_hook_reads_committed_witness :
  (BookingModel.preSave
     (BookingModel.mkInstance (mkObjectId "b9")
        (mkBooking (mkObjectId "e1") "ada@example.org") true true true)
     (setTransaction
        (Some (mkStore {[ mkObjectId "e1"
                          := Spec.event "Meetup" "meetup" "2024-01-05" "14:30" ]} ∅))
        Spec.emptyWorld)).1
  = Throw (JsError "ValidationError" "Event with ID e1 does not exist").
Proof.
  rewrite booking_hook_reads_committed; [|reflexivity|reflexivity].
  vm_compute. reflexivity.
Defined.

Lemma booking_hook_outcomes_witness :
  (BookingModel.preSave
     (BookingModel.mkInstance (mkObjectId "b1")
        (mkBooking (mkObjectId "e1") "ada@example.org") true true true)
     (mkWorld Props.oneEvent None 0 [Some (NonError "socket closed")] [] 0)).1
  = Throw (JsError "ValidationError" "Invalid event ID format or database error").
Proof.
  destruct (booking_hook_outcomes
              (BookingModel.mkInstance (mkObjectId "b1")
                 (mkBooking (mkObjectId "e1") "ada@example.org") true true true)
              (mkWorld Props.oneEvent None 0 [Some (NonError "socket closed")] [] 0))
    as (_ & _ & _ & H & _).
  exact (H (NonError "socket closed") [] eq_refl eq_refl).
Defined.

(* ===================================================================== *)
(** * The transactional operations, step by step *)
(* ===================================================================== *)

Lemma normalizeEmail_twice (email : string) :
  Js.toLowerCase (Js.trim (Js.toLowerCase (Js.trim email)))
  = Props.normalizeEmail email.
Proof.
  unfold Props.normalizeEmail.
  by rewrite (trim_toLowerCase (Js.trim email)), trim_idempotent,
    toLowerCase_idempotent.
Qed.

Section MoreSteps.

Variables (st : Store) (tx : option Store) (n : nat) (cs : list DbCall) (nid : N).

Lemma newObjectId_run (f : list (option Thrown)) :
  newObjectId (mkWorld st tx n f cs nid)
  = (Ok (mkObjectId (Js.padStart 24 "0" (pretty nid))),
     mkWorld st tx n f cs (N.succ nid)).
Proof. reflexivity. Qed.

(** The look-up of the hook, by the ObjectId of the document and outside
    the session. *)
Lemma Event_findById_committed_run (oid : ObjectId) :
  EventModel.findById (IdObject oid) false (mkWorld st tx n [] cs nid)
  = (Ok (match events st !! oid with
         | Some _ => Some oid
         | None => None
         end),
     mkWorld st tx n [] (cs ++ [EventFindById oid]) nid).
Proof. reflexivity. Qed.

Lemma Booking_findById_run (id : IdArg) (t : Store) :
  isValidId id = true →
  BookingModel.findById id (mkWorld st (Some t) n [] cs nid)
  = (Ok ((λ d, BookingModel.mkInstance (objectIdOf id) d false false false)
           <$> bookings t !! objectIdOf id),
     mkWorld st (Some t) n [] (cs ++ [BookingFindById (objectIdOf id)]) nid).
Proof.
  intros Hid. unfold BookingModel.findById. by rewrite castObjectId_valid.
Qed.

(** The write of a Booking inside the transaction. *)
Lemma Booking_write_run (b : BookingModel.Instance) (t : Store) :
  BookingModel.write b (mkWorld st (Some t) n [] cs nid)
  = let c := if BookingModel.isNew b then BookingInsert (BookingModel._id b)
             else BookingUpdate (BookingModel._id b) in
    if BookingModel.isNew b
       && bool_decide (is_Some (bookings t !! BookingModel._id b))
    then (Throw (EventModel.duplicateKey "_id_"),
          mkWorld st (Some t) n [] (cs ++ [c]) nid)
    else if negb (BookingModel.isNew b)
            && bool_decide (bookings t !! BookingModel._id b = None)
    then (Throw EventModel.documentNotFound,
          mkWorld st (Some t) n [] (cs ++ [c]) nid)
    else match List.find (BookingModel.sameKey (BookingModel.doc b) (BookingModel._id b))
                         (map_to_list (bookings t)) with
         | Some _ => (Throw (EventModel.duplicateKey "uniq_event_email"),
                      mkWorld st (Some t) n [] (cs ++ [c]) nid)
         | None =>
             (Ok (BookingModel.mkInstance (BookingModel._id b) (BookingModel.doc b)
                    false false false),
              mkWorld st
                (Some (mkStore (events t)
                         (<[BookingModel._id b := BookingModel.doc b]> (bookings t))))
                n [] (cs ++ [c]) nid)
         end.
Proof.
  unfold BookingModel.write, roundTrip.
  cbn [faults logCall committed transaction calls openSessions nextId visible
       from_option id].
  destruct (_ && _); [done|]. destruct (_ && _); [done|].
  by destruct (List.find _ _).
Qed.

End MoreSteps.

(** The unique index [uniq_event_email] finds a document exactly when some
    other Booking has the same Event and address. *)
Lemma sameKey_find_None (b : BookingDoc) (id : ObjectId) (t : Store) :
  List.find (BookingModel.sameKey b id) (map_to_list (bookings t)) = None ↔
  ∀ j b', bookings t !! j = Some b' → j ≠ id →
          bk_eventId b' = bk_eventId b → bk_email b' ≠ bk_email b.
Proof.
  split.
  - intros Hnone j b' Hl Hj He Hm.
    assert (Hin : In (j, b') (map_to_list (bookings t))).
    { by apply list_elem_of_In, elem_of_map_to_list. }
    pose proof (List.find_none _ _ Hnone _ Hin) as Hf.
    unfold BookingModel.sameKey in Hf. cbn [fst snd] in Hf.
    by rewrite !bool_decide_eq_true_2 in Hf.
  - intros Hno. destruct (List.find _ _) as [[j b']|] eqn:E; [|done].
    apply List.find_some in E as [Hin Hm].
    apply list_elem_of_In, elem_of_map_to_list in Hin.
    unfold BookingModel.sameKey in Hm. cbn [fst snd] in Hm.
    apply andb_prop in Hm as [Hm H3]. apply andb_prop in Hm as [H1 H2].
    apply bool_decide_eq_true in H1, H2, H3.
    by destruct (Hno j b' Hin H3 H1).
Qed.

Section CreateRun.

Variables (st : Store) (tx : option Store) (n : nat) (cs : list DbCall) (nid : N).
Variables (eventId : IdArg) (email : string).

(** Every path of [createBookingWithTransaction] in a world whose server
    answers every call, for an id the cast accepts. *)
Lemma createBooking_run :
  isValidId eventId = true →
  let eid := objectIdOf eventId in
  let em := Props.normalizeEmail email in
  let newId := mkObjectId (Js.padStart 24 "0" (pretty nid)) in
  let opened := cs ++ [StartSession] ++ [StartTransaction] ++ [EventFindById eid] in
  BookingUtils.createBookingWithTransaction eventId email
    (mkWorld st tx n [] cs nid)
  = match events st !! eid with
    | None =>
        (Throw (BookingUtils.eventMissing eventId),
         mkWorld st None n [] (opened ++ [AbortTransaction; EndSession]) nid)
    | Some _ =>
        if Js.eqb em "" then
          (Throw (BookingModel.validationError
                    "Booking validation failed: email: Email is required"),
           mkWorld st None n [] (opened ++ [AbortTransaction; EndSession])
                   (N.succ nid))
        else if negb (BookingModel.emailRegex_test em) then
          (Throw (BookingModel.validationError
                    "Booking validation failed: email: Please provide a valid email address"),
           mkWorld st None n [] (opened ++ [AbortTransaction; EndSession])
                   (N.succ nid))
        else if bool_decide (is_Some (bookings st !! newId)) then
          (Throw (EventModel.duplicateKey "_id_"),
           mkWorld st None n []
             (opened ++ [EventFindById eid; BookingInsert newId;
                         AbortTransaction; EndSession]) (N.succ nid))
        else
          match List.find (BookingModel.sameKey (mkBooking eid em) newId)
                          (map_to_list (bookings st)) with
          | Some _ =>
              (Throw (EventModel.duplicateKey "uniq_event_email"),
               mkWorld st None n []
                 (opened ++ [EventFindById eid; BookingInsert newId;
                             AbortTransaction; EndSession]) (N.succ nid))
          | None =>
              (Ok (BookingModel.mkInstance newId (mkBooking eid em) false false false),
               mkWorld (mkStore (events st) (<[newId := mkBooking eid em]> (bookings st)))
                 None n []
                 (opened ++ [EventFindById eid; BookingInsert newId;
                             CommitTransaction; EndSession]) (N.succ nid))
          end
    end.
Proof.
  intros Hvalid eid em newId opened.
  unfold BookingUtils.createBookingWithTransaction.
  erewrite bind_ok by apply startSession_run.
  erewrite bind_ok by apply startTransaction_run.
  unfold tryCatchFinally, tryCatch.
  erewrite bind_ok by (by apply Event_findById_run).
  rewrite toObjectId_valid by done.
  fold eid.
  destruct (events st !! eid) as [ev|] eqn:Hev.
  2:{ unfold throw, BookingUtils.abortAndRethrow.
      erewrite bind_ok by apply abortTransaction_run.
      unfold BookingUtils.eventMissing, Error, throw.
      rewrite endSession_run. subst opened. by rewrite <- !List.app_assoc. }
  unfold EventModel.liftResult. unfold bind at 1. unfold ret at 1.
  unfold BookingModel.create. rewrite normalizeEmail_twice. fold em.
  unfold bind at 1 2. rewrite newObjectId_run. fold newId.
  unfold BookingModel.save, BookingModel.validate.
  cbn [BookingModel.doc bk_email].
  destruct (Js.eqb em "") eqn:Hempty.
  { unfold bind at 1. unfold throw at 1.
    unfold BookingUtils.abortAndRethrow, BookingModel.validationError.
    erewrite bind_ok by apply abortTransaction_run.
    unfold throw. rewrite endSession_run. subst opened.
    by rewrite <- !List.app_assoc. }
  destruct (BookingModel.emailRegex_test em) eqn:Hre; cbn [negb].
  2:{ unfold bind at 1. unfold throw at 1.
      unfold BookingUtils.abortAndRethrow, BookingModel.validationError.
      erewrite bind_ok by apply abortTransaction_run.
      unfold throw. rewrite endSession_run. subst opened.
      by rewrite <- !List.app_assoc. }
  unfold bind at 1. unfold ret at 1.
  unfold BookingModel.preSave.
  cbn [BookingModel.modifiedEventId BookingModel.isNew orb BookingModel.doc
       bk_eventId].
  unfold bind at 1 2. unfold tryCatch.
  rewrite Event_findById_committed_run.
  rewrite Hev. unfold ret at 1.
  rewrite Booking_write_run.
  cbn [BookingModel.isNew BookingModel._id BookingModel.doc andb negb].
  destruct (bool_decide (is_Some (bookings st !! newId))) eqn:Hid.
  { unfold BookingUtils.abortAndRethrow, EventModel.duplicateKey.
    erewrite bind_ok by apply abortTransaction_run.
    unfold throw. rewrite endSession_run. subst opened.
    by rewrite <- !List.app_assoc. }
  destruct (List.find _ _) eqn:Hfind.
  { unfold BookingUtils.abortAndRethrow, EventModel.duplicateKey.
    erewrite bind_ok by apply abortTransaction_run.
    unfold throw. rewrite endSession_run. subst opened.
    by rewrite <- !List.app_assoc. }
  erewrite bind_ok by apply commitTransaction_run.
  unfold ret. rewrite endSession_run. subst opened.
  by rewrite <- !List.app_assoc.
Qed.

End CreateRun.

Section UpdateRun.

Variables (st : Store) (tx : option Store) (n : nat) (cs : list DbCall) (nid : N).
Variables (bookingId : IdArg) (newEmail : string).

(** Every path of [updateBookingWithTransaction] in a world whose server
    answers every call, for an id the cast accepts. *)
Lemma updateBooking_run :
  isValidId bookingId = true →
  let bid := objectIdOf bookingId in
  let em := Props.normalizeEmail newEmail in
  let opened := cs ++ [StartSession] ++ [StartTransaction] ++ [BookingFindById bid] in
  BookingUtils.updateBookingWithTransaction bookingId newEmail
    (mkWorld st tx n [] cs nid)
  = match bookings st !! bid with
    | None =>
        (Throw (BookingUtils.bookingMissing bookingId),
         mkWorld st None n [] (opened ++ [AbortTransaction; EndSession]) nid)
    | Some old =>
        if Js.eqb em "" then
          (Throw (BookingModel.validationError
                    "Booking validation failed: email: Email is required"),
           mkWorld st None n [] (opened ++ [AbortTransaction; EndSession]) nid)
        else if negb (BookingModel.emailRegex_test em) then
          (Throw (BookingModel.validationError
                    "Booking validation failed: email: Please provide a valid email address"),
           mkWorld st None n [] (opened ++ [AbortTransaction; EndSession]) nid)
        else
          match List.find (BookingModel.sameKey (mkBooking (bk_eventId old) em) bid)
                          (map_to_list (bookings st)) with
          | Some _ =>
              (Throw (EventModel.duplicateKey "uniq_event_email"),
               mkWorld st None n []
                 (opened ++ [BookingUpdate bid; AbortTransaction; EndSession]) nid)
          | None =>
              (Ok (BookingModel.mkInstance bid (mkBooking (bk_eventId old) em)
                     false false false),
               mkWorld (mkStore (events st)
                          (<[bid := mkBooking (bk_eventId old) em]> (bookings st)))
                 None n []
                 (opened ++ [BookingUpdate bid; CommitTransaction; EndSession]) nid)
          end
    end.
Proof.
  intros Hvalid bid em opened.
  unfold BookingUtils.updateBookingWithTransaction.
  erewrite bind_ok by apply startSession_run.
  erewrite bind_ok by apply startTransaction_run.
  unfold tryCatchFinally, tryCatch.
  erewrite bind_ok by (by apply Booking_findById_run).
  fold bid.
  destruct (bookings st !! bid) as [old|] eqn:Hold; cbn [fmap option_fmap option_map].
  2:{ unfold throw, BookingUtils.abortAndRethrow.
      erewrite bind_ok by apply abortTransaction_run.
      unfold BookingUtils.bookingMissing, Error, throw.
      rewrite endSession_run. subst opened. by rewrite <- !List.app_assoc. }
  unfold BookingModel.setEmail. rewrite normalizeEmail_twice. fold em.
  cbn [BookingModel._id BookingModel.doc BookingModel.isNew
       BookingModel.modifiedEventId bk_eventId].
  unfold BookingModel.save, BookingModel.validate.
  cbn [BookingModel.doc bk_email].
  destruct (Js.eqb em "") eqn:Hempty.
  { unfold bind at 1 2. unfold throw at 1.
    unfold BookingUtils.abortAndRethrow, BookingModel.validationError.
    erewrite bind_ok by apply abortTransaction_run.
    unfold throw. rewrite endSession_run. subst opened.
    by rewrite <- !List.app_assoc. }
  destruct (BookingModel.emailRegex_test em) eqn:Hre; cbn [negb].
  2:{ unfold bind at 1 2. unfold throw at 1.
      unfold BookingUtils.abortAndRethrow, BookingModel.validationError.
      erewrite bind_ok by apply abortTransaction_run.
      unfold throw. rewrite endSession_run. subst opened.
      by rewrite <- !List.app_assoc. }
  unfold bind at 1 2. unfold ret at 1.
  unfold BookingModel.preSave.
  cbn [BookingModel.modifiedEventId BookingModel.isNew orb].
  unfold bind at 1. unfold ret at 1.
  rewrite Booking_write_run.
  cbn [BookingModel.isNew BookingModel._id BookingModel.doc andb negb].
  rewrite Hold. rewrite bool_decide_eq_false_2 by done.
  destruct (List.find _ _) eqn:Hfind.
  { unfold BookingUtils.abortAndRethrow, EventModel.duplicateKey.
    erewrite bind_ok by apply abortTransaction_run.
    unfold throw. rewrite endSession_run. subst opened.
    by rewrite <- !List.app_assoc. }
  erewrite bind_ok by apply commitTransaction_run.
  unfold ret. rewrite endSession_run. subst opened.
  by rewrite <- !List.app_assoc.
Qed.

End UpdateRun.

(** [updateBookingWithTransaction] on a string the cast refuses: the
    look-up throws before it reaches the server. *)
Lemma updateBooking_cast_run (bookingId : IdArg) (newEmail : string) (w : World) :
  faults w = [] →
  isValidId bookingId = false →
  BookingUtils.updateBookingWithTransaction bookingId newEmail w
  = (Throw (castError (idText bookingId) "Booking"),
     setTransaction None
       (Spec.afterCalls [StartSession; StartTransaction;
                         AbortTransaction; EndSession] w)).
Proof.
  intros Hf Hid. destruct w as [st tx n f cs nid]. simpl in Hf. subst f.
  unfold BookingUtils.updateBookingWithTransaction.
  erewrite bind_ok by apply startSession_run.
  erewrite bind_ok by apply startTransaction_run.
  unfold tryCatchFinally, tryCatch. unfold bind at 1.
  rewrite Booking_findById_cast by done.
  unfold BookingUtils.abortAndRethrow, castError.
  erewrite bind_ok by apply abortTransaction_run.
  unfold throw. rewrite endSession_run.
  unfold Spec.afterCalls, setTransaction. cbn [committed transaction openSessions
    faults calls nextId pred].
  by rewrite <- !List.app_assoc.
Qed.

(* ===================================================================== *)
(** * createBookingWithTransaction and updateBookingWithTransaction *)
(* ===================================================================== *)

Lemma emailRegex_nonempty (s : string) :
  BookingModel.emailRegex_test s = true → Js.eqb s "" = false.
Proof.
  intros H. destruct (Js.eqb s "") eqn:E; [|done].
  apply eqb_true in E. by subst s.
Qed.

Lemma noBookingFor_find (st : Store) (eid id : ObjectId) (em : string) :
  Props.noBookingFor st eid em →
  List.find (BookingModel.sameKey (mkBooking eid em) id) (map_to_list (bookings st))
  = None.
Proof.
  intros Hno. apply sameKey_find_None. intros j b' Hl _ He.
  by apply (Hno j b').
Qed.

(** X16. With the server answering, an id the cast accepts (an ObjectId,
    or its text in either letter case) that names an Event, an address the
    validator accepts once normalised and no Booking yet for the pair:
    [createBookingWithTransaction] returns the new Booking, which holds the
    normalised address; the committed documents gain exactly that Booking;
    the transaction is closed and the session ended; and the Event is
    looked up twice, once by the function and once by the hook. *)
Theorem createBooking_success (eventId : IdArg) (email : string) (w : World)
    (ev : EventDoc) :
  faults w = [] →
  isValidId eventId = true →
  events (committed w) !! objectIdOf eventId = Some ev →
  BookingModel.emailRegex_test (Props.normalizeEmail email) = true →
  bookings (committed w) !! Props.nextObjectId w = None →
  Props.noBookingFor (committed w) (objectIdOf eventId) (Props.normalizeEmail email) →
  let r := BookingUtils.createBookingWithTransaction eventId email w in
  let b := mkBooking (objectIdOf eventId) (Props.normalizeEmail email) in
  r.1 = Ok (BookingModel.mkInstance (Props.nextObjectId w) b false false false)
  ∧ committed r.2
    = mkStore (events (committed w))
              (<[Props.nextObjectId w := b]> (bookings (committed w)))
  ∧ transaction r.2 = None
  ∧ openSessions r.2 = openSessions w
  ∧ calls r.2
    = calls w ++ Props.creationCalls (objectIdOf eventId) (Props.nextObjectId w).
Proof.
  intros Hf Hvalid Hev Hre Hid Hno.
  destruct w as [st tx n f cs nid]. cbn [faults committed] in *. subst f.
  unfold Props.nextObjectId in *. cbn [nextId] in *.
  cbv zeta. rewrite createBooking_run by done.
  rewrite Hev, (emailRegex_nonempty _ Hre), Hre.
  cbn [negb]. rewrite bool_decide_eq_false_2 by (rewrite Hid; by intros [? ?]).
  rewrite (noBookingFor_find _ _ _ _ Hno).
  cbn [fst snd committed transaction openSessions calls].
  split_and!; try done.
  by rewrite <- !List.app_assoc.
Qed.

Lemma createBooking_success_witness :
  (BookingUtils.createBookingWithTransaction (IdString "65F0C0FFEE0000000000E001")
     "  Ada@Example.org " (Spec.worldOf Props.listedEvent)).1
  = Ok (BookingModel.mkInstance (mkObjectId "000000000000000000000000")
          (mkBooking (mkObjectId "65f0c0ffee0000000000e001") "ada@example.org")
          false false false).
Proof.
  refine (proj1 (createBooking_success (IdString "65F0C0FFEE0000000000E001")
                   "  Ada@Example.org " (Spec.worldOf Props.listedEvent)
                   (Spec.event "Meetup" "meetup" "2024-01-05" "14:30")
                   eq_refl _ _ _ _ _)).
  - by vm_compute.
  - by vm_compute.
  - by vm_compute.
  - by vm_compute.
  - intros j b Hb. by vm_compute in Hb.
Defined.

(** X17. With the server answering and an id the cast accepts that names an
    Event, an address that the validator refuses once normalised makes
    [createBookingWithTransaction] throw a [ValidationError] before any
    write is sent: the transaction is aborted, the session ended, the
    committed documents are as before and the Event was looked up once. *)
Theorem createBooking_rejects_address (eventId : IdArg) (email : string)
    (w : World) (ev : EventDoc) :
  faults w = [] →
  isValidId eventId = true →
  events (committed w) !! objectIdOf eventId = Some ev →
  BookingModel.emailRegex_test (Props.normalizeEmail email) = false →
  let r := BookingUtils.createBookingWithTransaction eventId email w in
  (∃ message, r.1 = Throw (JsError "ValidationError" message))
  ∧ committed r.2 = committed w
  ∧ transaction r.2 = None
  ∧ openSessions r.2 = openSessions w
  ∧ calls r.2
    = calls w ++ [StartSession; StartTransaction; EventFindById (objectIdOf eventId);
                  AbortTransaction; EndSession].
Proof.
  intros Hf Hvalid Hev Hre.
  destruct w as [st tx n f cs nid]. cbn [faults committed] in *. subst f.
  cbv zeta. rewrite createBooking_run by done. rewrite Hev, Hre. cbn [negb].
  destruct (Js.eqb _ _); cbn [fst snd committed transaction openSessions calls];
    (split_and!; [by eexists|done|done|done|by rewrite <- !List.app_assoc]).
Qed.

Lemma createBooking_rejects_address_witness :
  calls (BookingUtils.createBookingWithTransaction (IdObject (mkObjectId "e1"))
           "ada@example..org" (Spec.worldOf Props.oneEvent)).2
  = [StartSession; StartTransaction; EventFindById (mkObjectId "e1");
     AbortTransaction; EndSession].
Proof.
  refine (proj2 (proj2 (proj2 (proj2
    (createBooking_rejects_address (IdObject (mkObjectId "e1"))
       "ada@example..org" (Spec.worldOf Props.oneEvent)
       (Spec.event "Meetup" "meetup" "2024-01-05" "14:30") eq_refl eq_refl _ _))))).
  - by vm_compute.
  - by vm_compute.
Defined.

Lemma find_sameKey_Some (st : Store) (b : BookingDoc) (id j : ObjectId)
    (b' : BookingDoc) :
  bookings st !! j = Some b' → j ≠ id →
  bk_eventId b' = bk_eventId b → bk_email b' = bk_email b →
  is_Some (List.find (BookingModel.sameKey b id) (map_to_list (bookings st))).
Proof.
  intros Hl Hj He Hm.
  destruct (List.find _ _) eqn:E; [by eexists|].
  by destruct (proj1 (sameKey_find_None b id st) E j b' Hl Hj He).
Qed.

(** X18. The unique index compares addresses after normalisation: with the
    server answering, an id the cast accepts that names an Event and an
    accepted address, a Booking already held for the same Event under the
    normalised address makes [createBookingWithTransaction] throw the
    server's duplicate-key error for [uniq_event_email], unchanged by the
    [catch] block, and leaves the committed documents as they were. *)
Theorem createBooking_duplicate (eventId : IdArg) (email : string) (w : World)
    (ev : EventDoc) (j : ObjectId) (held : BookingDoc) :
  faults w = [] →
  isValidId eventId = true →
  events (committed w) !! objectIdOf eventId = Some ev →
  BookingModel.emailRegex_test (Props.normalizeEmail email) = true →
  bookings (committed w) !! Props.nextObjectId w = None →
  bookings (committed w) !! j = Some held →
  bk_eventId held = objectIdOf eventId →
  bk_email held = Props.normalizeEmail email →
  let r := BookingUtils.createBookingWithTransaction eventId email w in
  r.1 = Throw (EventModel.duplicateKey "uniq_event_email")
  ∧ committed r.2 = committed w
  ∧ transaction r.2 = None
  ∧ openSessions r.2 = openSessions w.
Proof.
  intros Hf Hvalid Hev Hre Hid Hj He Hm.
  destruct w as [st tx n f cs nid]. cbn [faults committed] in *. subst f.
  unfold Props.nextObjectId in *. cbn [nextId] in *.
  cbv zeta. rewrite createBooking_run by done.
  rewrite Hev, (emailRegex_nonempty _ Hre), Hre.
  cbn [negb]. rewrite bool_decide_eq_false_2 by (rewrite Hid; by intros [? ?]).
  destruct (find_sameKey_Some st
              (mkBooking (objectIdOf eventId) (Props.normalizeEmail email))
              (mkObjectId (Js.padStart 24 "0" (pretty nid))) j held)
    as [x ->]; try done.
  intros ->. by rewrite Hj in Hid.
Qed.

Lemma createBooking_duplicate_witness :
  (BookingUtils.createBookingWithTransaction (IdObject (mkObjectId "e1"))
     " ADA@example.org" (Spec.worldOf Props.bookedEvent)).1
  = Throw (JsError "MongoServerError"
             "E11000 duplicate key error index: uniq_event_email").
Proof.
  refine (proj1 (createBooking_duplicate (IdObject (mkObjectId "e1"))
                   " ADA@example.org" (Spec.worldOf Props.bookedEvent)
                   (Spec.event "Meetup" "meetup" "2024-01-05" "14:30")
                   (mkObjectId "b1") (mkBooking (mkObjectId "e1") "ada@example.org")
                   eq_refl eq_refl _ _ _ _ eq_refl _)).
  - by vm_compute.
  - by vm_compute.
  - by vm_compute.
  - by vm_compute.
  - by vm_compute.
Defined.

(** What [createBookingWithTransaction] leaves behind when the server
    answers: either nothing, or one new Booking under a fresh [_id]. *)
Lemma createBooking_effect (eventId : IdArg) (email : string) (w : World) :
  faults w = [] →
  let r := BookingUtils.createBookingWithTransaction eventId email w in
  transaction r.2 = None
  ∧ openSessions r.2 = openSessions w
  ∧ match r.1 with
    | Ok b =>
        BookingModel._id b = Props.nextObjectId w
        ∧ BookingModel.doc b
          = mkBooking (objectIdOf eventId) (Props.normalizeEmail email)
        ∧ bookings (committed w) !! BookingModel._id b = None
        ∧ is_Some (events (committed w) !! objectIdOf eventId)
        ∧ BookingModel.emailRegex_test (Props.normalizeEmail email) = true
        ∧ Props.noBookingFor (committed w) (objectIdOf eventId)
            (Props.normalizeEmail email)
        ∧ committed r.2
          = mkStore (events (committed w))
                    (<[BookingModel._id b := BookingModel.doc b]>
                       (bookings (committed w)))
    | Throw _ => committed r.2 = committed w
    end.
Proof.
  intros Hf. cbv zeta.
  destruct (isValidId eventId) eqn:Hvalid.
  2:{ by rewrite createBooking_cast_run by done. }
  destruct w as [st tx n f cs nid]. cbn [faults committed] in *. subst f.
  unfold Props.nextObjectId. cbn [nextId].
  rewrite createBooking_run by done.
  destruct (events st !! _) eqn:Hev; [|done].
  destruct (Js.eqb _ _); [done|].
  destruct (BookingModel.emailRegex_test _) eqn:Hre; [|done]. cbn [negb].
  destruct (bool_decide _) eqn:Hid; [done|].
  apply bool_decide_eq_false in Hid.
  destruct (List.find _ _) eqn:Hfind; [done|].
  cbn [fst snd committed transaction openSessions BookingModel._id BookingModel.doc].
  split_and!; try done.
  - by apply eq_None_not_Some.
  - intros j b Hl He Hm.
    assert (Hne : j ≠ mkObjectId (Js.padStart 24 "0" (pretty nid))).
    { intros ->. apply Hid. by eexists. }
    by destruct (proj1 (sameKey_find_None _ _ _) Hfind j b Hl Hne He).
Qed.

(** X19. [createBookingWithTransaction] is all or nothing when the server
    answers: whatever the arguments, it ends with the transaction closed,
    the session ended and the Events untouched; when it throws, the
    committed documents are exactly as before; when it returns a Booking,
    the Event exists, the Booking carries a fresh [_id] and the normalised
    address, and the committed Bookings are the former ones plus that one. *)
Theorem createBooking_all_or_nothing (eventId : IdArg) (email : string)
    (w : World) :
  faults w = [] →
  let r := BookingUtils.createBookingWithTransaction eventId email w in
  transaction r.2 = None
  ∧ openSessions r.2 = openSessions w
  ∧ events (committed r.2) = events (committed w)
  ∧ match r.1 with
    | Ok b =>
        is_Some (events (committed w) !! objectIdOf eventId)
        ∧ bookings (committed w) !! BookingModel._id b = None
        ∧ BookingModel.doc b
          = mkBooking (objectIdOf eventId) (Props.normalizeEmail email)
        ∧ bookings (committed r.2)
          = <[BookingModel._id b := BookingModel.doc b]> (bookings (committed w))
    | Throw _ => committed r.2 = committed w
    end.
Proof.
  intros Hf. pose proof (createBooking_effect eventId email w Hf) as H.
  cbv zeta in *. destruct H as (Ht & Hs & H).
  destruct (BookingUtils.createBookingWithTransaction eventId email w) as [[b|e] w'].
  - cbn [fst snd] in *. destruct H as (_ & Hd & Hid & Hev & _ & _ & Hc).
    rewrite Hc. by split_and!.
  - cbn [fst snd] in *. by rewrite H.
Qed.

Lemma createBooking_all_or_nothing_witness :
  committed (BookingUtils.createBookingWithTransaction (IdObject (mkObjectId "e2"))
               "ada@example.org" (Spec.worldOf Props.bookedEvent)).2
  = Props.bookedEvent.
Proof.
  pose proof (createBooking_all_or_nothing (IdObject (mkObjectId "e2"))
                "ada@example.org" (Spec.worldOf Props.bookedEvent) eq_refl) as H.
  cbv zeta in H. destruct H as (_ & _ & _ & H).
  change (BookingUtils.createBookingWithTransaction (IdObject (mkObjectId "e2"))
            "ada@example.org" (Spec.worldOf Props.bookedEvent)).1
    with (Throw (A := BookingModel.Instance)
            (BookingUtils.eventMissing (IdObject (mkObjectId "e2")))) in H.
  exact H.
Defined.

(** What [updateBookingWithTransaction] leaves behind when the server
    answers: either nothing, or the one Booking with its new address. *)
Lemma updateBooking_effect (bookingId : IdArg) (newEmail : string) (w : World) :
  faults w = [] →
  let r := BookingUtils.updateBookingWithTransaction bookingId newEmail w in
  transaction r.2 = None
  ∧ openSessions r.2 = openSessions w
  ∧ filter (λ c, Props.isEventCall c = true) (calls r.2)
    = filter (λ c, Props.isEventCall c = true) (calls w)
  ∧ match r.1 with
    | Ok b =>
        ∃ old, bookings (committed w) !! objectIdOf bookingId = Some old
        ∧ BookingModel._id b = objectIdOf bookingId
        ∧ BookingModel.doc b
          = mkBooking (bk_eventId old) (Props.normalizeEmail newEmail)
        ∧ BookingModel.emailRegex_test (Props.normalizeEmail newEmail) = true
        ∧ (∀ j b', bookings (committed w) !! j = Some b' →
             j ≠ objectIdOf bookingId → bk_eventId b' = bk_eventId old →
             bk_email b' ≠ Props.normalizeEmail newEmail)
        ∧ committed r.2
          = mkStore (events (committed w))
                    (<[objectIdOf bookingId := BookingModel.doc b]>
                       (bookings (committed w)))
    | Throw _ => committed r.2 = committed w
    end.
Proof.
  intros Hf. cbv zeta.
  destruct (isValidId bookingId) eqn:Hvalid.
  2:{ rewrite updateBooking_cast_run by done.
      destruct w as [st tx n f cs nid].
      cbn [fst snd committed transaction openSessions calls setTransaction
           Spec.afterCalls].
      split_and!; try done. by rewrite !filter_app, !List.app_nil_r. }
  destruct w as [st tx n f cs nid]. cbn [faults committed] in *. subst f.
  rewrite updateBooking_run by done.
  destruct (bookings st !! _) as [old|] eqn:Hold.
  2:{ cbn [fst snd committed transaction openSessions calls].
      split_and!; try done. by rewrite !filter_app, !List.app_nil_r. }
  destruct (Js.eqb _ _).
  { cbn [fst snd committed transaction openSessions calls].
    split_and!; try done. by rewrite !filter_app, !List.app_nil_r. }
  destruct (BookingModel.emailRegex_test _) eqn:Hre; cbn [negb].
  2:{ cbn [fst snd committed transaction openSessions calls].
      split_and!; try done. by rewrite !filter_app, !List.app_nil_r. }
  destruct (List.find _ _) eqn:Hfind.
  { cbn [fst snd committed transaction openSessions calls].
    split_and!; try done. by rewrite !filter_app, !List.app_nil_r. }
  cbn [fst snd committed transaction openSessions calls BookingModel._id
       BookingModel.doc].
  split_and!; try done.
  { by rewrite !filter_app, !List.app_nil_r. }
  exists old. split_and!; try done.
  intros j b' Hl Hne He.
  by apply (proj1 (sameKey_find_None _ _ _) Hfind j b' Hl Hne).
Qed.

Lemma deleteBooking_store (bookingId : IdArg) (w : World) :
  faults w = [] →
  committed (BookingUtils.deleteBookingWithTransaction bookingId w).2
  = if isValidId bookingId
    then mkStore (events (committed w))
                 (delete (objectIdOf bookingId) (bookings (committed w)))
    else committed w.
Proof.
  intros Hf. destruct (isValidId bookingId) eqn:Hvalid.
  - by rewrite deleteBooking_run by done.
  - by rewrite deleteBooking_cast_run by done.
Qed.

(** X20. The three transactional operations keep the unique index
    [uniq_event_email]: from committed documents in which no two Bookings
    share the Event and the address, and with the server answering, each of
    them ends with committed documents of the same kind, whatever its
    arguments and whether it returns or throws. *)
Theorem booking_operations_keep_index (w : World) :
  faults w = [] →
  Props.uniqueBookings (committed w) →
  (∀ eventId email,
     Props.uniqueBookings
       (committed (BookingUtils.createBookingWithTransaction eventId email w).2))
  ∧ (∀ bookingId newEmail,
       Props.uniqueBookings
         (committed (BookingUtils.updateBookingWithTransaction bookingId newEmail w).2))
  ∧ (∀ bookingId,
       Props.uniqueBookings
         (committed (BookingUtils.deleteBookingWithTransaction bookingId w).2)).
Proof.
  intros Hf Hu. split_and!.
  - intros eventId email.
    pose proof (createBooking_effect eventId email w Hf) as H. cbv zeta in H.
    destruct H as (_ & _ & H).
    destruct (BookingUtils.createBookingWithTransaction eventId email w)
      as [[b|e] w']; cbn [fst snd] in *; [|by rewrite H].
    destruct H as (_ & Hd & Hid & _ & _ & Hno & ->). rewrite Hd.
    intros i j x y Hi Hj He Hm. cbn [bookings] in Hi, Hj.
    apply lookup_insert_Some in Hi as [[<- <-]|[Hi1 Hi]];
      apply lookup_insert_Some in Hj as [[<- <-]|[Hj1 Hj]]; try done.
    + cbn [bk_eventId bk_email] in *. by destruct (Hno j y Hj).
    + cbn [bk_eventId bk_email] in *. by destruct (Hno i x Hi).
    + by apply (Hu i j x y).
  - intros bookingId newEmail.
    pose proof (updateBooking_effect bookingId newEmail w Hf) as H. cbv zeta in H.
    destruct H as (_ & _ & _ & H).
    destruct (BookingUtils.updateBookingWithTransaction bookingId newEmail w)
      as [[b|e] w']; cbn [fst snd] in *; [|by rewrite H].
    destruct H as (old & Hold & _ & Hd & _ & Hno & ->). rewrite Hd.
    intros i j x y Hi Hj He Hm. cbn [bookings] in Hi, Hj.
    apply lookup_insert_Some in Hi as [[<- <-]|[Hi1 Hi]];
      apply lookup_insert_Some in Hj as [[Hj1 <-]|[Hj1 Hj]]; try done.
    + cbn [bk_eventId bk_email] in *. by destruct (Hno j y Hj).
    + cbn [bk_eventId bk_email] in *. by destruct (Hno i x Hi).
    + by apply (Hu i j x y).
  - intros bookingId. rewrite (deleteBooking_store _ _ Hf).
    destruct (isValidId bookingId); [|done].
    intros i j x y Hi Hj. cbn [bookings] in Hi, Hj.
    apply lookup_delete_Some in Hi as [_ Hi].
    apply lookup_delete_Some in Hj as [_ Hj].
    by apply (Hu i j x y).
Qed.

Lemma booking_operations_keep_index_witness :
  faults (Spec.worldOf Props.oneEvent) = []
  ∧ Props.uniqueBookings
      (committed (BookingUtils.createBookingWithTransaction
                    (IdObject (mkObjectId "e1")) "ada@example.org"
                    (Spec.worldOf Props.oneEvent)).2).
Proof.
  split; [reflexivity|].
  refine (proj1 (booking_operations_keep_index (Spec.worldOf Props.oneEvent)
                   eq_refl _) _ _).
  intros i j b b' Hi. by vm_compute in Hi.
Defined.

(** X21. The three transactional operations keep every Booking attached to
    an Event: from committed documents in which each Booking refers to an
    Event of the store, and with the server answering, each operation ends
    with committed documents of the same kind (an update does not look at
    the Event again, and does not have to: it keeps the [eventId]). *)
Theorem booking_operations_keep_references (w : World) :
  faults w = [] →
  Props.referencesHold (committed w) →
  (∀ eventId email,
     Props.referencesHold
       (committed (BookingUtils.createBookingWithTransaction eventId email w).2))
  ∧ (∀ bookingId newEmail,
       Props.referencesHold
         (committed (BookingUtils.updateBookingWithTransaction bookingId newEmail w).2))
  ∧ (∀ bookingId,
       Props.referencesHold
         (committed (BookingUtils.deleteBookingWithTransaction bookingId w).2)).
Proof.
  intros Hf Hr. split_and!.
  - intros eventId email.
    pose proof (createBooking_effect eventId email w Hf) as H. cbv zeta in H.
    destruct H as (_ & _ & H).
    destruct (BookingUtils.createBookingWithTransaction eventId email w)
      as [[b|e] w']; cbn [fst snd] in *; [|by rewrite H].
    destruct H as (_ & Hd & _ & Hev & _ & _ & ->). rewrite Hd.
    intros j x Hj. cbn [bookings events] in *.
    apply lookup_insert_Some in Hj as [[_ <-]|[_ Hj]]; [done|by apply (Hr j)].
  - intros bookingId newEmail.
    pose proof (updateBooking_effect bookingId newEmail w Hf) as H. cbv zeta in H.
    destruct H as (_ & _ & _ & H).
    destruct (BookingUtils.updateBookingWithTransaction bookingId newEmail w)
      as [[b|e] w']; cbn [fst snd] in *; [|by rewrite H].
    destruct H as (old & Hold & _ & Hd & _ & _ & ->). rewrite Hd.
    intros j x Hj. cbn [bookings events] in *.
    apply lookup_insert_Some in Hj as [[_ <-]|[_ Hj]]; [|by apply (Hr j)].
    by apply (Hr _ _ Hold).
  - intros bookingId. rewrite (deleteBooking_store _ _ Hf).
    destruct (isValidId bookingId); [|done].
    intros j x Hj. cbn [bookings events] in *.
    apply lookup_delete_Some in Hj as [_ Hj]. by apply (Hr j).
Qed.

Lemma booking_operations_keep_references_witness :
  faults (Spec.worldOf Props.oneEvent) = []
  ∧ Props.referencesHold
      (committed (BookingUtils.createBookingWithTransaction
                    (IdObject (mkObjectId "e1")) "ada@example.org"
                    (Spec.worldOf Props.oneEvent)).2).
Proof.
  split; [reflexivity|].
  refine (proj1 (booking_operations_keep_references (Spec.worldOf Props.oneEvent)
                   eq_refl _) _ _).
  intros j b Hj. by vm_compute in Hj.
Defined.

(** X22. Every address the transactional operations store is in normal form
    and accepted by the schema's validator: from committed documents with
    that property, and with the server answering, each operation ends with
    committed documents that have it. *)
Theorem booking_operations_keep_addresses (w : World) :
  faults w = [] →
  Props.emailsNormal (committed w) →
  (∀ eventId email,
     Props.emailsNormal
       (committed (BookingUtils.createBookingWithTransaction eventId email w).2))
  ∧ (∀ bookingId newEmail,
       Props.emailsNormal
         (committed (BookingUtils.updateBookingWithTransaction bookingId newEmail w).2))
  ∧ (∀ bookingId,
       Props.emailsNormal
         (committed (BookingUtils.deleteBookingWithTransaction bookingId w).2)).
Proof.
  intros Hf Hn. split_and!.
  - intros eventId email.
    pose proof (createBooking_effect eventId email w Hf) as H. cbv zeta in H.
    destruct H as (_ & _ & H).
    destruct (BookingUtils.createBookingWithTransaction eventId email w)
      as [[b|e] w']; cbn [fst snd] in *; [|by rewrite H].
    destruct H as (_ & Hd & _ & _ & Hre & _ & ->). rewrite Hd.
    intros j x Hj. cbn [bookings] in *.
    apply lookup_insert_Some in Hj as [[_ <-]|[_ Hj]]; [|by apply (Hn j)].
    cbn [bk_email]. split; [apply normalizeEmail_twice|done].
  - intros bookingId newEmail.
    pose proof (updateBooking_effect bookingId newEmail w Hf) as H. cbv zeta in H.
    destruct H as (_ & _ & _ & H).
    destruct (BookingUtils.updateBookingWithTransaction bookingId newEmail w)
      as [[b|e] w']; cbn [fst snd] in *; [|by rewrite H].
    destruct H as (old & _ & _ & Hd & Hre & _ & ->). rewrite Hd.
    intros j x Hj. cbn [bookings] in *.
    apply lookup_insert_Some in Hj as [[_ <-]|[_ Hj]]; [|by apply (Hn j)].
    cbn [bk_email]. split; [apply normalizeEmail_twice|done].
  - intros bookingId. rewrite (deleteBooking_store _ _ Hf).
    destruct (isValidId bookingId); [|done].
    intros j x Hj. cbn [bookings] in *.
    apply lookup_delete_Some in Hj as [_ Hj]. by apply (Hn j).
Qed.

Lemma booking_operations_keep_addresses_witness :
  faults (Spec.worldOf Props.oneEvent) = []
  ∧ Props.emailsNormal
      (committed (BookingUtils.createBookingWithTransaction
                    (IdObject (mkObjectId "e1")) " Ada@Example.org"
                    (Spec.worldOf Props.oneEvent)).2).
Proof.
  split; [reflexivity|].
  refine (proj1 (booking_operations_keep_addresses (Spec.worldOf Props.oneEvent)
                   eq_refl _) _ _).
  intros j b Hj. by vm_compute in Hj.
Defined.

(** X23. An update of a Booking that does not exist, with the server
    answering. For an id the cast accepts (an ObjectId, or the text of one:
    24 hexadecimal digits) that names no Booking,
    [updateBookingWithTransaction] throws "Booking with ID ... does not
    exist" with the id as the caller wrote it, after one look-up in the
    transaction. For any other string it throws the [CastError] of the
    look-up, which does not reach the server. In both cases the transaction
    is aborted, the session ended, and no document has changed. *)
Theorem updateBooking_missing (bookingId : IdArg) (newEmail : string) (w : World) :
  faults w = [] →
  let r := BookingUtils.updateBookingWithTransaction bookingId newEmail w in
  (isValidId bookingId = true →
   bookings (committed w) !! objectIdOf bookingId = None →
   r.1 = Throw (Error ("Booking with ID " +:+ idText bookingId +:+ " does not exist"))
   ∧ committed r.2 = committed w
   ∧ transaction r.2 = None
   ∧ openSessions r.2 = openSessions w
   ∧ calls r.2
     = calls w ++ [StartSession; StartTransaction;
                   BookingFindById (objectIdOf bookingId);
                   AbortTransaction; EndSession])
  ∧ (isValidId bookingId = false →
     (∃ message, r.1 = Throw (JsError "CastError" message))
     ∧ committed r.2 = committed w
     ∧ transaction r.2 = None
     ∧ openSessions r.2 = openSessions w
     ∧ calls r.2
       = calls w ++ [StartSession; StartTransaction;
                     AbortTransaction; EndSession]).
Proof.
  intros Hf. cbv zeta. split.
  - intros Hvalid Hb.
    destruct w as [st tx n f cs nid]. cbn [faults committed] in *. subst f.
    rewrite updateBooking_run by done. rewrite Hb.
    cbn [fst snd committed transaction openSessions calls].
    split_and!; try done. by rewrite <- !List.app_assoc.
  - intros Hvalid. rewrite updateBooking_cast_run by done.
    destruct w. split_and!; try done. by eexists.
Qed.

Lemma updateBooking_missing_witness :
  (BookingUtils.updateBookingWithTransaction (IdString "65f0c0ffee0000000000b002")
     "ada@example.org" (Spec.worldOf Spec.storedBooking)).1
  = Throw (Error "Booking with ID 65f0c0ffee0000000000b002 does not exist")
  ∧ calls (BookingUtils.updateBookingWithTransaction (IdString "b2")
             "ada@example.org" (Spec.worldOf Spec.storedBooking)).2
    = [StartSession; StartTransaction; AbortTransaction; EndSession].
Proof.
  split.
  - refine (proj1 (proj1 (updateBooking_missing (IdString "65f0c0ffee0000000000b002")
                     "ada@example.org" (Spec.worldOf Spec.storedBooking) eq_refl)
                     _ _)).
    + by vm_compute.
    + by vm_compute.
  - refine (proj2 (proj2 (proj2 (proj2
              (proj2 (updateBooking_missing (IdString "b2")
                        "ada@example.org" (Spec.worldOf Spec.storedBooking) eq_refl)
                     _))))).
    by vm_compute.
Defined.

(** X24. An update that goes through: with the server answering, an id
    the cast accepts that names a Booking, an address the validator accepts
    once normalised and no other Booking of the same Event under it (the
    Booking's own address is no obstacle), [updateBookingWithTransaction]
    returns the Booking with its [eventId] kept and the normalised address,
    and commits exactly that change. The Event collection is never
    consulted, so the update goes through whether or not the Event still
    exists. *)
Theorem updateBooking_success (bookingId : IdArg) (newEmail : string) (w : World)
    (old : BookingDoc) :
  faults w = [] →
  isValidId bookingId = true →
  bookings (committed w) !! objectIdOf bookingId = Some old →
  BookingModel.emailRegex_test (Props.normalizeEmail newEmail) = true →
  (∀ j b, bookings (committed w) !! j = Some b → j ≠ objectIdOf bookingId →
          bk_eventId b = bk_eventId old →
          bk_email b ≠ Props.normalizeEmail newEmail) →
  let r := BookingUtils.updateBookingWithTransaction bookingId newEmail w in
  let b := mkBooking (bk_eventId old) (Props.normalizeEmail newEmail) in
  r.1 = Ok (BookingModel.mkInstance (objectIdOf bookingId) b false false false)
  ∧ committed r.2
    = mkStore (events (committed w))
              (<[objectIdOf bookingId := b]> (bookings (committed w)))
  ∧ transaction r.2 = None
  ∧ openSessions r.2 = openSessions w
  ∧ filter (λ c, Props.isEventCall c = true) (calls r.2)
    = filter (λ c, Props.isEventCall c = true) (calls w).
Proof.
  intros Hf Hvalid Hb Hre Hno.
  destruct w as [st tx n f cs nid]. cbn [faults committed] in *. subst f.
  cbv zeta. rewrite updateBooking_run by done.
  rewrite Hb, (emailRegex_nonempty _ Hre), Hre.
  cbn [negb].
  rewrite (proj2 (sameKey_find_None
                    (mkBooking (bk_eventId old) (Props.normalizeEmail newEmail))
                    (objectIdOf bookingId) st)) by done.
  cbn [fst snd committed transaction openSessions calls].
  split_and!; try done. by rewrite !filter_app, !List.app_nil_r.
Qed.

Lemma updateBooking_success_witness :
  (BookingUtils.updateBookingWithTransaction (IdObject (mkObjectId "b1"))
     " Ada@Example.ORG " (Spec.worldOf Spec.oneBooking)).1
  = Ok (BookingModel.mkInstance (mkObjectId "b1")
          (mkBooking (mkObjectId "e1") "ada@example.org") false false false).
Proof.
  refine (proj1 (updateBooking_success (IdObject (mkObjectId "b1"))
                   " Ada@Example.ORG " (Spec.worldOf Spec.oneBooking)
                   (mkBooking (mkObjectId "e1") "ada@example.org")
                   eq_refl eq_refl _ _ _)).
  - by vm_compute.
  - by vm_compute.
  - intros j b Hj Hne. exfalso.
    change (bookings (committed (Spec.worldOf Spec.oneBooking)))
      with ({[ mkObjectId "b1" := mkBooking (mkObjectId "e1") "ada@example.org" ]}
              : gmap ObjectId BookingDoc) in Hj.
    apply lookup_singleton_Some in Hj as [<- _]. by apply Hne.
Defined.

Lemma createBooking_world (eventId : IdArg) (email : string) (w : World) :
  faults w = [] →
  faults (BookingUtils.createBookingWithTransaction eventId email w).2 = [].
Proof.
  intros Hf. destruct (isValidId eventId) eqn:Hvalid.
  2:{ rewrite createBooking_cast_run by done. by destruct w. }
  destruct w as [st tx n f cs nid]. cbn [faults] in *. subst f.
  rewrite createBooking_run by done.
  destruct (events st !! _); [|done].
  destruct (Js.eqb _ _); [done|].
  destruct (negb _); [done|].
  destruct (bool_decide _); [done|].
  by destruct (List.find _ _).
Qed.

(** A creation that returns was given an id the cast accepts. *)
Lemma createBooking_Ok_valid (eventId : IdArg) (email : string) (w : World)
    (b : BookingModel.Instance) :
  faults w = [] →
  (BookingUtils.createBookingWithTransaction eventId email w).1 = Ok b →
  isValidId eventId = true.
Proof.
  intros Hf Hb. destruct (isValidId eventId) eqn:Hvalid; [done|].
  by rewrite createBooking_cast_run in Hb by done.
Qed.

(** X25. Creation and deletion are inverse on the committed documents: with
    the server answering, when [createBookingWithTransaction] returns a
    Booking, [deleteBookingWithTransaction] called with its [_id] returns
    [true] and the committed documents are again exactly those from before
    the creation. *)
Theorem create_then_delete (eventId : IdArg) (email : string) (w : World)
    (b : BookingModel.Instance) :
  faults w = [] →
  (BookingUtils.createBookingWithTransaction eventId email w).1 = Ok b →
  let w1 := (BookingUtils.createBookingWithTransaction eventId email w).2 in
  let r := BookingUtils.deleteBookingWithTransaction
             (IdObject (BookingModel._id b)) w1 in
  r.1 = Ok true ∧ committed r.2 = committed w.
Proof.
  intros Hf Hb. cbv zeta.
  pose proof (createBooking_world eventId email w Hf) as Hf1.
  pose proof (createBooking_effect eventId email w Hf) as H. cbv zeta in H.
  rewrite Hb in H. destruct H as (_ & _ & _ & _ & Hid & _ & _ & _ & Hc).
  rewrite (deleteBooking_run (IdObject (BookingModel._id b)) _ Hf1 eq_refl), Hc.
  cbn [fst snd committed transaction setTransaction setCommitted events bookings
       objectIdOf].
  rewrite lookup_insert_eq. split.
  - done.
  - rewrite delete_insert_id by done. apply store_eta.
Qed.

Lemma create_then_delete_witness :
  committed
    (BookingUtils.deleteBookingWithTransaction
       (IdObject (mkObjectId "000000000000000000000000"))
       (BookingUtils.createBookingWithTransaction (IdObject (mkObjectId "e1"))
          "ada@example.org" (Spec.worldOf Props.oneEvent)).2).2
  = Props.oneEvent.
Proof.
  refine (proj2 (create_then_delete (IdObject (mkObjectId "e1")) "ada@example.org"
                   (Spec.worldOf Props.oneEvent)
                   (BookingModel.mkInstance (mkObjectId "000000000000000000000000")
                      (mkBooking (mkObjectId "e1") "ada@example.org")
                      false false false)
                   eq_refl _)).
  by vm_compute.
Defined.

(** X26. A Booking cannot be made twice: with the server answering, once
    [createBookingWithTransaction] has returned a Booking, a second call for
    the same Event with an address that has the same normal form throws a
    duplicate-key error of the server and leaves the committed documents as
    the first call left them. *)
Theorem create_twice (eventId : IdArg) (email email' : string) (w : World)
    (b : BookingModel.Instance) :
  faults w = [] →
  (BookingUtils.createBookingWithTransaction eventId email w).1 = Ok b →
  Props.normalizeEmail email' = Props.normalizeEmail email →
  let w1 := (BookingUtils.createBookingWithTransaction eventId email w).2 in
  let r := BookingUtils.createBookingWithTransaction eventId email' w1 in
  (∃ index, r.1 = Throw (EventModel.duplicateKey index))
  ∧ committed r.2 = committed w1.
Proof.
  intros Hf Hb Hem. cbv zeta.
  pose proof (createBooking_Ok_valid eventId email w b Hf Hb) as Hvalid.
  pose proof (createBooking_world eventId email w Hf) as Hf1.
  pose proof (createBooking_effect eventId email w Hf) as H. cbv zeta in H.
  rewrite Hb in H. destruct H as (_ & _ & _ & Hd & Hid & [ev Hev] & Hre & _ & Hc).
  destruct (BookingUtils.createBookingWithTransaction eventId email w) as [r1 w1].
  cbn [fst snd] in *. subst r1.
  destruct w1 as [st tx n f cs nid]. cbn [faults committed] in *. subst f.
  rewrite createBooking_run by done. rewrite Hem. subst st. cbn [events bookings].
  rewrite Hev, (emailRegex_nonempty _ Hre), Hre. cbn [negb].
  destruct (bool_decide _) eqn:Hnew; [split; [by eexists|done]|].
  apply bool_decide_eq_false in Hnew.
  destruct (find_sameKey_Some
              (mkStore (events (committed w))
                 (<[BookingModel._id b := BookingModel.doc b]> (bookings (committed w))))
              (mkBooking (objectIdOf eventId) (Props.normalizeEmail email))
              (mkObjectId (Js.padStart 24 "0" (pretty nid)))
              (BookingModel._id b) (BookingModel.doc b)) as [x Hx].
  - cbn [bookings]. apply lookup_insert_eq.
  - intros Heq. apply Hnew. rewrite <- Heq, lookup_insert_eq. by eexists.
  - by rewrite Hd.
  - by rewrite Hd.
  - cbn [bookings] in Hx. rewrite Hx. split; [by eexists|done].
Qed.

Lemma create_twice_witness :
  ∃ index,
    (BookingUtils.createBookingWithTransaction (IdObject (mkObjectId "e1"))
       " ADA@EXAMPLE.ORG "
       (BookingUtils.createBookingWithTransaction (IdObject (mkObjectId "e1"))
          "ada@example.org" (Spec.worldOf Props.oneEvent)).2).1
    = Throw (EventModel.duplicateKey index).
Proof.
  refine (proj1 (create_twice (IdObject (mkObjectId "e1")) "ada@example.org"
                   " ADA@EXAMPLE.ORG " (Spec.worldOf Props.oneEvent)
                   (BookingModel.mkInstance (mkObjectId "000000000000000000000000")
                      (mkBooking (mkObjectId "e1") "ada@example.org")
                      false false false)
                   eq_refl _ _)).
  - by vm_compute.
  - by vm_compute.
Defined.

(* ===================================================================== *)
(** * The transactional operations when the server fails *)
(* ===================================================================== *)

(** X27. A failure of the server before and inside the [try] block. When
    [mongoose.startSession()] fails, each of the three operations throws
    what the server threw, as it is: no transaction is started, nothing is
    aborted or ended, no document is read or written. When the first
    look-up inside the transaction, for an id the cast accepts, fails at the
    server and the server answers again afterwards, each operation aborts
    the transaction, ends the session and throws: the error of the server
    when it is an [Error], and otherwise a new [Error] "Failed to create
    (update, delete) booking: Unknown error". In both cases no document has
    changed. *)
Theorem failure_before_and_inside_try (e : Thrown) (w : World) :
  (∀ rest, faults w = Some e :: rest →
     let stopped := mkWorld (committed w) (transaction w) (openSessions w) rest
                      (calls w ++ [StartSession]) (nextId w) in
     (∀ eventId email,
        BookingUtils.createBookingWithTransaction eventId email w
        = (Throw e, stopped))
     ∧ (∀ bookingId newEmail,
          BookingUtils.updateBookingWithTransaction bookingId newEmail w
          = (Throw e, stopped))
     ∧ (∀ bookingId,
          BookingUtils.deleteBookingWithTransaction bookingId w
          = (Throw e, stopped)))
  ∧ (faults w = [None; Some e] →
     let after c := mkWorld (committed w) None (openSessions w) []
                      (calls w ++ [StartSession; StartTransaction; c;
                                   AbortTransaction; EndSession]) (nextId w) in
     (∀ eventId email,
        isValidId eventId = true →
        BookingUtils.createBookingWithTransaction eventId email w
        = (Throw (Props.rethrown "Failed to create booking: Unknown error" e),
           after (EventFindById (objectIdOf eventId))))
     ∧ (∀ bookingId newEmail,
          isValidId bookingId = true →
          BookingUtils.updateBookingWithTransaction bookingId newEmail w
          = (Throw (Props.rethrown "Failed to update booking: Unknown error" e),
             after (BookingFindById (objectIdOf bookingId))))
     ∧ (∀ bookingId,
          isValidId bookingId = true →
          BookingUtils.deleteBookingWithTransaction bookingId w
          = (Throw (Props.rethrown "Failed to delete booking: Unknown error" e),
             after (BookingFindByIdAndDelete (objectIdOf bookingId))))).
Proof.
  destruct w as [st tx n f cs nid]. cbn [faults]. split.
  - intros rest ->. by split_and!.
  - intros ->. cbv zeta. cbn [committed openSessions calls nextId].
    split_and!; intros; destruct e;
      unfold BookingUtils.createBookingWithTransaction,
        BookingUtils.updateBookingWithTransaction,
        BookingUtils.deleteBookingWithTransaction;
      (erewrite bind_ok by reflexivity); (erewrite bind_ok by reflexivity);
      unfold tryCatchFinally, tryCatch, bind, BookingUtils.abortAndRethrow,
        EventModel.findById, BookingModel.findById, BookingModel.findByIdAndDelete;
      rewrite castObjectId_valid by done;
      cbn;
      cbv [setOpenSessions logCall setTransaction setFaults committed transaction
           openSessions faults calls nextId];
      by rewrite <- ?List.app_assoc.
Qed.

Lemma failure_before_and_inside_try_witness :
  (BookingUtils.createBookingWithTransaction (IdObject (mkObjectId "e1"))
     "ada@example.org"
     (mkWorld Props.oneEvent None 0 [None; Some (NonError "socket closed")] [] 0)).1
  = Throw (Error "Failed to create booking: Unknown error").
Proof.
  refine (f_equal fst (proj1 (proj2 (failure_before_and_inside_try
    (NonError "socket closed")
    (mkWorld Props.oneEvent None 0 [None; Some (NonError "socket closed")] [] 0))
    eq_refl) (IdObject (mkObjectId "e1")) "ada@example.org" eq_refl)).
Defined.



(* ===================================================================== *)
(** * The connection cache *)
(* ===================================================================== *)

Lemma connectTimes_cached (outcome : nat → Connection.Settled)
    (p : Connection.Process) (h : Connection.Handle) (n : nat) :
  Connection.conn (Connection.cached p) = Some h →
  Connection.connectTimes outcome n p = (replicate n (Ok h), p).
Proof.
  intros Hc. induction n as [|n IH]; [done|].
  cbn [Connection.connectTimes]. by rewrite (connectDB_cached _ _ _ Hc), IH.
Qed.

Lemma failures_replicate_Ok {A} (a : A) (n : nat) :
  Props.failures (replicate n (Ok a)) = O.
Proof. unfold Props.failures. by induction n as [|n IH]. Qed.

(** X29. What a run of calls costs: starting with an empty cache, the number
    of calls of [mongoose.connect] made by [n] calls of [connectDB] in a row
    is the number of calls that failed, plus one when some call succeeded.
    And once a call has succeeded, every later call of the run returns the
    same connection. *)
Theorem connectDB_attempts (outcome : nat → Connection.Settled) (n k : nat) :
  let r := Connection.connectTimes outcome n
             (Connection.mkProcess (Connection.mkCache None None) k) in
  Connection.connects r.2
  = (k + Props.failures r.1 + (if Props.succeeded r.1 then 1 else 0))%nat
  ∧ ∀ i j h, (i ≤ j)%nat → (j < n)%nat →
             r.1 !! i = Some (Ok h) → r.1 !! j = Some (Ok h).
Proof.
  cbv zeta. revert k. induction n as [|n IH]; intros k.
  { cbn. split; [lia|]. intros; lia. }
  cbn [Connection.connectTimes]. rewrite connectDB_fresh.
  destruct (outcome k) as [h|e].
  - rewrite (connectTimes_cached outcome _ h n) by done.
    cbn [fst snd Connection.connects Props.succeeded existsb orb Props.isThrow negb].
    split.
    + change (Props.failures (Ok h :: replicate n (Ok h)))
        with (Props.failures (replicate n (Ok (A:=Connection.Handle) h))).
      rewrite failures_replicate_Ok. lia.
    + intros i j h' Hij Hj Hi.
      change (Ok h :: replicate n (Ok h)) with (replicate (S n) (Ok (A:=Connection.Handle) h)) in *.
      apply lookup_replicate in Hi as [Hi _].
      apply lookup_replicate. split; [done|lia].
  - specialize (IH (S k)).
    destruct (Connection.connectTimes outcome n _) as [rs p'].
    cbn [fst snd] in *. destruct IH as [IH1 IH2].
    cbn [Props.succeeded existsb orb Props.isThrow negb].
    split.
    + rewrite IH1. unfold Props.failures, Props.succeeded.
      cbn [List.filter Props.isThrow length]. lia.
    + intros i j h Hij Hj Hi. destruct i as [|i]; [done|].
      destruct j as [|j]; [lia|]. cbn [lookup list_lookup] in *.
      apply (IH2 i j h); [lia|lia|done].
Qed.

Lemma connectDB_attempts_witness :
  Connection.connects
    (Connection.connectTimes Spec.refusesOnce 4
       (Connection.mkProcess (Connection.mkCache None None) 0)).2
  = 2%nat
  ∧ (Connection.connectTimes Spec.refusesOnce 4
       (Connection.mkProcess (Connection.mkCache None None) 0)).1 !! 3%nat
    = Some (Ok 7%nat).
Proof.
  destruct (connectDB_attempts Spec.refusesOnce 4 0) as [H1 H2].
  split; [exact H1|].
  apply (H2 1%nat 3%nat 7%nat); [lia|lia|reflexivity].
Defined.

Lemma connectDB_Ok_cached (outcome : nat → Connection.Settled)
    (p : Connection.Process) (h : Connection.Handle) :
  (Connection.connectDB outcome p).1 = Ok h →
  Connection.conn (Connection.cached (Connection.connectDB outcome p).2) = Some h.
Proof.
  destruct p as [[c pr] k]. unfold Connection.connectDB. simpl.
  destruct c as [h'|]; [by intros [= ->]|].
  destruct pr as [a|]; simpl.
  - destruct (outcome a); [|done]. by intros [= ->].
  - destruct (outcome k); [|done]. by intros [= ->].
Qed.

(** X30. The cache kept on [global] survives a reload of the module: when
    [connectDB] has returned a connection, a module loaded again over the
    same [global] (with [MONGODB_URI] defined and not empty) returns that
    connection from its first call on, and calls [mongoose.connect] no more.
    Without [MONGODB_URI] the module throws at load time, whatever [global]
    holds. *)
Theorem reload_reuses_connection (outcome : nat → Connection.Settled)
    (p : Connection.Process) (h : Connection.Handle) (uri : string) :
  (Connection.connectDB outcome p).1 = Ok h →
  uri ≠ "" →
  let p1 := (Connection.connectDB outcome p).2 in
  (∃ p2, Connection.init (Some uri) (Some (Connection.cached p1))
           (Connection.connects p1) = Ok p2
         ∧ ∀ n, Connection.connectTimes outcome n p2 = (replicate n (Ok h), p2))
  ∧ Connection.init None (Some (Connection.cached p1)) (Connection.connects p1)
    = Throw Connection.missingUri
  ∧ Connection.init (Some "") (Some (Connection.cached p1)) (Connection.connects p1)
    = Throw Connection.missingUri.
Proof.
  intros Hok Huri. cbv zeta. split; [|done].
  unfold Connection.init.
  destruct (Js.eqb uri "") eqn:E; [by apply eqb_true in E|].
  eexists. split; [done|].
  intros n. apply connectTimes_cached. cbn [Connection.cached default from_option id].
  by apply connectDB_Ok_cached.
Qed.

Lemma reload_reuses_connection_witness :
  ∃ p2,
    Connection.init (Some "mongodb://localhost/dev")
      (Some (Connection.cached
               (Connection.connectDB Spec.refusesOnce
                  (Connection.mkProcess (Connection.mkCache None None) 1)).2))
      2
    = Ok p2
    ∧ ∀ n, Connection.connectTimes Spec.refusesOnce n p2 = (replicate n (Ok 7%nat), p2).
Proof.
  refine (proj1 (reload_reuses_connection Spec.refusesOnce
                   (Connection.mkProcess (Connection.mkCache None None) 1) 7%nat
                   "mongodb://localhost/dev" eq_refl _)).
  discriminate.
Defined.
